(** * FrontmatterManager: a shallow embedding of frontmatter-array.js and
    frontmatter-editor.js, and the properties of their transform engine,
    file orchestrator, directory walker and cross-directory copier. *)

From Stdlib Require Import ZArith Lia List Ascii String DecimalString Bool.
From stdpp Require Import gmap strings list.

Set Warnings "-register-all".

Open Scope string_scope.

(** ** The JavaScript values and built-ins the two scripts rely on *)

Module JS.

(** *** Strings

    A JavaScript string is a sequence of 16-bit code units.  The model keeps
    the code units below 256, so a [string] of the standard library is read
    as the sequence of its code units. *)

(** WhiteSpace and LineTerminator code units below 256: TAB, LF, VT, FF, CR,
    SPACE and NO-BREAK SPACE.  These are what [String.prototype.trim]
    strips. *)
Definition isWhiteSpace (c : ascii) : bool :=
  let n := nat_of_ascii c in
  ((9 <=? n)%nat && (n <=? 13)%nat) || (n =? 32)%nat || (n =? 160)%nat.

Fixpoint trimStart (s : string) : string :=
  match s with
  | EmptyString => EmptyString
  | String c s' => if isWhiteSpace c then trimStart s' else s
  end.

Fixpoint trimEnd (s : string) : string :=
  match s with
  | EmptyString => EmptyString
  | String c s' =>
      match trimEnd s' with
      | EmptyString => if isWhiteSpace c then EmptyString else String c EmptyString
      | t => String c t
      end
  end.

(** [s.trim()] *)
Definition trim (s : string) : string := trimEnd (trimStart s).

(** [s.startsWith(p)] *)
Definition startsWith (p s : string) : bool := String.prefix p s.

Fixpoint dropChars (n : nat) (s : string) : string :=
  match n, s with
  | O, _ => s
  | S _, EmptyString => EmptyString
  | S k, String _ s' => dropChars k s'
  end.

(** [s.endsWith(p)] *)
Definition endsWith (p s : string) : bool :=
  (String.length p <=? String.length s)%nat &&
  (dropChars (String.length s - String.length p) s =? p).

(** [s.includes(p)] *)
Fixpoint includes (p s : string) : bool :=
  String.prefix p s ||
  match s with
  | EmptyString => false
  | String _ s' => includes p s'
  end.

(** [s.split(sep)] for a string separator.  [split_go] scans [s] from the
    left: [cur] is the piece being accumulated, [skip] counts the code units
    of a separator occurrence that are still to be passed over.  An
    occurrence of [sep] closes the current piece; occurrences do not
    overlap.  With the empty separator the string is split into its code
    units. *)
Fixpoint split_go (sep : string) (skip : nat) (cur : string) (s : string)
  : list string :=
  match s with
  | EmptyString => [cur]
  | String c s' =>
      match skip with
      | S k => split_go sep k cur s'
      | O =>
          if String.prefix sep s
          then cur :: split_go sep (String.length sep - 1) EmptyString s'
          else split_go sep 0 (cur ++ String c EmptyString) s'
      end
  end.

Definition split (sep s : string) : list string :=
  match sep with
  | EmptyString => map (fun c => String c EmptyString) (list_ascii_of_string s)
  | _ => split_go sep 0 EmptyString s
  end.

(** Joining strings with a separator, the string part of
    [Array.prototype.join]. *)
Fixpoint joinStrings (sep : string) (l : list string) : string :=
  match l with
  | [] => EmptyString
  | [x] => x
  | x :: r => x ++ sep ++ joinStrings sep r
  end.

(** *** Numbers

    A number that is an integer is kept as that integer.  The numbers that
    are no integers are negative zero, NaN, the two infinities, and the
    finite numbers with a fractional part.  The scripts never compute with
    such a number: they test it, compare it and print it.  A finite number
    with a fractional part is therefore kept as the text ToString gives
    for it ([3.14], [0.001], [1e-7]), which is a different text for each
    such number. *)
Inductive otherNumber :=
| NegativeZero
| NotANumber
| Infinity (negative : bool)
| Fraction (text : string).

(** What [Number(s)] gives. *)
Inductive number :=
| Integer (n : Z)
| Other (x : otherNumber).

(** ToString of a number that is no integer. *)
Definition otherToString (x : otherNumber) : string :=
  match x with
  | NegativeZero => "0"
  | NotANumber => "NaN"
  | Infinity false => "Infinity"
  | Infinity true => "-Infinity"
  | Fraction text => text
  end.

(** Two numbers that are no integers are the same number. *)
Definition otherEqb (x y : otherNumber) : bool :=
  match x, y with
  | NegativeZero, NegativeZero => true
  | NotANumber, NotANumber => true
  | Infinity a, Infinity b => Bool.eqb a b
  | Fraction a, Fraction b => (a =? b)
  | _, _ => false
  end.

(** [JSON.stringify] prints NaN and the infinities as [null]. *)
Definition printsAsNull (x : otherNumber) : bool :=
  match x with
  | NotANumber | Infinity _ => true
  | _ => false
  end.

(** *** Values

    What the frontmatter parser hands back: null, booleans, numbers,
    strings, arrays and nested mappings.  A number is [VNum] when it is an
    integer and [VOther] when it is not.  Dates are outside the model. *)
Inductive value : Type :=
| VNull
| VBool (b : bool)
| VNum (n : Z)
| VOther (x : otherNumber)
| VStr (s : string)
| VArr (l : list value)
| VObj (o : list (string * value)).

(** A number as a value. *)
Definition VNumber (n : number) : value :=
  match n with
  | Integer z => VNum z
  | Other x => VOther x
  end.

(** ToBoolean: zero, negative zero and NaN are the falsy numbers. *)
Definition truthy (v : value) : bool :=
  match v with
  | VNull => false
  | VBool b => b
  | VNum n => negb (n =? 0)%Z
  | VOther NegativeZero => false
  | VOther NotANumber => false
  | VOther _ => true
  | VStr s => negb (s =? "")
  | VArr _ => true
  | VObj _ => true
  end.

(** A property read [o[k]] gives [undefined] when the property is missing:
    [None] stands for [undefined], which is falsy. *)
Definition truthyOpt (o : option value) : bool :=
  match o with
  | Some v => truthy v
  | None => false
  end.

(** Truthiness of an option of a script that is [null] or a string. *)
Definition given (o : option string) : bool :=
  match o with
  | Some s => negb (s =? "")
  | None => false
  end.

(** [typeof v === 'string'] *)
Definition isString (o : option value) : bool :=
  match o with
  | Some (VStr _) => true
  | _ => false
  end.

(** [Array.isArray(v)] *)
Definition isArray (o : option value) : bool :=
  match o with
  | Some (VArr _) => true
  | _ => false
  end.

(** ToString.  An array prints as its elements joined with a comma, where
    null elements print as the empty string; a mapping prints as
    [[object Object]]. *)
Fixpoint toString (v : value) : string :=
  match v with
  | VNull => "null"
  | VBool true => "true"
  | VBool false => "false"
  | VNum n => NilZero.string_of_int (Z.to_int n)
  | VOther x => otherToString x
  | VStr s => s
  | VArr l =>
      joinStrings ","
        ((fix elems (l : list value) : list string :=
            match l with
            | [] => []
            | VNull :: r => EmptyString :: elems r
            | x :: r => toString x :: elems r
            end) l)
  | VObj _ => "[object Object]"
  end.

(** The string an element contributes to [Array.prototype.join]. *)
Definition joinPiece (v : value) : string :=
  match v with
  | VNull => EmptyString
  | _ => toString v
  end.

(** [arr.join(sep)] *)
Definition join (sep : string) (l : list value) : string :=
  joinStrings sep (map joinPiece l).

(** SameValueZero, the equality of [Set].  Primitives are compared by
    value, where NaN is the same as NaN and negative zero the same as
    zero; arrays and mappings are compared by identity, and the arrays and
    mappings the parser builds are pairwise distinct objects. *)
Definition sameValueZero (x y : value) : bool :=
  match x, y with
  | VNull, VNull => true
  | VBool a, VBool b => Bool.eqb a b
  | VNum a, VNum b => (a =? b)%Z
  | VNum a, VOther NegativeZero => (a =? 0)%Z
  | VOther NegativeZero, VNum b => (b =? 0)%Z
  | VOther a, VOther b => otherEqb a b
  | VStr a, VStr b => (a =? b)
  | _, _ => false
  end.

(** [[...new Set(arr)]]: the elements in order of first occurrence. *)
Fixpoint uniqueFrom (seen : list value) (l : list value) : list value :=
  match l with
  | [] => []
  | x :: r =>
      if existsb (sameValueZero x) seen then uniqueFrom seen r
      else x :: uniqueFrom (x :: seen) r
  end.

Definition unique (l : list value) : list value := uniqueFrom [] l.

(** [arr.sort()] with the default comparator: elements are ordered by the
    code units of their string forms, and the sort is stable.  [sortInsert]
    puts [x] in front of the first element that is not strictly smaller, so
    that equal elements keep their order. *)
Fixpoint sortInsert (x : value) (l : list value) : list value :=
  match l with
  | [] => [x]
  | y :: r =>
      if String.ltb (toString y) (toString x) then y :: sortInsert x r
      else x :: y :: r
  end.

Definition sort (l : list value) : list value := foldr sortInsert [] l.

(** [JSON.stringify(x) === JSON.stringify(y)].  Two values have the same
    JSON text when they are structurally equal, and besides only in these
    cases: negative zero prints as zero does, and NaN and the infinities
    print as null does. *)
Fixpoint valueEqb (x y : value) : bool :=
  match x, y with
  | VNull, VNull => true
  | VNull, VOther b => printsAsNull b
  | VOther a, VNull => printsAsNull a
  | VBool a, VBool b => Bool.eqb a b
  | VNum a, VNum b => (a =? b)%Z
  | VNum a, VOther NegativeZero => (a =? 0)%Z
  | VOther NegativeZero, VNum b => (b =? 0)%Z
  | VOther a, VOther b => otherEqb a b || (printsAsNull a && printsAsNull b)
  | VStr a, VStr b => (a =? b)
  | VArr a, VArr b =>
      (fix go (a b : list value) : bool :=
         match a, b with
         | [], [] => true
         | x :: a', y :: b' => valueEqb x y && go a' b'
         | _, _ => false
         end) a b
  | VObj a, VObj b =>
      (fix go (a b : list (string * value)) : bool :=
         match a, b with
         | [], [] => true
         | (k, x) :: a', (k', y) :: b' => (k =? k') && valueEqb x y && go a' b'
         | _, _ => false
         end) a b
  | _, _ => false
  end.

(** *** Objects used as mappings

    The metadata mapping is a plain object: string keys, each at most once,
    kept in the order in which JavaScript enumerates them.  That order is:
    first the keys that are array indices, by ascending index, then the
    other keys in the order in which they were added.  Field names are
    taken not to collide with the members every object inherits
    (constructor, toString and the like). *)
Definition object := list (string * value).

(** A key is an array index when it is the decimal text of an integer
    from 0 to 2^32 - 2, written as ToString writes that integer: digits
    only, and no leading zero. *)
Definition arrayIndex (k : string) : option N :=
  match NilZero.uint_of_string k with
  | Some d =>
      let n := N.of_uint d in
      if (NilZero.string_of_uint (N.to_uint n) =? k) && (n <? 4294967295)%N
      then Some n
      else None
  | None => None
  end.

(** [o[k]] *)
Fixpoint obj_get (o : object) (k : string) : option value :=
  match o with
  | [] => None
  | (k', v) :: r => if k' =? k then Some v else obj_get r k
  end.

(** [o.hasOwnProperty(k)] *)
Definition hasOwnProperty (o : object) (k : string) : bool :=
  match obj_get o k with
  | Some _ => true
  | None => false
  end.

(** [o[k] = v] for a key that is present: the key keeps its place. *)
Fixpoint obj_replace (o : object) (k : string) (v : value) : object :=
  match o with
  | [] => []
  | (k', v') :: r =>
      if k' =? k then (k', v) :: r else (k', v') :: obj_replace r k v
  end.

(** [o[k] = v] for a new key that is the array index [i]: the key goes in
    front of the first key that is no array index or a larger one. *)
Fixpoint obj_insertIndex (o : object) (i : N) (k : string) (v : value)
  : object :=
  match o with
  | [] => [(k, v)]
  | (k', v') :: r =>
      match arrayIndex k' with
      | Some j =>
          if (j <? i)%N then (k', v') :: obj_insertIndex r i k v
          else (k, v) :: o
      | None => (k, v) :: o
      end
  end.

(** [o[k] = v]: a key that is present keeps its place; a new key that is
    an array index goes to its place among the array indices; any other
    new key goes last. *)
Definition obj_set (o : object) (k : string) (v : value) : object :=
  if hasOwnProperty o k then obj_replace o k v
  else
    match arrayIndex k with
    | Some i => obj_insertIndex o i k v
    | None => (o ++ [(k, v)])%list
    end.

(** [delete o[k]] *)
Fixpoint obj_delete (o : object) (k : string) : object :=
  match o with
  | [] => []
  | (k', v') :: r => if k' =? k then r else (k', v') :: obj_delete r k
  end.

(** [Object.keys(o)] *)
Definition keys (o : object) : list string := map fst o.

(** An object has each key once. *)
Definition wellFormed (o : object) : Prop := NoDup (keys o).

(** Keys in the order of enumeration: an array index is followed only by
    larger array indices and by keys that are no array indices, and a key
    that is no array index is followed only by such keys. *)
Fixpoint enumerationOrder (ks : list string) : Prop :=
  match ks with
  | [] => True
  | k :: r =>
      Forall (fun k' =>
                match arrayIndex k, arrayIndex k' with
                | Some i, Some j => (i < j)%N
                | Some _, None => True
                | None, Some _ => False
                | None, None => True
                end) r /\
      enumerationOrder r
  end.

(** An array that [sort] leaves as it is: no element is followed by one
    whose string form is strictly smaller. *)
Fixpoint ordered (l : list value) : Prop :=
  match l with
  | x :: r =>
      match r with
      | y :: _ => String.ltb (toString y) (toString x) = false
      | [] => True
      end /\ ordered r
  | [] => True
  end.

(** An array without two elements that [Set] takes for the same. *)
Fixpoint pairwiseDistinct (l : list value) : Prop :=
  match l with
  | x :: r => Forall (fun y => sameValueZero y x = false) r /\ pairwiseDistinct r
  | [] => True
  end.

(** An array that [uniqueFrom seen] leaves as it is. *)
Fixpoint noRepeat (seen l : list value) : Prop :=
  match l with
  | x :: r => existsb (sameValueZero x) seen = false /\ noRepeat (x :: seen) r
  | [] => True
  end.

End JS.

(** ** Files, console and exceptions *)

Module Sys.

(** A path is the list of its segments: [path.join(dir, item)] appends a
    segment and [path.basename] is the last one. *)
Definition Path := list string.

Definition path_join (dir : Path) (item : string) : Path := (dir ++ [item])%list.

Definition basename (p : Path) : string := List.last p EmptyString.

(** [path.relative(from, to)] for a [to] that lies below [from]. *)
Definition path_relative (from to : Path) : Path := drop (length from) to.

(** A file on disk: its text, and whether reading and writing it succeed. *)
Record File := mkFile {
  content : string;
  readable : bool;
  writable : bool
}.

Inductive Error :=
| ENoEntry (p : Path)
| EAccess (p : Path)
| EParse (text : string)
| EStringify.

Inductive Res (A : Type) :=
| Ok (a : A)
| Throw (e : Error).
Arguments Ok {A} a.
Arguments Throw {A} e.

(** The world a script runs in: the files by path, and the lines written to
    the console so far (oldest first). *)
Record World (L : Type) := mkWorld {
  files : gmap Path File;
  console : list L
}.
Arguments mkWorld {L} files console.
Arguments files {L} w.
Arguments console {L} w.

(** Computations that read and change the world and may throw.  The world
    reached when an exception is thrown is kept, as a [catch] sees it. *)
Definition IO (L A : Type) := World L -> Res A * World L.

Definition ret {L A} (a : A) : IO L A := fun w => (Ok a, w).

Definition bind {L A B} (m : IO L A) (k : A -> IO L B) : IO L B :=
  fun w =>
    match m w with
    | (Ok a, w') => k a w'
    | (Throw e, w') => (Throw e, w')
    end.

Definition throw {L A} (e : Error) : IO L A := fun w => (Throw e, w).

(** [try { body } catch (error) { handler }] *)
Definition tryCatch {L A} (body : IO L A) (handler : Error -> IO L A) : IO L A :=
  fun w =>
    match body w with
    | (Ok a, w') => (Ok a, w')
    | (Throw e, w') => handler e w'
    end.

(** Lifting a pure result that may be an exception. *)
Definition lift {L A} (r : Res A) : IO L A := fun w => (r, w).

Declare Scope io_scope.
Delimit Scope io_scope with io.
Notation "x <- m ;; k" := (bind m (fun x => k))
  (at level 100, m at next level, right associativity) : io_scope.
Notation "m ;;; k" := (bind m (fun _ => k))
  (at level 100, right associativity) : io_scope.

(** [console.log] and [console.error] *)
Definition log {L} (l : L) : IO L unit :=
  fun w => (Ok tt, mkWorld (files w) (console w ++ [l])%list).

Definition logAll {L} (ls : list L) : IO L unit :=
  fun w => (Ok tt, mkWorld (files w) (console w ++ ls)%list).

(** [fs.readFileSync(p, 'utf8')] *)
Definition readFileSync {L} (p : Path) : IO L string :=
  fun w =>
    match files w !! p with
    | None => (Throw (ENoEntry p), w)
    | Some f => if readable f then (Ok (content f), w) else (Throw (EAccess p), w)
    end.

(** [fs.writeFileSync(p, text, 'utf8')]: a failed write leaves the file as
    it was. *)
Definition writeFileSync {L} (p : Path) (text : string) : IO L unit :=
  fun w =>
    match files w !! p with
    | None => (Ok tt, mkWorld (<[p := mkFile text true true]> (files w)) (console w))
    | Some f =>
        if writable f
        then (Ok tt, mkWorld (<[p := mkFile text (readable f) true]> (files w)) (console w))
        else (Throw (EAccess p), w)
    end.

(** [for (const x of l) { f(x) }] *)
Definition forEach {L A} (f : A -> IO L unit) : list A -> IO L unit :=
  fix loop (l : list A) : IO L unit :=
    match l with
    | [] => ret tt
    | x :: r => bind (f x) (fun _ => loop r)
    end.

(** A computation that leaves every file as it is. *)
Definition preservesFiles {L A} (m : IO L A) : Prop :=
  forall w, files (snd (m w)) = files w.

(** A computation that changes no file other than those at the paths in
    [P]. *)
Definition changesOnly {L A} (P : Path -> Prop) (m : IO L A) : Prop :=
  forall w q, ~ P q -> files (snd (m w)) !! q = files w !! q.

(** What [fs.readdirSync] and [fs.statSync] show of a directory: its
    entries in listing order.  A script never creates, removes or renames an
    entry, so the listing is fixed during a run; the texts of the files live
    in the world. *)
Inductive Entry :=
| EFile (name : string)
| EDir (name : string) (items : option (list Entry))
| EOther (name : string)
| ENoStat (name : string).

(** *** What a directory walk will do, read off the listing alone

    A walk calls the per-file function on some paths and prints some lines
    of its own.  The plan of a walk lists these steps in order; it is
    computed from the listing and the options, without looking at any
    file. *)
Inductive Step (L : Type) :=
| Visit (p : Path)
| Say (l : L).
Arguments Visit {L} p.
Arguments Say {L} l.

(** The plan of a loop over items, given the plan of one item: the steps,
    and the exception that leaves the loop, if one does. *)
Definition planLoop {L} (planOne : Entry -> list (Step L) * option Error)
  : list Entry -> list (Step L) * option Error :=
  fix loop (l : list Entry) : list (Step L) * option Error :=
    match l with
    | [] => ([], None)
    | item :: r =>
        match planOne item with
        | (steps, Some e) => (steps, Some e)
        | (steps, None) => let (more, e) := loop r in ((steps ++ more)%list, e)
        end
    end.

(** The plan of the walk of one directory, whose [catch] prints
    [dirError dirPath e]. *)
Definition planListing {L} (dirError : Path -> Error -> L) (dirPath : Path)
    (planOne : Entry -> list (Step L) * option Error)
    (items : option (list Entry)) : list (Step L) :=
  match items with
  | None => [Say (dirError dirPath (EAccess dirPath))]
  | Some l =>
      let (steps, e) := planLoop planOne l in
      (steps ++ match e with
                | Some e => [Say (dirError dirPath e)]
                | None => []
                end)%list
  end.

(** The paths a plan calls the per-file function on. *)
Definition visited {L} (plan : list (Step L)) : list Path :=
  flat_map (fun s => match s with Visit p => [p] | Say _ => [] end) plan.

(** Carrying out a plan with [visit] as the per-file function. *)
Definition runStep {L} (visit : Path -> IO L unit) (s : Step L) : IO L unit :=
  match s with
  | Visit p => visit p
  | Say l => log l
  end.

Definition runPlan {L} (visit : Path -> IO L unit) : list (Step L) -> IO L unit :=
  forEach (runStep visit).

(** A computation does what a plan says: it carries out the steps and then
    returns, or throws the exception of the plan. *)
Definition follows {L} (visit : Path -> IO L unit) (m : IO L unit)
    (plan : list (Step L) * option Error) : Prop :=
  forall w,
    m w = match snd plan with
          | None => runPlan visit (fst plan) w
          | Some e => (Throw e, snd (runPlan visit (fst plan) w))
          end.

(** The frontmatter codec (the gray-matter package), taken by its contract:
    [matter] parses a text into metadata and body or throws, [stringify]
    renders them in a language or throws. *)
Inductive Language := Yaml | Json.

Record Codec := mkCodec {
  matter : string -> Res (JS.object * string);
  stringify : string -> JS.object -> Language -> Res string
}.

End Sys.

(** ** frontmatter-array.js *)

Module FrontmatterArray.
Import JS Sys.

(** The options object built by [parseArguments].  [null] options are
    [None]; a regular expression is kept as its [test] function. *)
Record Args := mkArgs {
  fields : list string;
  delimiter : string;
  dryRun : bool;
  recursive : bool;
  verbose : bool;
  mode : string;
  extension : string;
  addField : option string;
  addValue : option string;
  removeField : option string;
  renameField : option string;
  newFieldName : option string;
  sortArrays : bool;
  uniqueValues : bool;
  pattern : option (string -> bool);
  outputFormat : string;
  stats : bool
}.

(** The value stored for [args.addValue], which is [null] or a string. *)
Definition addedValue (o : option string) : value :=
  match o with
  | Some s => VStr s
  | None => VNull
  end.

(** The records pushed on [changes]. *)
Inductive Change :=
| ConvertToArray (field : string) (values : list value)
| ProcessArray (field : string) (values : list value)
| ConvertToString (field : string) (val : string)
| AddField (field : string) (val : option string)
| RemoveField (field : string)
| RenameField (oldField newField : string).

(** The counters of [fileStats]. *)
Record FileStats := mkStats {
  statFields : nat;
  statArrays : nat;
  statStrings : nat;
  statOther : nat
}.

(** The lines the script prints. *)
Inductive Line :=
| LSkippedPattern (base : string)
| LAnalyzing (base : string) (fieldNames : list string)
| LValidationFailed (base : string) (missingFields : list string)
| LValidationPassed (base : string)
| LUpdated (preview : bool) (base : string)
| LChange (c : Change)
| LSkippedNoChange (base : string)
| LStats (base : string) (st : FileStats)
| LErrorProcessing (filePath : Path) (e : Error)
| LErrorDirectory (dirPath : Path) (e : Error)
| LCopying (preview : bool)
| LFound (n : nat)
| LCopyUpdated (preview : bool) (rel : Path)
| LCopyField (field : string) (v : value)
| LCopySkipped (rel : Path)
| LNoMatch (rel : Path)
| LCopyComplete (matched modified : nat)
| LErrorCopying (e : Error).

(** *** The transform on one file's metadata

    The local variables of [processMarkdownFile] that the transform
    updates: the parsed [data], the [modified] flag and the [changes]
    array. *)
Record Locals := mkLocals {
  data : object;
  modified : bool;
  changes : list Change
}.

Definition M (A : Type) := Locals -> A * Locals.

Definition mret {A} (a : A) : M A := fun s => (a, s).

Definition mbind {A B} (m : M A) (k : A -> M B) : M B :=
  fun s => let (a, s') := m s in k a s'.

Declare Scope tr_scope.
Delimit Scope tr_scope with tr.
Notation "x <- m ;; k" := (mbind m (fun x => k))
  (at level 100, m at next level, right associativity) : tr_scope.
Notation "m ;;; k" := (mbind m (fun _ => k))
  (at level 100, right associativity) : tr_scope.

(** [data[field]] *)
Definition readField (field : string) : M (option value) :=
  fun s => (obj_get (data s) field, s).

(** [data[field] = v] *)
Definition writeField (field : string) (v : value) : M unit :=
  fun s => (tt, mkLocals (obj_set (data s) field v) (modified s) (changes s)).

(** [delete data[field]] *)
Definition deleteField (field : string) : M unit :=
  fun s => (tt, mkLocals (obj_delete (data s) field) (modified s) (changes s)).

(** [modified = true] *)
Definition setModified : M unit :=
  fun s => (tt, mkLocals (data s) true (changes s)).

(** [changes.push(c)] *)
Definition push (c : Change) : M unit :=
  fun s => (tt, mkLocals (data s) (modified s) (changes s ++ [c])%list).

Definition mforEach {A} (f : A -> M unit) : list A -> M unit :=
  fix loop (l : list A) : M unit :=
    match l with
    | [] => mret tt
    | x :: r => mbind (f x) (fun _ => loop r)
    end.

(** A variable holding an array holds a reference.  [processedArray] is
    either the very array stored in [data[field]] or an array of its own
    ([[...new Set(..)]] builds a new one). *)
Inductive ArrayRef :=
| FieldArray (field : string)
| OwnArray (l : list value).

Definition deref (r : ArrayRef) : M (list value) :=
  match r with
  | FieldArray field =>
      (v <- readField field ;;
       mret match v with Some (VArr l) => l | _ => [] end)%tr
  | OwnArray l => mret l
  end.

(** [r.sort()] sorts in place: through a reference to the array of
    [data[field]] it is that array which is reordered. *)
Definition sortInPlace (r : ArrayRef) : M ArrayRef :=
  match r with
  | FieldArray field =>
      (l <- deref r ;;
       writeField field (VArr (sort l)) ;;;
       mret r)%tr
  | OwnArray l => mret (OwnArray (sort l))
  end.

Section Transform.
Variable args : Args.

(** The body of the [to-array] loop for one field (lines 249-294). *)
Definition toArrayField (field : string) : M unit :=
  (v <- readField field ;;
   if truthyOpt v && isString v then
     match v with
     | Some (VStr s) =>
         let valueArray :=
           filter (fun value => (0 <? String.length value)%nat)
                  (map trim (split (delimiter args) s)) in
         let processedArray :=
           if uniqueValues args then unique (map VStr valueArray)
           else map VStr valueArray in
         let processedArray :=
           if sortArrays args then sort processedArray else processedArray in
         writeField field (VArr processedArray) ;;;
         setModified ;;;
         push (ConvertToArray field processedArray)
     | _ => mret tt
     end
   else if isArray v && (sortArrays args || uniqueValues args) then
     let processedArray := FieldArray field in
     processedArray <-
       (if uniqueValues args
        then (l <- deref processedArray ;; mret (OwnArray (unique l)))
        else mret processedArray) ;;
     processedArray <-
       (if sortArrays args then sortInPlace processedArray
        else mret processedArray) ;;
     current <- readField field ;;
     result <- deref processedArray ;;
     if negb (valueEqb (default VNull current) (VArr result)) then
       writeField field (VArr result) ;;;
       setModified ;;;
       push (ProcessArray field result)
     else mret tt
   else mret tt)%tr.

(** The body of the [to-string] loop for one field (lines 301-313). *)
Definition toStringField (field : string) : M unit :=
  (v <- readField field ;;
   if truthyOpt v && isArray v then
     match v with
     | Some (VArr l) =>
         let stringValue := join (delimiter args) l in
         writeField field (VStr stringValue) ;;;
         setModified ;;;
         push (ConvertToString field stringValue)
     | _ => mret tt
     end
   else mret tt)%tr.

(** [switch (args.mode)].  The result is [Some lines] when the case prints
    [lines] and returns from [processMarkdownFile], and [None] when control
    goes on to the field operations. *)
Definition modeSwitch (base : string) : M (option (list Line)) :=
  (if mode args =? "to-array" then
     mforEach toArrayField (fields args) ;;; mret None
   else if mode args =? "to-string" then
     mforEach toStringField (fields args) ;;; mret None
   else if mode args =? "analyze" then
     fun s =>
       (Some (if verbose args then [LAnalyzing base (keys (data s))] else []), s)
   else if mode args =? "validate" then
     fun s =>
       let missingFields :=
         filter (fun field => negb (truthyOpt (obj_get (data s) field)))
                (fields args) in
       (Some (if (0 <? length missingFields)%nat
              then [LValidationFailed base missingFields]
              else if verbose args then [LValidationPassed base] else []), s)
   else mret None)%tr.

(** Add field (lines 339-347). *)
Definition addFieldStep : M unit :=
  match addField args with
  | Some name =>
      (v <- readField name ;;
       if given (addField args) && negb (truthyOpt v) then
         writeField name (addedValue (addValue args)) ;;;
         setModified ;;;
         push (AddField name (addValue args))
       else mret tt)%tr
  | None => mret tt
  end.

(** Remove field (lines 350-357). *)
Definition removeFieldStep : M unit :=
  match removeField args with
  | Some name =>
      fun s =>
        if given (removeField args) && hasOwnProperty (data s) name then
          (deleteField name ;;;
           setModified ;;;
           push (RemoveField name))%tr s
        else (tt, s)
  | None => mret tt
  end.

(** Rename field (lines 360-369). *)
Definition renameFieldStep : M unit :=
  match renameField args, newFieldName args with
  | Some old, Some new =>
      fun s =>
        if given (renameField args) && given (newFieldName args)
           && hasOwnProperty (data s) old then
          (v <- readField old ;;
           writeField new (default VNull v) ;;;
           deleteField old ;;;
           setModified ;;;
           push (RenameField old new))%tr s
        else (tt, s)
  | _, _ => mret tt
  end.

Definition fieldOperations : M unit :=
  (addFieldStep ;;; removeFieldStep ;;; renameFieldStep)%tr.

(** The transform of [processMarkdownFile] between parsing and writing:
    the mode switch and, unless the mode returned, the field operations. *)
Definition transform (base : string) : M (option (list Line)) :=
  (r <- modeSwitch base ;;
   match r with
   | Some lines => mret (Some lines)
   | None => fieldOperations ;;; mret None
   end)%tr.

End Transform.

(** The locals as [processMarkdownFile] initialises them. *)
Definition start (d : object) : Locals := mkLocals d false [].

(** *** Files and directories *)

Section Script.
Variable gm : Codec.
Variable args : Args.

(** The loop over [Object.keys(data)] that fills [fileStats]. *)
Definition collectStats (d : object) : FileStats :=
  fold_left
    (fun st key =>
       let v := obj_get d key in
       if isArray v then
         mkStats (S (statFields st)) (S (statArrays st)) (statStrings st) (statOther st)
       else if isString v then
         mkStats (S (statFields st)) (statArrays st) (S (statStrings st)) (statOther st)
       else
         mkStats (S (statFields st)) (statArrays st) (statStrings st) (S (statOther st)))
    (keys d) (mkStats 0 0 0 0).

Definition language : Language :=
  if outputFormat args =? "json" then Json else Yaml.

(** [args.extension.split(',').map(ext => ext.trim())] *)
Definition extensions : list string := map trim (split "," (extension args)).

Definition hasExtension (item : string) : bool :=
  existsb (fun ext => endsWith ext item) extensions.

(** The [try] block of [processMarkdownFile]. *)
Definition processMarkdownFile_body (filePath : Path) : IO Line unit :=
  (let base := basename filePath in
   if match pattern args with Some test => negb (test base) | None => false end
   then (if verbose args then log (LSkippedPattern base) else ret tt)
   else
     fileContent <- readFileSync filePath ;;
     parsed <- lift (matter gm fileContent) ;;
     let fileStats :=
       if stats args then collectStats (fst parsed) else mkStats 0 0 0 0 in
     let (returned, s) := transform args base (start (fst parsed)) in
     match returned with
     | Some lines => logAll lines
     | None =>
         (if modified s then
            updatedFileContent <- lift (stringify gm (snd parsed) (data s) language) ;;
            (if dryRun args then ret tt
             else writeFileSync filePath updatedFileContent) ;;;
            log (LUpdated (dryRun args) base) ;;;
            logAll (map LChange (changes s))
          else if verbose args then log (LSkippedNoChange base)
          else ret tt) ;;;
         (if stats args then log (LStats base fileStats) else ret tt)
     end)%io.

Definition processMarkdownFile (filePath : Path) : IO Line unit :=
  tryCatch (processMarkdownFile_body filePath)
           (fun error => log (LErrorProcessing filePath error)).

(** [fs.readdirSync(dirPath)] on a directory whose listing is [items]. *)
Definition readdirSync {L} (dirPath : Path) (items : option (list Entry))
  : IO L (list Entry) :=
  match items with
  | Some l => ret l
  | None => throw (EAccess dirPath)
  end.

(** The body of the loop of [processDirectory] for one item; the recursive
    call is [processDirectory] on the subdirectory, with its own
    [try]/[catch]. *)
Fixpoint processItem (dirPath : Path) (item : Entry) : IO Line unit :=
  match item with
  | ENoStat name => throw (ENoEntry (path_join dirPath name))
  | EDir name items =>
      if recursive args then
        tryCatch
          (match items with
           | Some l => forEach (processItem (path_join dirPath name)) l
           | None => throw (EAccess (path_join dirPath name))
           end)
          (fun error => log (LErrorDirectory (path_join dirPath name) error))
      else ret tt
  | EFile name =>
      if hasExtension name then processMarkdownFile (path_join dirPath name)
      else ret tt
  | EOther _ => ret tt
  end.

Definition processDirectory (dirPath : Path) (items : option (list Entry))
  : IO Line unit :=
  tryCatch
    (l <- readdirSync dirPath items ;; forEach (processItem dirPath) l)%io
    (fun error => log (LErrorDirectory dirPath error)).

(** *** Copying frontmatter between directories *)

(** The entries of [sourceFiles]. *)
Record SourceFile := mkSourceFile {
  sfPath : Path;
  sfName : string;
  sfRelativePath : Path
}.

(** A loop whose body updates an accumulator and may throw. *)
Definition foldIO {L A S} (f : A -> S -> IO L S) : list A -> S -> IO L S :=
  fix loop (l : list A) (acc : S) : IO L S :=
    match l with
    | [] => ret acc
    | x :: r => bind (f x acc) (fun acc' => loop r acc')
    end.

(** The body of the loop of [collectSourceFiles] for one item: the array
    [sourceFiles] is threaded through, a push appends to it. *)
Fixpoint collectItem (sourceDir dir : Path) (item : Entry)
    (sourceFiles : list SourceFile) : IO Line (list SourceFile) :=
  match item with
  | ENoStat name => throw (ENoEntry (path_join dir name))
  | EDir name items =>
      if recursive args then
        match items with
        | Some l => foldIO (collectItem sourceDir (path_join dir name)) l sourceFiles
        | None => throw (EAccess (path_join dir name))
        end
      else ret sourceFiles
  | EFile name =>
      if hasExtension name then
        ret (sourceFiles ++
               [mkSourceFile (path_join dir name) name
                  (path_relative sourceDir (path_join dir name))])%list
      else ret sourceFiles
  | EOther _ => ret sourceFiles
  end.

Definition collectSourceFiles (sourceDir : Path) (items : option (list Entry))
  : IO Line (list SourceFile) :=
  (l <- readdirSync sourceDir items ;;
   foldIO (collectItem sourceDir sourceDir) l [])%io.

(** [sourceFiles.find(sf => sf.name === item ||
                            sf.relativePath === targetRelativePath)] *)
Definition findMatchingSourceFile (sourceFiles : list SourceFile)
    (item : string) (targetRelativePath : Path) : option SourceFile :=
  find (fun sf => (sfName sf =? item)
                  || bool_decide (sfRelativePath sf = targetRelativePath))
       sourceFiles.

(** The [forEach] that copies the fields into [newFrontmatter] and sets
    [modified]. *)
Definition copyFields (sourceData : object) (fieldsToUpdate : list string)
    (targetData : object) : object * bool :=
  fold_left
    (fun acc field =>
       match obj_get sourceData field with
       | Some v => (obj_set (fst acc) field v, true)
       | None => acc
       end)
    fieldsToUpdate (targetData, false).

(** What [processTargetFiles] does with one target file (lines 503-555).
    The counters [matchedFiles] and [modifiedFiles] are threaded through as
    a pair. *)
Definition copyToTarget (sourceFiles : list SourceFile)
    (frontmatterFields : option (list string))
    (itemPath : Path) (item : string) (targetRelativePath : Path)
    (counts : nat * nat) : IO Line (nat * nat) :=
  match findMatchingSourceFile sourceFiles item targetRelativePath with
  | Some matchingSourceFile =>
      (let matchedFiles := S (fst counts) in
       sourceContent <- readFileSync (sfPath matchingSourceFile) ;;
       sourceData <- lift (matter gm sourceContent) ;;
       targetContent <- readFileSync itemPath ;;
       targetData <- lift (matter gm targetContent) ;;
       let fieldsToUpdate :=
         match frontmatterFields with
         | Some l => l
         | None => keys (fst sourceData)
         end in
       let (newFrontmatter, modified) :=
         copyFields (fst sourceData) fieldsToUpdate (fst targetData) in
       if modified then
         (if dryRun args then ret tt
          else
            updatedContent <-
              lift (stringify gm (snd targetData) newFrontmatter language) ;;
            writeFileSync itemPath updatedContent) ;;;
         log (LCopyUpdated (dryRun args) targetRelativePath) ;;;
         (if verbose args then
            logAll (flat_map
                      (fun field =>
                         match obj_get (fst sourceData) field with
                         | Some v => [LCopyField field v]
                         | None => []
                         end)
                      fieldsToUpdate)
          else ret tt) ;;;
         ret (matchedFiles, S (snd counts))
       else
         (if verbose args then log (LCopySkipped targetRelativePath) else ret tt) ;;;
         ret (matchedFiles, snd counts))%io
  | None =>
      ((if verbose args then log (LNoMatch targetRelativePath) else ret tt) ;;;
       ret counts)%io
  end.

(** The body of the loop of [processTargetFiles] for one item. *)
Fixpoint targetItem (sourceFiles : list SourceFile)
    (frontmatterFields : option (list string))
    (dir relativePath : Path) (item : Entry) (counts : nat * nat)
    : IO Line (nat * nat) :=
  match item with
  | ENoStat name => throw (ENoEntry (path_join dir name))
  | EDir name items =>
      if recursive args then
        match items with
        | Some l =>
            foldIO (targetItem sourceFiles frontmatterFields
                      (path_join dir name) (path_join relativePath name))
                   l counts
        | None => throw (EAccess (path_join dir name))
        end
      else ret counts
  | EFile name =>
      if hasExtension name then
        copyToTarget sourceFiles frontmatterFields
          (path_join dir name) name (path_join relativePath name) counts
      else ret counts
  | EOther _ => ret counts
  end.

Definition processTargetFiles (sourceFiles : list SourceFile)
    (frontmatterFields : option (list string))
    (targetDir : Path) (items : option (list Entry)) : IO Line (nat * nat) :=
  (l <- readdirSync targetDir items ;;
   foldIO (targetItem sourceFiles frontmatterFields targetDir []) l (0, 0)%nat)%io.

Definition copyFrontmatter (sourceDir : Path) (sourceItems : option (list Entry))
    (targetDir : Path) (targetItems : option (list Entry))
    (frontmatterFields : option (list string)) : IO Line unit :=
  tryCatch
    (log (LCopying (dryRun args)) ;;;
     sourceFiles <- collectSourceFiles sourceDir sourceItems ;;
     log (LFound (length sourceFiles)) ;;;
     counts <- processTargetFiles sourceFiles frontmatterFields targetDir targetItems ;;
     log (LCopyComplete (fst counts) (snd counts)))%io
    (fun error => log (LErrorCopying error)).

End Script.

(** *** Observations used in the statements *)

(** The options [parseArguments] starts from. *)
Definition defaults : Args :=
  mkArgs ["aiKeywords"] "," false true false "to-array" ".md,.markdown"
         None None None None None false false None "yaml" false.

(** The same options with [dryRun] set to [b]. *)
Definition setDryRun (b : bool) (a : Args) : Args :=
  mkArgs (fields a) (delimiter a) b (recursive a) (verbose a) (mode a)
         (extension a) (addField a) (addValue a) (removeField a)
         (renameField a) (newFieldName a) (sortArrays a) (uniqueValues a)
         (pattern a) (outputFormat a) (stats a).



(** The step of [processMarkdownFile] a change record comes from:
    conversion, add, remove, rename. *)
Definition phase (c : Change) : nat :=
  match c with
  | ConvertToArray _ _ | ProcessArray _ _ | ConvertToString _ _ => 0
  | AddField _ _ => 1
  | RemoveField _ => 2
  | RenameField _ _ => 3
  end.

(** The field a conversion record is about. *)
Definition changeField (c : Change) : string :=
  match c with
  | ConvertToArray f _ | ProcessArray f _ | ConvertToString f _ => f
  | AddField f _ => f
  | RemoveField f => f
  | RenameField f _ => f
  end.

(** The plan of [processDirectory]: which files [processMarkdownFile] is
    called on, and which directory errors are printed. *)
Fixpoint planItem (args : Args) (dirPath : Path) (item : Entry)
  : list (Step Line) * option Error :=
  match item with
  | ENoStat name => ([], Some (ENoEntry (path_join dirPath name)))
  | EDir name items =>
      if recursive args then
        (planListing LErrorDirectory (path_join dirPath name)
           (planItem args (path_join dirPath name)) items, None)
      else ([], None)
  | EFile name =>
      if hasExtension args name then ([Visit (path_join dirPath name)], None)
      else ([], None)
  | EOther _ => ([], None)
  end.

Definition planDirectory (args : Args) (dirPath : Path)
    (items : option (list Entry)) : list (Step Line) :=
  planListing LErrorDirectory dirPath (planItem args dirPath) items.

(** What one pass of a conversion loop can do to the locals: the records it
    pushes are conversion records about the field it was called for, and
    other fields keep their values. *)
Definition touchesOnly (field : string) (s s' : Locals) : Prop :=
  (forall other, field <> other ->
     obj_get (data s') other = obj_get (data s) other) /\
  exists cs, changes s' = (changes s ++ cs)%list /\
             Forall (fun c => changeField c = field /\ phase c = 0%nat) cs.

(** The basename passes [args.pattern], when one is given. *)
Definition patternAccepts (args : Args) (base : string) : Prop :=
  match pattern args with
  | Some test => test base = true
  | None => True
  end.

(** The files a run of [processDirectory] on [dirPath] can change: files
    below [dirPath], directly in it when the run is not recursive, whose
    name ends with one of the extensions and passes the pattern. *)
Definition mayChange (args : Args) (dirPath : Path) (q : Path) : Prop :=
  exists rel,
    q = (dirPath ++ rel)%list /\ rel <> [] /\
    hasExtension args (basename q) = true /\
    patternAccepts args (basename q) /\
    (recursive args = false -> length rel = 1%nat).

(** An entry of [sourceFiles] as [collectSourceFiles] builds them: the path
    is the source directory followed by the relative path, and the name is
    the last segment of the relative path. *)
Definition wellListed (sourceDir : Path) (sf : SourceFile) : Prop :=
  sfPath sf = (sourceDir ++ sfRelativePath sf)%list /\
  sfRelativePath sf <> [] /\
  sfName sf = basename (sfRelativePath sf).

(** The files a copy run into [targetDir] can change. *)
Definition targetFile (args : Args) (targetDir : Path) (q : Path) : Prop :=
  exists rel,
    q = (targetDir ++ rel)%list /\ rel <> [] /\
    hasExtension args (basename q) = true /\
    (recursive args = false -> length rel = 1%nat).

(** What the to-array loop makes of an array under the options
    [uniqueValues] and [sortArrays]. *)
Definition processedArray (args : Args) (l : list value) : list value :=
  let u := if uniqueValues args then unique l else l in
  if sortArrays args then sort u else u.

(** A value of a field that a further pass of the to-array loop leaves as
    it is. *)
Definition settled (args : Args) (o : option value) : Prop :=
  match o with
  | Some (VStr str) => str = ""
  | Some (VArr l) =>
      if uniqueValues args
      then valueEqb (VArr l) (VArr (processedArray args l)) = true
      else processedArray args l = l
  | _ => True
  end.

(** The conversion loop that the mode selects. *)
Definition conversionPhase (args : Args) : M unit :=
  if mode args =? "to-array" then mforEach (toArrayField args) (fields args)
  else if mode args =? "to-string" then mforEach (toStringField args) (fields args)
  else mret tt.

(** *** The command line

    [parseArguments] fills the options object from [process.argv].  The
    entries that only the top level of the script reads are kept beside
    the options of the processing functions. *)
Record Options := mkOptions {
  processing : Args;
  directory : option string;
  interactive : bool;
  sourceFrontmatterDir : option string;
  targetContentDir : option string;
  frontmatterFields : option (list string)
}.

Definition initialOptions : Options :=
  mkOptions defaults None false None None None.

Definition onArgs (f : Args -> Args) (o : Options) : Options :=
  mkOptions (f (processing o)) (directory o) (interactive o)
            (sourceFrontmatterDir o) (targetContentDir o) (frontmatterFields o).

Definition setFields (v : list string) (a : Args) : Args :=
  mkArgs v (delimiter a) (dryRun a) (recursive a) (verbose a) (mode a)
         (extension a) (addField a) (addValue a) (removeField a)
         (renameField a) (newFieldName a) (sortArrays a) (uniqueValues a)
         (pattern a) (outputFormat a) (stats a).

Definition setDelimiter (v : string) (a : Args) : Args :=
  mkArgs (fields a) v (dryRun a) (recursive a) (verbose a) (mode a)
         (extension a) (addField a) (addValue a) (removeField a)
         (renameField a) (newFieldName a) (sortArrays a) (uniqueValues a)
         (pattern a) (outputFormat a) (stats a).

Definition setRecursive (b : bool) (a : Args) : Args :=
  mkArgs (fields a) (delimiter a) (dryRun a) b (verbose a) (mode a)
         (extension a) (addField a) (addValue a) (removeField a)
         (renameField a) (newFieldName a) (sortArrays a) (uniqueValues a)
         (pattern a) (outputFormat a) (stats a).

Definition setVerbose (b : bool) (a : Args) : Args :=
  mkArgs (fields a) (delimiter a) (dryRun a) (recursive a) b (mode a)
         (extension a) (addField a) (addValue a) (removeField a)
         (renameField a) (newFieldName a) (sortArrays a) (uniqueValues a)
         (pattern a) (outputFormat a) (stats a).

Definition setMode (v : string) (a : Args) : Args :=
  mkArgs (fields a) (delimiter a) (dryRun a) (recursive a) (verbose a) v
         (extension a) (addField a) (addValue a) (removeField a)
         (renameField a) (newFieldName a) (sortArrays a) (uniqueValues a)
         (pattern a) (outputFormat a) (stats a).

Definition setExtension (v : string) (a : Args) : Args :=
  mkArgs (fields a) (delimiter a) (dryRun a) (recursive a) (verbose a) (mode a)
         v (addField a) (addValue a) (removeField a)
         (renameField a) (newFieldName a) (sortArrays a) (uniqueValues a)
         (pattern a) (outputFormat a) (stats a).

Definition setAddField (name val : string) (a : Args) : Args :=
  mkArgs (fields a) (delimiter a) (dryRun a) (recursive a) (verbose a) (mode a)
         (extension a) (Some name) (Some val) (removeField a)
         (renameField a) (newFieldName a) (sortArrays a) (uniqueValues a)
         (pattern a) (outputFormat a) (stats a).

Definition setRemoveField (name : string) (a : Args) : Args :=
  mkArgs (fields a) (delimiter a) (dryRun a) (recursive a) (verbose a) (mode a)
         (extension a) (addField a) (addValue a) (Some name)
         (renameField a) (newFieldName a) (sortArrays a) (uniqueValues a)
         (pattern a) (outputFormat a) (stats a).

Definition setRenameField (name : string) (a : Args) : Args :=
  mkArgs (fields a) (delimiter a) (dryRun a) (recursive a) (verbose a) (mode a)
         (extension a) (addField a) (addValue a) (removeField a)
         (Some name) (newFieldName a) (sortArrays a) (uniqueValues a)
         (pattern a) (outputFormat a) (stats a).

Definition setNewFieldName (name : string) (a : Args) : Args :=
  mkArgs (fields a) (delimiter a) (dryRun a) (recursive a) (verbose a) (mode a)
         (extension a) (addField a) (addValue a) (removeField a)
         (renameField a) (Some name) (sortArrays a) (uniqueValues a)
         (pattern a) (outputFormat a) (stats a).

Definition setSortArrays (b : bool) (a : Args) : Args :=
  mkArgs (fields a) (delimiter a) (dryRun a) (recursive a) (verbose a) (mode a)
         (extension a) (addField a) (addValue a) (removeField a)
         (renameField a) (newFieldName a) b (uniqueValues a)
         (pattern a) (outputFormat a) (stats a).

Definition setUniqueValues (b : bool) (a : Args) : Args :=
  mkArgs (fields a) (delimiter a) (dryRun a) (recursive a) (verbose a) (mode a)
         (extension a) (addField a) (addValue a) (removeField a)
         (renameField a) (newFieldName a) (sortArrays a) b
         (pattern a) (outputFormat a) (stats a).

Definition setPattern (test : string -> bool) (a : Args) : Args :=
  mkArgs (fields a) (delimiter a) (dryRun a) (recursive a) (verbose a) (mode a)
         (extension a) (addField a) (addValue a) (removeField a)
         (renameField a) (newFieldName a) (sortArrays a) (uniqueValues a)
         (Some test) (outputFormat a) (stats a).

Definition setOutputFormat (v : string) (a : Args) : Args :=
  mkArgs (fields a) (delimiter a) (dryRun a) (recursive a) (verbose a) (mode a)
         (extension a) (addField a) (addValue a) (removeField a)
         (renameField a) (newFieldName a) (sortArrays a) (uniqueValues a)
         (pattern a) v (stats a).

Definition setStats (b : bool) (a : Args) : Args :=
  mkArgs (fields a) (delimiter a) (dryRun a) (recursive a) (verbose a) (mode a)
         (extension a) (addField a) (addValue a) (removeField a)
         (renameField a) (newFieldName a) (sortArrays a) (uniqueValues a)
         (pattern a) (outputFormat a) b.

Definition setDirectory (v : string) (o : Options) : Options :=
  mkOptions (processing o) (Some v) (interactive o)
            (sourceFrontmatterDir o) (targetContentDir o) (frontmatterFields o).

Definition setInteractive (b : bool) (o : Options) : Options :=
  mkOptions (processing o) (directory o) b
            (sourceFrontmatterDir o) (targetContentDir o) (frontmatterFields o).

Definition setSourceFrontmatterDir (v : string) (o : Options) : Options :=
  mkOptions (processing o) (directory o) (interactive o)
            (Some v) (targetContentDir o) (frontmatterFields o).

Definition setTargetContentDir (v : string) (o : Options) : Options :=
  mkOptions (processing o) (directory o) (interactive o)
            (sourceFrontmatterDir o) (Some v) (frontmatterFields o).

Definition setFrontmatterFields (v : list string) (o : Options) : Options :=
  mkOptions (processing o) (directory o) (interactive o)
            (sourceFrontmatterDir o) (targetContentDir o) (Some v).

(** How [parseArguments] ends: it returns the options, or the process
    exits with code 0 after the help text, or [new RegExp] throws on the
    value of [--pattern]. *)
Inductive Parsed :=
| Returned (o : Options)
| HelpShown
| InvalidPattern (source : string).

(** One turn of the loop: the options after it and how many times it ran
    [++i], or the end of the process. *)
Inductive Turn :=
| Next (o : Options) (consumed : nat)
| Stop (r : Parsed).

(** [process.argv[i + 1] && !process.argv[i + 1].startsWith('-')], on the
    arguments after the current one: the value the option takes, if any.
    A missing argument is [undefined], an empty one is falsy. *)
Definition optionValue (rest : list string) : option string :=
  match rest with
  | next :: _ =>
      if negb (next =? "") && negb (startsWith "-" next) then Some next
      else None
  | [] => None
  end.

(** [s.split(',').map(field => field.trim())] *)
Definition fieldList (s : string) : list string := map trim (split "," s).

Section ParseArguments.

(** [new RegExp(source)], as the [test] function of the expression, or
    [None] when the source is no regular expression. *)
Variable compile : string -> option (string -> bool).

(** The body of the loop on [arg = process.argv[i]], with the arguments
    after it. *)
Definition parseTurn (arg : string) (rest : list string) (o : Options) : Turn :=
  if (arg =? "--help") || (arg =? "-h") then Stop HelpShown
  else if (arg =? "--fields") || (arg =? "-f") then
    match optionValue rest with
    | Some v => Next (onArgs (setFields (fieldList v)) o) 1
    | None => Next o 0
    end
  else if (arg =? "--delimiter") || (arg =? "-d") then
    match optionValue rest with
    | Some v => Next (onArgs (setDelimiter v) o) 1
    | None => Next o 0
    end
  else if arg =? "--dry-run" then Next (onArgs (setDryRun true) o) 0
  else if arg =? "--no-recursive" then Next (onArgs (setRecursive false) o) 0
  else if (arg =? "--verbose") || (arg =? "-v") then
    Next (onArgs (setVerbose true) o) 0
  else if (arg =? "--interactive") || (arg =? "-i") then
    Next (setInteractive true o) 0
  else if (arg =? "--mode") || (arg =? "-m") then
    match optionValue rest with
    | Some v => Next (onArgs (setMode v) o) 1
    | None => Next o 0
    end
  else if (arg =? "--extension") || (arg =? "-e") then
    match optionValue rest with
    | Some v => Next (onArgs (setExtension v) o) 1
    | None => Next o 0
    end
  else if arg =? "--add-field" then
    match optionValue rest with
    | Some name =>
        match optionValue (drop 1 rest) with
        | Some v => Next (onArgs (setAddField name v) o) 2
        | None => Next (onArgs (setAddField name "") o) 1
        end
    | None => Next o 0
    end
  else if arg =? "--remove-field" then
    match optionValue rest with
    | Some name => Next (onArgs (setRemoveField name) o) 1
    | None => Next o 0
    end
  else if arg =? "--rename-field" then
    match optionValue rest with
    | Some name =>
        match optionValue (drop 1 rest) with
        | Some v =>
            Next (onArgs (setNewFieldName v) (onArgs (setRenameField name) o)) 2
        | None => Next (onArgs (setRenameField name) o) 1
        end
    | None => Next o 0
    end
  else if arg =? "--sort-arrays" then Next (onArgs (setSortArrays true) o) 0
  else if arg =? "--unique-values" then Next (onArgs (setUniqueValues true) o) 0
  else if (arg =? "--pattern") || (arg =? "-p") then
    match optionValue rest with
    | Some v =>
        match compile v with
        | Some test => Next (onArgs (setPattern test) o) 1
        | None => Stop (InvalidPattern v)
        end
    | None => Next o 0
    end
  else if arg =? "--output-format" then
    match optionValue rest with
    | Some v => Next (onArgs (setOutputFormat v) o) 1
    | None => Next o 0
    end
  else if arg =? "--stats" then Next (onArgs (setStats true) o) 0
  else if arg =? "--copy-frontmatter" then
    match optionValue rest with
    | Some src =>
        match optionValue (drop 1 rest) with
        | Some tgt =>
            Next (setTargetContentDir tgt (setSourceFrontmatterDir src o)) 2
        | None => Next (setSourceFrontmatterDir src o) 1
        end
    | None => Next o 0
    end
  else if arg =? "--frontmatter-fields" then
    match optionValue rest with
    | Some v => Next (setFrontmatterFields (fieldList v) o) 1
    | None => Next o 0
    end
  else if negb (startsWith "-" arg) && negb (given (directory o)) then
    Next (setDirectory arg o) 0
  else Next o 0.

(** The loop over [process.argv] from index 2.  [skip] counts the
    arguments that the turn before has taken as values and stepped over. *)
Fixpoint parseLoop (skip : nat) (argv : list string) (o : Options) : Parsed :=
  match argv with
  | [] => Returned o
  | arg :: rest =>
      match skip with
      | S k => parseLoop k rest o
      | O =>
          match parseTurn arg rest o with
          | Next o' consumed => parseLoop consumed rest o'
          | Stop r => r
          end
      end
  end.

(** [parseArguments], on the arguments after the script's name. *)
Definition parseArguments (argv : list string) : Parsed :=
  parseLoop 0 argv initialOptions.

End ParseArguments.

(** An argument that an option can take as its value: it is on the command
    line, is not empty and does not start with a dash. *)
Definition isValue (argv : list string) (s : string) : Prop :=
  In s argv /\ s <> "" /\ startsWith "-" s = false.

End FrontmatterArray.

(** ** frontmatter-editor.js *)

Module FrontmatterEditor.
Import JS Sys.

(** The options object built by [parseArguments]. *)
Record Args := mkArgs {
  command : option string;
  file : option Path;
  directory : option Path;
  field : option string;
  value : option string;
  format : string;
  dryRun : bool;
  recursive : bool;
  verbose : bool;
  extension : string;
  pattern : option (string -> bool)
}.

(** The [message] of an update result. *)
Inductive Message :=
| MSet (field : string) (newValue : JS.value) (oldValue : option JS.value)
| MRemoved (field : string) (oldValue : JS.value)
| MNotFound (field : string).

(** What an update function returns. *)
Record Result := mkResult {
  modified : bool;
  message : Message
}.

(** The lines the script prints. *)
Inductive Line :=
| LUpdated (preview : bool) (filePath : Path) (m : Message)
| LSkipped (filePath : Path) (m : Message)
| LSkippedPattern (itemPath : Path)
| LErrorFile (filePath : Path) (e : Error)
| LErrorDirectory (dirPath : Path) (e : Error)
| LErrorUsage (what : string).

(** How a command ends: it returns, or it calls [process.exit]. *)
Inductive Outcome :=
| Returned
| Exited (code : nat).

Section Script.
Variable gm : Codec.

(** Two built-ins of the language are parameters of the model.
    [JSON_parse] is [JSON.parse], which gives a value or throws.  [toNumber]
    is the conversion of a string to a number, [None] standing for NaN, so
    that [isNaN(s)] is [toNumber s = None] and [Number(s)] is the number
    found: an integer, or another number such as 3.14 or Infinity. *)
Variable JSON_parse : string -> Res JS.value.
Variable toNumber : string -> option number.

Variable args : Args.

(** The coercion of [args.value] in [setField] (lines 228-240). *)
Definition parseValue (v : string) : JS.value :=
  if startsWith "[" v || startsWith "{" v then
    match JSON_parse v with
    | Ok parsed => parsed
    | Throw _ => VStr v
    end
  else if (v =? "true") || (v =? "false") then VBool (v =? "true")
  else
    match toNumber v with
    | Some n => if negb (trim v =? "") then VNumber n else VStr v
    | None => VStr v
    end.

(** The update function of [setField]. *)
Definition setUpdate (name : string) (parsedValue : JS.value)
    (data : object) : object * Result :=
  let oldValue := obj_get data name in
  (obj_set data name parsedValue,
   mkResult true (MSet name parsedValue oldValue)).

(** The update function of [removeField]. *)
Definition removeUpdate (name : string) (data : object) : object * Result :=
  match obj_get data name with
  | Some oldValue => (obj_delete data name, mkResult true (MRemoved name oldValue))
  | None => (data, mkResult false (MNotFound name))
  end.

Definition language : Language :=
  if format args =? "json" then Json else Yaml.

(** [updateFile]: the update function changes the parsed data in place and
    returns its result. *)
Definition updateFile_body (filePath : Path)
    (updateFn : object -> object * Result) : IO Line unit :=
  (fileContent <- readFileSync filePath ;;
   parsed <- lift (matter gm fileContent) ;;
   let (data, result) := updateFn (fst parsed) in
   if modified result then
     (if dryRun args then ret tt
      else
        updatedFileContent <- lift (stringify gm (snd parsed) data language) ;;
        writeFileSync filePath updatedFileContent) ;;;
     log (LUpdated (dryRun args) filePath (message result))
   else if verbose args then log (LSkipped filePath (message result))
   else ret tt)%io.

Definition updateFile (filePath : Path)
    (updateFn : object -> object * Result) : IO Line unit :=
  tryCatch (updateFile_body filePath updateFn)
           (fun error => log (LErrorFile filePath error)).

Definition extensions : list string := map trim (split "," (extension args)).

Definition hasExtension (item : string) : bool :=
  existsb (fun ext => endsWith ext item) extensions.

(** The body of the loop of [processDirectory] for one item. *)
Fixpoint processItem (processFn : Path -> IO Line unit)
    (dirPath : Path) (item : Entry) : IO Line unit :=
  match item with
  | ENoStat name => throw (ENoEntry (path_join dirPath name))
  | EDir name items =>
      if recursive args then
        tryCatch
          (match items with
           | Some l => forEach (processItem processFn (path_join dirPath name)) l
           | None => throw (EAccess (path_join dirPath name))
           end)
          (fun error => log (LErrorDirectory (path_join dirPath name) error))
      else ret tt
  | EFile name =>
      if hasExtension name then
        if match pattern args with Some test => negb (test name) | None => false end
        then (if verbose args then log (LSkippedPattern (path_join dirPath name))
              else ret tt)
        else processFn (path_join dirPath name)
      else ret tt
  | EOther _ => ret tt
  end.

Definition processDirectory (dirPath : Path) (items : option (list Entry))
    (processFn : Path -> IO Line unit) : IO Line unit :=
  tryCatch
    (match items with
     | Some l => forEach (processItem processFn dirPath) l
     | None => throw (EAccess dirPath)
     end)
    (fun error => log (LErrorDirectory dirPath error)).

(** [setField]; [items] is the listing of [args.directory]. *)
Definition setField (items : option (list Entry)) : IO Line Outcome :=
  match file args, directory args with
  | None, None =>
      (log (LErrorUsage "No file or directory specified") ;;; ret (Exited 1))%io
  | _, _ =>
      if negb (given (field args)) then
        (log (LErrorUsage "No field specified") ;;; ret (Exited 1))%io
      else
        match value args, field args with
        | Some v, Some name =>
            let parsedValue := parseValue v in
            match file args with
            | Some f =>
                (updateFile f (setUpdate name parsedValue) ;;; ret Returned)%io
            | None =>
                (processDirectory (default [] (directory args)) items
                   (fun filePath => updateFile filePath (setUpdate name parsedValue)) ;;;
                 ret Returned)%io
            end
        | _, _ =>
            (log (LErrorUsage "No value specified") ;;; ret (Exited 1))%io
        end
  end.

(** [removeField] *)
Definition removeField (items : option (list Entry)) : IO Line Outcome :=
  match file args, directory args with
  | None, None =>
      (log (LErrorUsage "No file or directory specified") ;;; ret (Exited 1))%io
  | _, _ =>
      match field args with
      | Some name =>
          if negb (name =? "") then
            match file args with
            | Some f => (updateFile f (removeUpdate name) ;;; ret Returned)%io
            | None =>
                (processDirectory (default [] (directory args)) items
                   (fun filePath => updateFile filePath (removeUpdate name)) ;;;
                 ret Returned)%io
            end
          else (log (LErrorUsage "No field specified") ;;; ret (Exited 1))%io
      | None => (log (LErrorUsage "No field specified") ;;; ret (Exited 1))%io
      end
  end.

End Script.

(** *** Observations used in the statements *)

(** The same options with [dryRun] set to [b]. *)
Definition setDryRun (b : bool) (a : Args) : Args :=
  mkArgs (command a) (file a) (directory a) (field a) (value a) (format a)
         b (recursive a) (verbose a) (extension a) (pattern a).

(** The plan of [processDirectory]: which files the per-file function is
    called on, and which lines the walk itself prints. *)
Fixpoint planItem (args : Args) (dirPath : Path) (item : Entry)
  : list (Step Line) * option Error :=
  match item with
  | ENoStat name => ([], Some (ENoEntry (path_join dirPath name)))
  | EDir name items =>
      if recursive args then
        (planListing LErrorDirectory (path_join dirPath name)
           (planItem args (path_join dirPath name)) items, None)
      else ([], None)
  | EFile name =>
      if hasExtension args name then
        if match pattern args with Some test => negb (test name) | None => false end
        then (if verbose args
              then [Say (LSkippedPattern (path_join dirPath name))]
              else [], None)
        else ([Visit (path_join dirPath name)], None)
      else ([], None)
  | EOther _ => ([], None)
  end.

Definition planDirectory (args : Args) (dirPath : Path)
    (items : option (list Entry)) : list (Step Line) :=
  planListing LErrorDirectory dirPath (planItem args dirPath) items.


End FrontmatterEditor.

(** ** update-images.js *)

Module UpdateImages.
Import JS Sys.

(** The lines the script prints. *)
Inductive Line :=
| LUpdated (filePath : Path)
| LErrorProcessing (filePath : Path) (e : Error)
| LError (e : Error).

(** The line feed, and the two delimiter lines as the regular expression
    [/^---\n([\s\S]*?)\n---\n/] spells them. *)
Definition nl : string := String "010"%char EmptyString.

Definition opening : string := Eval cbv in ("---" ++ nl).

Definition closing : string := Eval cbv in (nl ++ "---" ++ nl).

(** The first occurrence of [sep] in [s]: the text before it and the text
    after it. *)
Fixpoint breakAt (sep s : string) : option (string * string) :=
  if String.prefix sep s then Some (EmptyString, dropChars (String.length sep) s)
  else
    match s with
    | EmptyString => None
    | String c s' =>
        match breakAt sep s' with
        | Some (before, after) => Some (String c before, after)
        | None => None
        end
    end.

(** [content.match(frontmatterRegex)]: the text has to start with the
    opening line; the lazy group ends at the first closing line after it.
    The result is the group, [match[1]], and the text after the match. *)
Definition matchFrontmatter (content : string) : option (string * string) :=
  if startsWith opening content
  then breakAt closing (dropChars (String.length opening) content)
  else None.

Definition phraseTransformed : string :=
  "Patrick has transformed Golf Pitches".

Definition phraseEditor : string :=
  "golf enthusiast and the chief editor at Golf Pitches".

Definition oldBio : string :=
  "Patrick Mahinge is a golf enthusiast and the chief editor at Golf Pitches, a website that delivers innovative and data - driven golf product reviews.With a keen eye for detail and a passion for the sport, Patrick has transformed Golf Pitches into a trusted source of information for golfers worldwide.".

Definition newBio : string :=
  "Patrick Mahinge is a seasoned forex trader and market analyst with over 15 years of experience in the financial markets. As a Chartered Market Technician (CMT), he combines technical analysis with fundamental research to provide actionable trading insights.".

(** [s.replace(old, new)] for a string [old] and a [new] without [$]: the
    first occurrence is replaced. *)
Definition replaceFirst (old new s : string) : string :=
  match breakAt old s with
  | Some (before, after) => before ++ new ++ after
  | None => s
  end.

(** [line.substring("authorBio:".length).trim()] *)
Definition bioValue (line : string) : string :=
  trim (dropChars (String.length "authorBio:") line).

(** The body of the loop over the lines: the new line, for a line that
    the loop replaces. *)
Definition rewriteLine (line : string) : option string :=
  if startsWith "authorBio:" line then
    let value := bioValue line in
    if includes phraseTransformed value || includes phraseEditor value
    then Some ("authorBio: " ++ replaceFirst oldBio newBio value)
    else None
  else None.

(** The loop over [frontmatterLines], with the [modified] flag. *)
Fixpoint rewriteLines (lines : list string) (modified : bool)
  : list string * bool :=
  match lines with
  | [] => ([], modified)
  | line :: rest =>
      match rewriteLine line with
      | Some line' =>
          let (rest', m) := rewriteLines rest true in (line' :: rest', m)
      | None =>
          let (rest', m) := rewriteLines rest modified in (line :: rest', m)
      end
  end.

Section Script.

(** What [String.prototype.replace] makes of a replacement text: the
    patterns that start with [$] stand for the match, its group and the
    text after it.  (The match is at the start of the text, so nothing is
    before it.) *)
Variable expand : forall (matched group after replacement : string), string.

Definition processFile (filePath : Path) : IO Line unit :=
  tryCatch
    (content <- readFileSync filePath ;;
     match matchFrontmatter content with
     | Some (frontmatterYaml, after) =>
         let (frontmatterLines, modified) :=
           rewriteLines (split nl frontmatterYaml) false in
         if modified then
           let newFrontmatter :=
             opening ++ joinStrings nl frontmatterLines ++ closing in
           let newContent :=
             expand (opening ++ frontmatterYaml ++ closing) frontmatterYaml
                    after newFrontmatter ++ after in
           writeFileSync filePath newContent ;;;
           log (LUpdated filePath)
         else ret tt
     | None => ret tt
     end)%io
    (fun e => log (LErrorProcessing filePath e)).

(** [processDirectory], on what [fs.readdir] gives: the names in the
    directory, or an error. *)
Definition processDirectory (dir : Path) (listing : Res (list string))
  : IO Line unit :=
  (names <- lift listing ;;
   forEach (fun file => processFile (path_join dir file))
           (List.filter (fun file => endsWith ".md" file) names))%io.

(** The call at the end of the script, with its [catch]. *)
Definition run (dir : Path) (listing : Res (list string)) : IO Line unit :=
  tryCatch (processDirectory dir listing) (fun e => log (LError e)).

End Script.

(** The files of [dir] that a run can change. *)
Definition markdownOf (dir : Path) (names : list string) (q : Path) : Prop :=
  exists file, q = path_join dir file /\ In file names /\
               endsWith ".md" file = true.

(** [x] occurs in [s]. *)
Definition occursIn (x s : string) : Prop :=
  exists before after, s = before ++ x ++ after.

End UpdateImages.

(** ** Example inputs *)

Module Ex.
Import JS Sys.

(** A codec for the examples: every text parses to the same metadata
    [d] with the text as body, and rendering gives a fixed text. *)
Definition fixedCodec (d : object) : Codec :=
  mkCodec (fun text => Ok (d, text)) (fun _ _ _ => Ok "rendered").

(** [--add-field draft true] *)
Definition argsAddDraft : FrontmatterArray.Args :=
  FrontmatterArray.mkArgs ["aiKeywords"] "," false true false "to-array"
    ".md,.markdown" (Some "draft") (Some "true") None None None
    false false None "yaml" false.

(** [--fields tags --sort-arrays] *)
Definition argsSortTags : FrontmatterArray.Args :=
  FrontmatterArray.mkArgs ["tags"] "," false true false "to-array"
    ".md,.markdown" None None None None None
    true false None "yaml" false.

(** [--mode validate --fields title,draft] *)
Definition argsValidate : FrontmatterArray.Args :=
  FrontmatterArray.mkArgs ["title"; "draft"] "," false true false "validate"
    ".md,.markdown" None None None None None
    false false None "yaml" false.

(** [--fields tags --mode to-array] and [--fields tags --mode to-string],
    with the default delimiter. *)
Definition argsToArrayTags : FrontmatterArray.Args :=
  FrontmatterArray.mkArgs ["tags"] "," false true false "to-array"
    ".md,.markdown" None None None None None
    false false None "yaml" false.

Definition argsToStringTags : FrontmatterArray.Args :=
  FrontmatterArray.mkArgs ["tags"] "," false true false "to-string"
    ".md,.markdown" None None None None None
    false false None "yaml" false.

(** [--fields tags --add-field status draft --remove-field old
     --rename-field a b] *)
Definition argsAllSteps : FrontmatterArray.Args :=
  FrontmatterArray.mkArgs ["tags"] "," false true false "to-array"
    ".md,.markdown" (Some "status") (Some "draft") (Some "old")
    (Some "a") (Some "b")
    false false None "yaml" false.

Definition dataAllSteps : object :=
  [("tags", VStr "x, y"); ("old", VNum 1); ("a", VNum 2)].

(** A source directory [src] holding [guides/intro.md] and [intro.md], in
    listing order. *)
Definition sourceTree : option (list Entry) :=
  Some [EDir "guides" (Some [EFile "intro.md"]); EFile "intro.md"].

Definition noFiles : World FrontmatterArray.Line := mkWorld ∅ [].


(** A world with one file, [post.md], that can be read and written. *)
Definition plainPost : World FrontmatterArray.Line :=
  mkWorld {[ ["post.md"] := mkFile "text" true true ]} [].

(** A codec for the copier example: every text parses to metadata holding
    a title. *)
Definition titleCodec : Codec := fixedCodec [("title", VStr "T")].

(** Two directories, [src] and [dst], each listing [a.md] and [b.md]. *)
Definition twoPosts : option (list Entry) :=
  Some [EFile "a.md"; EFile "b.md"].

(** The target [dst/a.md] cannot be read; the other three files are in
    order. *)
Definition copyWorld : World FrontmatterArray.Line :=
  mkWorld
    (<[ ["src"; "a.md"] := mkFile "source a" true true ]>
       (<[ ["src"; "b.md"] := mkFile "source b" true true ]>
          (<[ ["dst"; "a.md"] := mkFile "target a" false true ]>
             {[ ["dst"; "b.md"] := mkFile "target b" true true ]})))
    [].

Definition copySources : list FrontmatterArray.SourceFile :=
  [FrontmatterArray.mkSourceFile ["src"; "a.md"] "a.md" ["a.md"];
   FrontmatterArray.mkSourceFile ["src"; "b.md"] "b.md" ["b.md"]].

(** A directory [content] listing [a.md] and [b.md], where [a.md] cannot
    be read. *)
Definition contentWorld : World FrontmatterArray.Line :=
  mkWorld
    (<[ ["content"; "a.md"] := mkFile "post a" false true ]>
       {[ ["content"; "b.md"] := mkFile "post b" true true ]})
    [].

(** A reader of decimal integers, standing for the conversion of a string
    to a number on the strings used in the examples: white space around the
    digits is ignored, the blank string is zero, anything else than an
    optional minus sign and digits is NaN. *)
Fixpoint digitsValue (acc : Z) (s : string) : option Z :=
  match s with
  | EmptyString => Some acc
  | String c r =>
      let n := nat_of_ascii c in
      if (48 <=? n)%nat && (n <=? 57)%nat
      then digitsValue (acc * 10 + Z.of_nat (n - 48)) r
      else None
  end.

Definition decimalNumber (s : string) : option number :=
  match trim s with
  | EmptyString => Some (Integer 0)
  | String "-" EmptyString => None
  | String "-" r =>
      option_map
        (fun n => if (n =? 0)%Z then Other NegativeZero else Integer (- n))
        (digitsValue 0 r)
  | t => option_map Integer (digitsValue 0 t)
  end.

(** A codec whose rendering tells what kind of value the field [count]
    holds. *)
Definition kindCodec : Codec :=
  mkCodec (fun text => Ok ([], text))
          (fun _ data _ =>
             Ok match obj_get data "count" with
                | Some (VNum _) => "count is an integer"
                | Some (VStr _) => "count is a string"
                | _ => "count is something else"
                end).

(** A [JSON.parse] that rejects every text. *)
Definition rejectJSON (s : string) : Res value := Throw (EParse s).

End Ex.

(** ** Properties *)

Import JS Sys.

(** *** Objects *)

Lemma obj_get_None (o : object) (k : string) :
  obj_get o k = None <-> ~ In k (keys o).
Proof.
  induction o as [|[k' v] r IH]; simpl; [tauto|].
  destruct (String.eqb_spec k' k) as [->|Hne].
  - split; [discriminate | tauto].
  - rewrite IH. tauto.
Qed.

Lemma hasOwnProperty_In (o : object) (k : string) :
  hasOwnProperty o k = true <-> In k (keys o).
Proof.
  unfold hasOwnProperty. destruct (obj_get o k) eqn:E.
  - split; [intros _|reflexivity].
    destruct (in_dec string_dec k (keys o)) as [Hin|Hnin]; [exact Hin|].
    apply obj_get_None in Hnin. congruence.
  - split; [discriminate|]. intros Hin. now apply obj_get_None in E.
Qed.

Lemma obj_get_app (a b : object) (k : string) :
  obj_get (a ++ b)%list k =
    match obj_get a k with
    | Some x => Some x
    | None => obj_get b k
    end.
Proof.
  induction a as [|[k' v'] a IH]; simpl; [reflexivity|].
  now destruct (k' =? k).
Qed.

Lemma keys_app (a b : object) : keys (a ++ b)%list = (keys a ++ keys b)%list.
Proof. apply map_app. Qed.

Lemma obj_replace_here (a b : object) (k : string) (v v' : value) :
  obj_get a k = None ->
  obj_replace (a ++ (k, v) :: b)%list k v' = (a ++ (k, v') :: b)%list.
Proof.
  induction a as [|[k0 v0] a IH]; simpl; intros Ha.
  - now rewrite String.eqb_refl.
  - destruct (k0 =? k); [discriminate|]. now rewrite IH.
Qed.

Lemma obj_delete_here (a b : object) (k : string) (v : value) :
  obj_get a k = None ->
  obj_delete (a ++ (k, v) :: b)%list k = (a ++ b)%list.
Proof.
  induction a as [|[k0 v0] a IH]; simpl; intros Ha.
  - now rewrite String.eqb_refl.
  - destruct (k0 =? k); [discriminate|]. now rewrite IH.
Qed.

(** A key that is present is found at one place. *)
Lemma obj_get_split (o : object) (k : string) (x : value) :
  obj_get o k = Some x ->
  exists a b, o = (a ++ (k, x) :: b)%list /\ obj_get a k = None.
Proof.
  induction o as [|[k' v'] r IH]; simpl; [discriminate|].
  destruct (String.eqb_spec k' k) as [->|Hne].
  - intros [= ->]. now exists [], r.
  - intros H. destruct (IH H) as (a & b & -> & Ha).
    exists ((k', v') :: a), b. split; [reflexivity|]. simpl.
    apply String.eqb_neq in Hne. now rewrite Hne.
Qed.

Lemma obj_insertIndex_split (o : object) (i : N) (k : string) :
  exists a b, o = (a ++ b)%list /\
              forall v, obj_insertIndex o i k v = (a ++ (k, v) :: b)%list.
Proof.
  induction o as [|[k' v'] r (a & b & Hr & Hi)]; simpl.
  - now exists [], [].
  - destruct (arrayIndex k') as [j|]; [destruct (j <? i)%N|].
    + exists ((k', v') :: a), b. split; [simpl; now rewrite <- Hr|].
      intros v. simpl. now rewrite Hi.
    + now exists [], ((k', v') :: r).
    + now exists [], ((k', v') :: r).
Qed.

(** Setting a key that is present replaces its value where it stands. *)
Lemma obj_set_present (o : object) (k : string) (x : value) :
  obj_get o k = Some x ->
  exists a b, o = (a ++ (k, x) :: b)%list /\ obj_get a k = None /\
              forall v, obj_set o k v = (a ++ (k, v) :: b)%list.
Proof.
  intros Hget. destruct (obj_get_split o k x Hget) as (a & b & -> & Ha).
  exists a, b. split; [reflexivity|]. split; [exact Ha|]. intros v.
  unfold obj_set, hasOwnProperty. rewrite Hget. now apply obj_replace_here.
Qed.

(** Setting a key that is absent puts it at one place among the others,
    which is the end when the key is no array index. *)
Lemma obj_set_absent (o : object) (k : string) :
  obj_get o k = None ->
  exists a b, o = (a ++ b)%list /\ obj_get a k = None /\
              (forall v, obj_set o k v = (a ++ (k, v) :: b)%list) /\
              (arrayIndex k = None -> b = []).
Proof.
  intros Hget.
  assert (Hfront : forall a b, o = (a ++ b)%list -> obj_get a k = None).
  { intros a b ->. rewrite obj_get_app in Hget.
    now destruct (obj_get a k). }
  unfold obj_set, hasOwnProperty. rewrite Hget.
  destruct (arrayIndex k) as [i|].
  - destruct (obj_insertIndex_split o i k) as (a & b & Ho & Hi).
    exists a, b. split; [exact Ho|]. split; [now apply (Hfront a b)|].
    split; [exact Hi|discriminate].
  - exists o, []. split; [now rewrite app_nil_r|]. split; [exact Hget|].
    split; reflexivity.
Qed.

Lemma obj_get_set_eq (o : object) (k : string) (v : value) :
  obj_get (obj_set o k v) k = Some v.
Proof.
  destruct (obj_get o k) as [x|] eqn:Hget.
  - destruct (obj_set_present o k x Hget) as (a & b & _ & Ha & ->).
    rewrite obj_get_app, Ha. simpl. now rewrite String.eqb_refl.
  - destruct (obj_set_absent o k Hget) as (a & b & _ & Ha & -> & _).
    rewrite obj_get_app, Ha. simpl. now rewrite String.eqb_refl.
Qed.

Lemma obj_get_set_ne (o : object) (k k' : string) (v : value) :
  k <> k' -> obj_get (obj_set o k v) k' = obj_get o k'.
Proof.
  intros Hne. apply String.eqb_neq in Hne.
  destruct (obj_get o k) as [x|] eqn:Hget.
  - destruct (obj_set_present o k x Hget) as (a & b & Ho & _ & ->).
    rewrite Ho, !obj_get_app. simpl. now rewrite Hne.
  - destruct (obj_set_absent o k Hget) as (a & b & Ho & _ & -> & _).
    rewrite Ho, !obj_get_app. simpl. now rewrite Hne.
Qed.

Lemma obj_set_same (o : object) (k : string) (v : value) :
  obj_get o k = Some v -> obj_set o k v = o.
Proof.
  intros Hget.
  destruct (obj_set_present o k v Hget) as (a & b & Ho & _ & ->).
  now symmetry.
Qed.

Lemma keys_obj_set_present (o : object) (k : string) (v : value) :
  In k (keys o) -> keys (obj_set o k v) = keys o.
Proof.
  intros Hin. destruct (obj_get o k) as [x|] eqn:Hget.
  - destruct (obj_set_present o k x Hget) as (a & b & Ho & _ & ->).
    rewrite Ho. now rewrite !keys_app.
  - now apply obj_get_None in Hget.
Qed.

Lemma keys_obj_set_absent (o : object) (k : string) (v : value) :
  ~ In k (keys o) -> arrayIndex k = None ->
  keys (obj_set o k v) = (keys o ++ [k])%list.
Proof.
  intros Hnin Hk. apply obj_get_None in Hnin.
  destruct (obj_set_absent o k Hnin) as (a & b & Ho & _ & -> & Hb).
  rewrite Ho, (Hb Hk), app_nil_r. now rewrite keys_app.
Qed.

(** Setting a key that is absent puts it at one place among the keys. *)
Lemma keys_obj_set_split (o : object) (k : string) (v : value) :
  ~ In k (keys o) ->
  exists a b, keys o = (a ++ b)%list /\ keys (obj_set o k v) = (a ++ k :: b)%list.
Proof.
  intros Hnin. apply obj_get_None in Hnin.
  destruct (obj_set_absent o k Hnin) as (a & b & Ho & _ & -> & _).
  exists (keys a), (keys b). rewrite Ho. now rewrite !keys_app.
Qed.

Lemma obj_set_set (o : object) (k : string) (v v' : value) :
  obj_set (obj_set o k v) k v' = obj_set o k v'.
Proof.
  assert (Hagain : forall a b,
            obj_get a k = None ->
            obj_set (a ++ (k, v) :: b)%list k v' = (a ++ (k, v') :: b)%list).
  { intros a b Ha. unfold obj_set, hasOwnProperty.
    rewrite obj_get_app, Ha. simpl. rewrite String.eqb_refl.
    now apply obj_replace_here. }
  destruct (obj_get o k) as [x|] eqn:Hget.
  - destruct (obj_set_present o k x Hget) as (a & b & _ & Ha & Hset).
    rewrite !Hset. now apply Hagain.
  - destruct (obj_set_absent o k Hget) as (a & b & _ & Ha & Hset & _).
    rewrite !Hset. now apply Hagain.
Qed.

Lemma obj_delete_set_fresh (o : object) (k : string) (v : value) :
  obj_get o k = None -> obj_delete (obj_set o k v) k = o.
Proof.
  intros Hget. destruct (obj_set_absent o k Hget) as (a & b & Ho & Ha & -> & _).
  rewrite Ho. now apply obj_delete_here.
Qed.

Lemma obj_set_wellFormed (o : object) (k : string) (v : value) :
  wellFormed o -> wellFormed (obj_set o k v).
Proof.
  unfold wellFormed. intros Hwf.
  destruct (in_dec string_dec k (keys o)) as [Hin|Hnin].
  - now rewrite keys_obj_set_present.
  - destruct (keys_obj_set_split o k v Hnin) as (a & b & Ho & ->).
    rewrite Ho in Hwf, Hnin. apply NoDup_app in Hwf as (Ha & Hab & Hb).
    apply NoDup_app. split; [exact Ha|]. split.
    + intros x Hx [->|Hxb]%elem_of_cons.
      * apply Hnin, in_or_app. left. now apply list_elem_of_In.
      * now apply (Hab x).
    + apply NoDup_cons. split; [|exact Hb].
      intros Hk. apply Hnin, in_or_app. right. now apply list_elem_of_In.
Qed.

(** Two keys that are the same array index are the same key. *)
Lemma arrayIndex_inj (k k' : string) (i : N) :
  arrayIndex k = Some i -> arrayIndex k' = Some i -> k = k'.
Proof.
  assert (H : forall x, arrayIndex x = Some i ->
                        NilZero.string_of_uint (N.to_uint i) = x).
  { intros x. unfold arrayIndex.
    destruct (NilZero.uint_of_string x) as [d|]; [|discriminate].
    destruct (String.eqb_spec (NilZero.string_of_uint (N.to_uint (N.of_uint d))) x)
      as [E|]; [|discriminate].
    simpl. destruct (N.of_uint d <? 4294967295)%N; [|discriminate].
    now intros [= <-]. }
  intros Hk Hk'. now rewrite <- (H k Hk), <- (H k' Hk').
Qed.

(** A key with an index in the model is where JavaScript puts it: set on
    the metadata [{title: T}] with the field [2024] gives the keys [2024],
    [title]. *)
Lemma obj_set_array_index_first (v t : value) :
  keys (obj_set [("title", t)] "2024" v) = ["2024"; "title"] /\
  keys (obj_set [("title", t)] "year" v) = ["title"; "year"].
Proof. split; reflexivity. Qed.

Lemma enumerationOrder_snoc (l : list string) (k : string) :
  arrayIndex k = None -> enumerationOrder l -> enumerationOrder (l ++ [k])%list.
Proof.
  intros Hk. induction l as [|x l IH]; simpl.
  - intros _. split; [constructor | exact I].
  - intros [Hx Hl]. split; [|now apply IH].
    apply Forall_app. split; [exact Hx|].
    constructor; [|constructor]. rewrite Hk. now destruct (arrayIndex x).
Qed.

Lemma Forall_filter_keep {A} (Q P : A -> Prop) `{forall x, Decision (P x)}
    (l : list A) :
  Forall Q l -> Forall Q (filter P l).
Proof.
  induction 1 as [|x l Hx Hl IH]; [constructor|].
  rewrite filter_cons. destruct (decide (P x)); [now constructor | exact IH].
Qed.

Lemma enumerationOrder_filter (P : string -> Prop) `{forall x, Decision (P x)}
    (l : list string) :
  enumerationOrder l -> enumerationOrder (filter P l).
Proof.
  induction l as [|x l IH]; simpl; [easy|]. intros [Hx Hl].
  rewrite filter_cons. destruct (decide (P x)); [|now apply IH].
  split; [|now apply IH]. now apply Forall_filter_keep.
Qed.

Lemma enumerationOrder_insertIndex (o : object) (i : N) (k : string) (v : value) :
  arrayIndex k = Some i -> ~ In k (keys o) ->
  enumerationOrder (keys o) ->
  enumerationOrder (keys (obj_insertIndex o i k v)).
Proof.
  intros Hk. induction o as [|[k' v'] r IH]; simpl; intros Hnin Ho.
  - split; [constructor | exact I].
  - destruct Ho as [Hhead Hr].
    assert (Hne : k' <> k) by tauto.
    assert (Hnr : ~ In k (keys r)) by tauto.
    destruct (arrayIndex k') as [j|] eqn:Hk'; [destruct (j <? i)%N eqn:Hlt|].
    + simpl. rewrite Hk'. split; [|now apply IH].
      destruct (obj_insertIndex_split r i k) as (a & b & Hab & Hins).
      rewrite Hins, keys_app. simpl.
      rewrite Hab, keys_app in Hhead. apply Forall_app in Hhead as [Ha Hb].
      apply Forall_app. split; [exact Ha|]. constructor; [|exact Hb].
      rewrite Hk. now apply N.ltb_lt.
    + simpl. rewrite Hk, Hk'. split; [|split; [exact Hhead|exact Hr]].
      assert (Hij : (i < j)%N).
      { apply N.ltb_ge in Hlt. destruct (N.eq_dec i j) as [->|Hd]; [|lia].
        exfalso. apply Hne. now apply (arrayIndex_inj k' k j). }
      constructor; [now rewrite Hk'|].
      eapply Forall_impl; [exact Hhead|]. intros x. simpl.
      destruct (arrayIndex x); [lia|easy].
    + simpl. rewrite Hk, Hk'. split; [|split; [exact Hhead|exact Hr]].
      constructor; [now rewrite Hk'|].
      eapply Forall_impl; [exact Hhead|]. intros x. simpl.
      now destruct (arrayIndex x).
Qed.

(** Setting a field keeps the keys in the order of enumeration. *)
Lemma obj_set_enumerationOrder (o : object) (k : string) (v : value) :
  enumerationOrder (keys o) -> enumerationOrder (keys (obj_set o k v)).
Proof.
  intros Ho. destruct (in_dec string_dec k (keys o)) as [Hin|Hnin].
  - now rewrite keys_obj_set_present.
  - destruct (arrayIndex k) as [i|] eqn:Hk.
    + unfold obj_set.
      destruct (hasOwnProperty o k) eqn:E;
        [now apply hasOwnProperty_In in E|].
      rewrite Hk. now apply enumerationOrder_insertIndex.
    + rewrite keys_obj_set_absent by assumption.
      now apply enumerationOrder_snoc.
Qed.

Lemma obj_get_delete_ne (o : object) (k k' : string) :
  k <> k' -> obj_get (obj_delete o k) k' = obj_get o k'.
Proof.
  intros Hne. induction o as [|[k0 v0] r IH]; simpl; [reflexivity|].
  destruct (k0 =? k) eqn:E; simpl.
  - apply String.eqb_eq in E; subst k0.
    destruct (k =? k') eqn:E'; [apply String.eqb_eq in E'; contradiction | reflexivity].
  - destruct (k0 =? k'); [reflexivity | exact IH].
Qed.

(** *** The transform engine *)

Import FrontmatterArray.

(** C1.  Metadata holding [draft: false], run with [--add-field draft true]:
    the field is present, yet the add-field step replaces its value by the
    string [true] and records one change. *)
Theorem add_field_replaces_false_value :
  hasOwnProperty [("draft", VBool false)] "draft" = true /\
  addFieldStep Ex.argsAddDraft (start [("draft", VBool false)]) =
    (tt, mkLocals [("draft", VStr "true")] true [AddField "draft" (Some "true")]).
Proof. split; reflexivity. Qed.

(** The add-field step does leave a field alone when its value is truthy. *)
Lemma addFieldStep_truthy (args : Args) (name : string) (s : Locals) :
  addField args = Some name ->
  truthyOpt (obj_get (data s) name) = true ->
  addFieldStep args s = (tt, s).
Proof.
  intros Ha Ht. unfold addFieldStep. rewrite Ha.
  unfold mbind, readField. rewrite Ht.
  now rewrite andb_false_r.
Qed.

(** It sets the field when the field is absent. *)
Lemma addFieldStep_absent (args : Args) (name : string) (s : Locals) :
  addField args = Some name -> name <> "" ->
  obj_get (data s) name = None ->
  addFieldStep args s =
    (tt, mkLocals (obj_set (data s) name (addedValue (addValue args))) true
           (changes s ++ [AddField name (addValue args)])).
Proof.
  intros Ha Hn Hget. unfold addFieldStep. rewrite Ha.
  unfold mbind, readField, writeField, setModified, push. rewrite Hget. simpl.
  apply String.eqb_neq in Hn. now rewrite Hn.
Qed.

(** C3.  Metadata holding [tags: [b, a]], run with [--fields tags
    --sort-arrays]: the array of the field is sorted in place, and because
    [processedArray] is that same array the comparison finds no difference:
    no change record is pushed and [modified] stays false. *)
Theorem sort_alone_records_no_change :
  transform Ex.argsSortTags "post.md"
    (start [("tags", VArr [VStr "b"; VStr "a"])]) =
    (None, mkLocals [("tags", VArr [VStr "a"; VStr "b"])] false []).
Proof. reflexivity. Qed.

(** C6.  Metadata holding [title: Hello] and [draft: false], validated for
    [title] and [draft]: both fields are present, yet [draft] is reported
    missing. *)
Theorem validate_reports_false_value_missing :
  let d := [("title", VStr "Hello"); ("draft", VBool false)] in
  hasOwnProperty d "draft" = true /\
  modeSwitch Ex.argsValidate "post.md" (start d) =
    (Some [LValidationFailed "post.md" ["draft"]], start d).
Proof. split; reflexivity. Qed.

(** Validate mode itself changes nothing in the locals and returns from
    [processMarkdownFile]. *)
Lemma validate_returns (args : Args) (base : string) (s : Locals) :
  mode args = "validate" ->
  exists lines, transform args base s = (Some lines, s).
Proof.
  intros Hm. unfold transform, modeSwitch, mbind. rewrite Hm. simpl.
  eexists. reflexivity.
Qed.

Ltac run_step :=
  unfold mbind, mret, readField, writeField, deleteField, setModified, push,
    deref, sortInPlace; simpl.

Ltac touches :=
  split;
  [ intros other Hne; simpl; repeat rewrite obj_get_set_ne by exact Hne; reflexivity
  | first [ exists []; split; [simpl; now rewrite app_nil_r | constructor]
          | eexists [_]; split; [reflexivity | repeat constructor] ] ].

Ltac split_if :=
  match goal with
  | |- context [if ?b then _ else _] => destruct b eqn:?
  end; simpl.

Lemma toArrayField_touchesOnly (args : Args) (field : string) (s : Locals) :
  touchesOnly field s (snd (toArrayField args field s)).
Proof.
  unfold toArrayField. run_step.
  destruct (obj_get (data s) field) as [v|] eqn:Hget; simpl; [|touches].
  destruct v as [|b|n|x|str|l|o]; simpl; rewrite ?andb_false_r; simpl;
    try touches.
  - split_if; touches.
  - destruct (sortArrays args) eqn:Hs, (uniqueValues args) eqn:Hu; simpl;
      try touches; split_if; touches.
Qed.

Lemma toStringField_touchesOnly (args : Args) (field : string) (s : Locals) :
  touchesOnly field s (snd (toStringField args field s)).
Proof.
  unfold toStringField. run_step.
  destruct (obj_get (data s) field) as [v|] eqn:Hget; simpl; [|touches].
  destruct v as [|b|n|x|str|l|o]; simpl; rewrite ?andb_false_r; simpl;
    touches.
Qed.

Lemma mforEach_cons {A} (f : A -> M unit) (x : A) (l : list A) (s : Locals) :
  mforEach f (x :: l) s = mforEach f l (snd (f x s)).
Proof. simpl. unfold mbind. now destruct (f x s). Qed.

(** In to-array mode a field holding the empty string is passed over. *)
Lemma toArrayField_empty_string (args : Args) (field : string) (s : Locals) :
  obj_get (data s) field = Some (VStr "") ->
  toArrayField args field s = (tt, s).
Proof.
  intros Hget. unfold toArrayField. run_step. now rewrite Hget.
Qed.

Lemma toArray_loop_empty_string (args : Args) (f : string) (l : list string) :
  forall s,
    obj_get (data s) f = Some (VStr "") ->
    Forall (fun c => changeField c <> f) (changes s) ->
    let s' := snd (mforEach (toArrayField args) l s) in
    obj_get (data s') f = Some (VStr "") /\
    Forall (fun c => changeField c <> f) (changes s').
Proof.
  induction l as [|g l IH]; intros s Hget Hch; simpl.
  - now split.
  - fold (mforEach (toArrayField args) l).
    change (mbind (toArrayField args g) (fun _ => mforEach (toArrayField args) l) s)
      with (mforEach (toArrayField args) (g :: l) s).
    rewrite mforEach_cons.
    destruct (String.eqb_spec g f) as [->|Hne].
    + rewrite toArrayField_empty_string by exact Hget. now apply IH.
    + destruct (toArrayField_touchesOnly args g s) as [Hother [cs [Hcs Hall]]].
      apply IH.
      * now rewrite Hother.
      * rewrite Hcs. apply Forall_app. split; [exact Hch|].
        eapply Forall_impl; [exact Hall|]. simpl.
        intros c [Hc _]. congruence.
Qed.

(** C10.  In to-array mode a field whose value is the empty string is left
    as it is by the conversion loop, whatever the other requested fields
    are, and no change record about it is pushed: control reaches the field
    operations with the field still holding the empty string. *)
Theorem to_array_skips_empty_string (args : Args) (base f : string) (d : object) :
  mode args = "to-array" ->
  obj_get d f = Some (VStr "") ->
  fst (modeSwitch args base (start d)) = None /\
  obj_get (data (snd (modeSwitch args base (start d)))) f = Some (VStr "") /\
  Forall (fun c => changeField c <> f)
         (changes (snd (modeSwitch args base (start d)))).
Proof.
  intros Hmode Hget. unfold modeSwitch. rewrite Hmode. simpl.
  unfold mbind, mret.
  destruct (mforEach (toArrayField args) (fields args) (start d)) as [u s'] eqn:E.
  simpl. split; [reflexivity|].
  pose proof (toArray_loop_empty_string args f (fields args) (start d) Hget) as H.
  simpl in H. rewrite E in H. simpl in H. apply H. constructor.
Qed.

Lemma to_array_skips_empty_string_witness :
  fst (modeSwitch defaults "post.md" (start [("aiKeywords", VStr "")])) = None /\
  obj_get (data (snd (modeSwitch defaults "post.md" (start [("aiKeywords", VStr "")]))))
          "aiKeywords" = Some (VStr "") /\
  Forall (fun c => changeField c <> "aiKeywords")
         (changes (snd (modeSwitch defaults "post.md" (start [("aiKeywords", VStr "")])))).
Proof.
  apply (to_array_skips_empty_string defaults "post.md" "aiKeywords"
           [("aiKeywords", VStr "")]); reflexivity.
Defined.

(** The records a conversion loop pushes are conversion records. *)
Lemma conversion_loop_changes (f : string -> M unit) (l : list string) :
  (forall field s, touchesOnly field s (snd (f field s))) ->
  forall s, exists cs,
    changes (snd (mforEach f l s)) = (changes s ++ cs)%list /\
    Forall (fun c => phase c = 0%nat) cs.
Proof.
  intros Hf. induction l as [|g l IH]; intros s.
  - exists []. simpl. split; [now rewrite app_nil_r | constructor].
  - rewrite mforEach_cons.
    destruct (Hf g s) as [_ [cs1 [H1 Hall1]]].
    destruct (IH (snd (f g s))) as [cs2 [H2 Hall2]].
    exists (cs1 ++ cs2)%list. split.
    + rewrite H2, H1. now rewrite <- app_assoc.
    + apply Forall_app. split; [|exact Hall2].
      eapply Forall_impl; [exact Hall1|]. now intros c [_ Hc].
Qed.

Lemma conversionPhase_changes (args : Args) (s : Locals) :
  exists cs,
    changes (snd (conversionPhase args s)) = (changes s ++ cs)%list /\
    Forall (fun c => phase c = 0%nat) cs.
Proof.
  unfold conversionPhase.
  destruct (mode args =? "to-array").
  - apply conversion_loop_changes. apply toArrayField_touchesOnly.
  - destruct (mode args =? "to-string").
    + apply conversion_loop_changes. apply toStringField_touchesOnly.
    + exists []. simpl. split; [now rewrite app_nil_r | constructor].
Qed.

Lemma addFieldStep_changes (args : Args) (s : Locals) :
  exists cs,
    changes (snd (addFieldStep args s)) = (changes s ++ cs)%list /\
    Forall (fun c => phase c = 1%nat) cs.
Proof.
  unfold addFieldStep. destruct (addField args) as [name|]; run_step.
  - split_if.
    + eexists [_]. split; [reflexivity | repeat constructor].
    + exists []. split; [now rewrite app_nil_r | constructor].
  - exists []. split; [now rewrite app_nil_r | constructor].
Qed.

Lemma removeFieldStep_changes (args : Args) (s : Locals) :
  exists cs,
    changes (snd (removeFieldStep args s)) = (changes s ++ cs)%list /\
    Forall (fun c => phase c = 2%nat) cs.
Proof.
  unfold removeFieldStep. destruct (removeField args) as [name|]; run_step.
  - split_if.
    + eexists [_]. split; [reflexivity | repeat constructor].
    + exists []. split; [now rewrite app_nil_r | constructor].
  - exists []. split; [now rewrite app_nil_r | constructor].
Qed.

Lemma renameFieldStep_changes (args : Args) (s : Locals) :
  exists cs,
    changes (snd (renameFieldStep args s)) = (changes s ++ cs)%list /\
    Forall (fun c => phase c = 3%nat) cs.
Proof.
  unfold renameFieldStep.
  destruct (renameField args) as [old|], (newFieldName args) as [new|]; run_step;
    try (exists []; split; [now rewrite app_nil_r | constructor]).
  split_if.
  - eexists [_]. split; [reflexivity | repeat constructor].
  - exists []. split; [now rewrite app_nil_r | constructor].
Qed.

(** When the mode is neither analyze nor validate the switch runs the
    conversion loop of the mode and falls through. *)
Lemma modeSwitch_converts (args : Args) (base : string) (s : Locals) :
  mode args <> "analyze" -> mode args <> "validate" ->
  modeSwitch args base s = (None, snd (conversionPhase args s)).
Proof.
  intros Ha Hv. unfold modeSwitch, conversionPhase.
  destruct (mode args =? "to-array").
  - unfold mbind, mret. now destruct (mforEach _ _ s).
  - destruct (mode args =? "to-string").
    + unfold mbind, mret. now destruct (mforEach _ _ s).
    + apply String.eqb_neq in Ha, Hv. now rewrite Ha, Hv.
Qed.

(** C8.  In a mode other than analyze and validate, [processMarkdownFile]
    transforms the metadata by running, in this order, the conversion loop
    over all requested fields, the add-field step, the remove-field step and
    the rename-field step, each on the locals the previous one left.  The
    single change log is the concatenation, in the same order, of the
    records of the four steps. *)
Theorem operations_in_fixed_order (args : Args) (base : string) (d : object) :
  mode args <> "analyze" -> mode args <> "validate" ->
  let s1 := snd (conversionPhase args (start d)) in
  let s2 := snd (addFieldStep args s1) in
  let s3 := snd (removeFieldStep args s2) in
  let s4 := snd (renameFieldStep args s3) in
  transform args base (start d) = (None, s4) /\
  exists conv add rem ren,
    changes s1 = conv /\
    changes s2 = (conv ++ add)%list /\
    changes s3 = (conv ++ add ++ rem)%list /\
    changes s4 = (conv ++ add ++ rem ++ ren)%list /\
    Forall (fun c => phase c = 0%nat) conv /\
    Forall (fun c => phase c = 1%nat) add /\
    Forall (fun c => phase c = 2%nat) rem /\
    Forall (fun c => phase c = 3%nat) ren.
Proof.
  intros Ha Hv s1 s2 s3 s4. split.
  - unfold transform, mbind. rewrite modeSwitch_converts by assumption.
    fold s1. unfold fieldOperations, mbind, mret.
    subst s4 s3 s2.
    destruct (addFieldStep args s1) as [u1 t1]. simpl.
    destruct (removeFieldStep args t1) as [u2 t2]. simpl.
    now destruct (renameFieldStep args t2) as [u3 t3].
  - destruct (conversionPhase_changes args (start d)) as [conv [Hc Hc0]].
    destruct (addFieldStep_changes args s1) as [add [Hadd Ha1]].
    destruct (removeFieldStep_changes args s2) as [rem [Hrem Hr2]].
    destruct (renameFieldStep_changes args s3) as [ren [Hren Hn3]].
    exists conv, add, rem, ren. simpl in Hc. fold s1 in Hc, Hadd.
    fold s2 in Hadd, Hrem. fold s3 in Hrem, Hren. fold s4 in Hren.
    repeat split; try assumption.
    + now rewrite Hadd, Hc.
    + rewrite Hrem, Hadd, Hc. now rewrite <- app_assoc.
    + rewrite Hren, Hrem, Hadd, Hc. now rewrite <- !app_assoc.
Qed.

Lemma operations_in_fixed_order_witness :
  fst (transform Ex.argsAllSteps "post.md" (start Ex.dataAllSteps)) = None /\
  changes (snd (transform Ex.argsAllSteps "post.md" (start Ex.dataAllSteps))) =
    [ConvertToArray "tags" [VStr "x"; VStr "y"];
     AddField "status" (Some "draft");
     RemoveField "old";
     RenameField "a" "b"].
Proof.
  destruct (operations_in_fixed_order Ex.argsAllSteps "post.md" Ex.dataAllSteps)
    as [H _]; [discriminate | discriminate |].
  rewrite H. split; reflexivity.
Defined.

(** *** Splitting and joining *)

Lemma append_cons (c : ascii) (a b : string) :
  String c a ++ b = String c (a ++ b).
Proof. reflexivity. Qed.

Lemma append_nil_l (b : string) : "" ++ b = b.
Proof. reflexivity. Qed.

Lemma append_empty_r (s : string) : s ++ "" = s.
Proof.
  induction s as [|c s IH]; [reflexivity|].
  now rewrite append_cons, IH.
Qed.

Lemma append_assoc (a b c : string) : (a ++ b) ++ c = a ++ (b ++ c).
Proof.
  induction a as [|x a IH]; [reflexivity|].
  now rewrite !append_cons, IH.
Qed.

Lemma prefix_dropChars (p s : string) :
  String.prefix p s = true -> p ++ dropChars (String.length p) s = s.
Proof.
  revert s. induction p as [|c p IH]; intros s H.
  - reflexivity.
  - destruct s as [|c' s]; [discriminate H|].
    change (String.prefix (String c p) (String c' s))
      with (if ascii_dec c c' then String.prefix p s else false) in H.
    destruct (ascii_dec c c') as [->|]; [|now simpl in H].
    rewrite append_cons. simpl. now rewrite IH.
Qed.

Lemma split_go_nonempty (sep : string) (s : string) :
  forall k cur, split_go sep k cur s <> [].
Proof.
  induction s as [|c s IH]; intros k cur; cbn [split_go]; [easy|].
  destruct k; [|apply IH].
  destruct (String.prefix sep (String c s)); [easy | apply IH].
Qed.

Lemma joinStrings_cons (sep x : string) (r : list string) :
  r <> [] -> joinStrings sep (x :: r) = x ++ sep ++ joinStrings sep r.
Proof. destruct r; [contradiction | reflexivity]. Qed.

Lemma joinStrings_split_go (sep : string) :
  sep <> "" ->
  forall s k cur,
    joinStrings sep (split_go sep k cur s) = cur ++ dropChars k s.
Proof.
  intros Hsep. induction s as [|c s IH]; intros k cur.
  - destruct k; cbn [split_go joinStrings dropChars]; now rewrite append_empty_r.
  - destruct k as [|k]; [|cbn [split_go dropChars]; apply IH].
    cbn [split_go].
    destruct (String.prefix sep (String c s)) eqn:Hp.
    + rewrite joinStrings_cons by apply split_go_nonempty.
      rewrite IH, append_nil_l.
      apply prefix_dropChars in Hp.
      destruct sep as [|c' sep']; [contradiction|].
      cbn [String.length dropChars] in Hp. cbn [String.length].
      rewrite Nat.sub_1_r. cbn [Nat.pred dropChars].
      rewrite append_cons in Hp. injection Hp as -> Hp.
      rewrite append_cons, Hp. reflexivity.
    + rewrite IH. cbn [dropChars]. rewrite append_assoc. reflexivity.
Qed.

Lemma joinStrings_chars (s : string) :
  joinStrings "" (map (fun c => String c "") (list_ascii_of_string s)) = s.
Proof.
  induction s as [|c s IH]; [reflexivity|].
  cbn [list_ascii_of_string map].
  destruct (list_ascii_of_string s) as [|c' r] eqn:E.
  - destruct s; [reflexivity | discriminate].
  - cbn [map] in *. rewrite joinStrings_cons by discriminate.
    rewrite append_nil_l, IH. reflexivity.
Qed.

(** Joining the pieces of a string with the separator it was split on
    gives the string back. *)
Lemma joinStrings_split (sep s : string) :
  joinStrings sep (split sep s) = s.
Proof.
  unfold split. destruct sep as [|c sep'] eqn:E.
  - apply joinStrings_chars.
  - rewrite joinStrings_split_go by discriminate. reflexivity.
Qed.

Lemma trimmed_pieces_kept (ps : list string) :
  Forall (fun piece => piece <> "" /\ trim piece = piece) ps ->
  filter (fun value => (0 <? String.length value)%nat) (map trim ps) = ps.
Proof.
  induction 1 as [|p ps [Hne Htrim] _ IH]; [reflexivity|].
  cbn [map]. rewrite Htrim.
  rewrite filter_cons.
  destruct (decide _) as [_|Hn].
  - now rewrite IH.
  - exfalso. apply Hn. destruct p; [contradiction | reflexivity].
Qed.

Lemma join_strings (sep : string) (ps : list string) :
  join sep (map VStr ps) = joinStrings sep ps.
Proof.
  unfold join. f_equal. induction ps; simpl; congruence.
Qed.

(** *** to-array followed by to-string *)

Section RoundTrip.
Variable args : Args.
Variable f : string.

Lemma toArrayField_array_plain (a : list value) (s : Locals) :
  sortArrays args = false -> uniqueValues args = false ->
  obj_get (data s) f = Some (VArr a) ->
  toArrayField args f s = (tt, s).
Proof.
  intros Hs Hu Hget. unfold toArrayField. run_step.
  now rewrite Hget, Hs, Hu.
Qed.

Lemma toArrayField_string_plain (str : string) (s : Locals) :
  sortArrays args = false -> uniqueValues args = false ->
  obj_get (data s) f = Some (VStr str) -> str <> "" ->
  obj_get (data (snd (toArrayField args f s))) f =
    Some (VArr (map VStr
      (filter (fun value => (0 <? String.length value)%nat)
              (map trim (split (delimiter args) str))))).
Proof.
  intros Hs Hu Hget Hne. unfold toArrayField. run_step.
  rewrite Hget, Hs, Hu. simpl.
  apply String.eqb_neq in Hne. rewrite Hne. simpl.
  apply obj_get_set_eq.
Qed.

Lemma toArray_loop_array_stable (a : list value) (l : list string) :
  sortArrays args = false -> uniqueValues args = false ->
  forall s,
    obj_get (data s) f = Some (VArr a) ->
    obj_get (data (snd (mforEach (toArrayField args) l s))) f = Some (VArr a).
Proof.
  intros Hs Hu. induction l as [|g l IH]; intros s Hget; [exact Hget|].
  rewrite mforEach_cons. apply IH.
  destruct (String.eqb_spec g f) as [->|Hne].
  - now rewrite (toArrayField_array_plain a).
  - destruct (toArrayField_touchesOnly args g s) as [Hother _].
    now rewrite Hother.
Qed.

Lemma toArray_loop_converts (str : string) (l : list string) :
  sortArrays args = false -> uniqueValues args = false ->
  str <> "" ->
  forall s,
    In f l ->
    obj_get (data s) f = Some (VStr str) ->
    obj_get (data (snd (mforEach (toArrayField args) l s))) f =
      Some (VArr (map VStr
        (filter (fun value => (0 <? String.length value)%nat)
                (map trim (split (delimiter args) str))))).
Proof.
  intros Hs Hu Hne. induction l as [|g l IH]; intros s Hin Hget; [destruct Hin|].
  rewrite mforEach_cons.
  destruct (String.eqb_spec g f) as [->|Hgf].
  - apply toArray_loop_array_stable; try assumption.
    now apply toArrayField_string_plain.
  - destruct Hin as [Heq|Hin]; [contradiction|].
    apply IH; [exact Hin|].
    destruct (toArrayField_touchesOnly args g s) as [Hother _].
    now rewrite Hother.
Qed.

Lemma toStringField_string (str : string) (s : Locals) :
  obj_get (data s) f = Some (VStr str) ->
  toStringField args f s = (tt, s).
Proof.
  intros Hget. unfold toStringField. run_step. rewrite Hget. simpl.
  now rewrite andb_false_r.
Qed.

Lemma toStringField_array (a : list value) (s : Locals) :
  obj_get (data s) f = Some (VArr a) ->
  obj_get (data (snd (toStringField args f s))) f =
    Some (VStr (join (delimiter args) a)).
Proof.
  intros Hget. unfold toStringField. run_step. rewrite Hget. simpl.
  apply obj_get_set_eq.
Qed.

Lemma toString_loop_string_stable (str : string) (l : list string) :
  forall s,
    obj_get (data s) f = Some (VStr str) ->
    obj_get (data (snd (mforEach (toStringField args) l s))) f = Some (VStr str).
Proof.
  induction l as [|g l IH]; intros s Hget; [exact Hget|].
  rewrite mforEach_cons. apply IH.
  destruct (String.eqb_spec g f) as [->|Hne].
  - now rewrite (toStringField_string str).
  - destruct (toStringField_touchesOnly args g s) as [Hother _].
    now rewrite Hother.
Qed.

Lemma toString_loop_converts (a : list value) (l : list string) :
  forall s,
    In f l ->
    obj_get (data s) f = Some (VArr a) ->
    obj_get (data (snd (mforEach (toStringField args) l s))) f =
      Some (VStr (join (delimiter args) a)).
Proof.
  induction l as [|g l IH]; intros s Hin Hget; [destruct Hin|].
  rewrite mforEach_cons.
  destruct (String.eqb_spec g f) as [->|Hgf].
  - apply toString_loop_string_stable. now apply toStringField_array.
  - destruct Hin as [Heq|Hin]; [contradiction|].
    apply IH; [exact Hin|].
    destruct (toStringField_touchesOnly args g s) as [Hother _].
    now rewrite Hother.
Qed.

(** Without field operations the transform is the conversion loop. *)
Lemma transform_conversion_only (base : string) (s : Locals) :
  mode args <> "analyze" -> mode args <> "validate" ->
  addField args = None -> removeField args = None -> renameField args = None ->
  snd (transform args base s) = snd (conversionPhase args s).
Proof.
  intros Ha Hv Hadd Hrem Hren. unfold transform, mbind.
  rewrite modeSwitch_converts by assumption.
  unfold fieldOperations, addFieldStep, removeFieldStep, renameFieldStep, mbind, mret.
  now rewrite Hadd, Hrem, Hren.
Qed.

End RoundTrip.

(** C7, as stated, fails.  The field [tags: "a, b"] has no empty piece and
    its entries [a] and [b] do not contain the delimiter, yet to-array
    followed by to-string with the same delimiter gives ["a,b"]: to-array
    trims every piece, and the blank after the comma is lost. *)
Lemma round_trip_loses_blanks :
  let d := [("tags", VStr "a, b")] in
  let d1 := data (snd (transform Ex.argsToArrayTags "post.md" (start d))) in
  let d2 := data (snd (transform Ex.argsToStringTags "post.md" (start d1))) in
  Forall (fun piece => piece <> "") (split "," "a, b") /\
  obj_get d1 "tags" = Some (VArr [VStr "a"; VStr "b"]) /\
  includes "," "a" = false /\ includes "," "b" = false /\
  obj_get d2 "tags" = Some (VStr "a,b") /\
  obj_get d2 "tags" <> obj_get d "tags".
Proof.
  simpl. repeat split; try reflexivity; try discriminate.
  repeat constructor; discriminate.
Qed.

(** C7, amended.  Let a string field be such that every piece between
    occurrences of the delimiter is non-empty and has no white space at
    either end.  Then to-array (sortArrays and uniqueValues unset) followed
    by to-string with the same delimiter, neither run with field
    operations, leaves the field with its original string value. *)
Theorem delimiter_round_trip
    (toArr toStr : Args) (base f str : string) (d : object) :
  mode toArr = "to-array" -> mode toStr = "to-string" ->
  delimiter toStr = delimiter toArr ->
  sortArrays toArr = false -> uniqueValues toArr = false ->
  addField toArr = None -> removeField toArr = None -> renameField toArr = None ->
  addField toStr = None -> removeField toStr = None -> renameField toStr = None ->
  In f (fields toArr) -> In f (fields toStr) ->
  obj_get d f = Some (VStr str) ->
  Forall (fun piece => piece <> "" /\ trim piece = piece)
         (split (delimiter toArr) str) ->
  let d1 := data (snd (transform toArr base (start d))) in
  let d2 := data (snd (transform toStr base (start d1))) in
  obj_get d2 f = Some (VStr str).
Proof.
  intros Hm1 Hm2 Hdel Hs Hu Ha1 Hr1 Hn1 Ha2 Hr2 Hn2 Hin1 Hin2 Hget Hpieces d1 d2.
  assert (E1 : snd (transform toArr base (start d)) =
               snd (mforEach (toArrayField toArr) (fields toArr) (start d))).
  { rewrite transform_conversion_only; try assumption;
      try (rewrite Hm1; discriminate).
    unfold conversionPhase. now rewrite Hm1. }
  assert (E2 : snd (transform toStr base (start d1)) =
               snd (mforEach (toStringField toStr) (fields toStr) (start d1))).
  { rewrite transform_conversion_only; try assumption;
      try (rewrite Hm2; discriminate).
    unfold conversionPhase. now rewrite Hm2. }
  subst d2. rewrite E2.
  destruct (String.eqb_spec str "") as [->|Hne].
  - apply toString_loop_string_stable. subst d1. rewrite E1. simpl.
    apply (toArray_loop_empty_string toArr f (fields toArr) (start d)).
    + exact Hget.
    + constructor.
  - assert (H1 : obj_get d1 f =
                 Some (VArr (map VStr (split (delimiter toArr) str)))).
    { subst d1. rewrite E1.
      rewrite (toArray_loop_converts toArr f str); try assumption.
      now rewrite trimmed_pieces_kept. }
    rewrite (toString_loop_converts toStr f
               (map VStr (split (delimiter toArr) str))); try assumption.
    now rewrite Hdel, join_strings, joinStrings_split.
Qed.

Lemma delimiter_round_trip_witness :
  let d := [("tags", VStr "go,rust")] in
  let d1 := data (snd (transform Ex.argsToArrayTags "post.md" (start d))) in
  let d2 := data (snd (transform Ex.argsToStringTags "post.md" (start d1))) in
  obj_get d1 "tags" = Some (VArr [VStr "go"; VStr "rust"]) /\
  obj_get d2 "tags" = Some (VStr "go,rust").
Proof.
  split; [reflexivity|].
  apply (delimiter_round_trip Ex.argsToArrayTags Ex.argsToStringTags
           "post.md" "tags" "go,rust" [("tags", VStr "go,rust")]);
    try reflexivity.
  - simpl. now left.
  - simpl. now left.
  - vm_compute. repeat constructor; discriminate.
Defined.

(** *** The copier: pairing a target with a source *)

(** C2, as stated, fails.  The source directory holds [guides/intro.md] and
    [intro.md]; [collectSourceFiles] lists them in this order.  For the
    target [intro.md] a source with the identical relative path exists, but
    the source matched is [guides/intro.md], which only shares the
    basename. *)
Lemma copier_matches_basename_before_path :
  exists sourceFiles,
    fst (collectSourceFiles defaults ["src"] Ex.sourceTree Ex.noFiles) =
      Ok sourceFiles /\
    In (mkSourceFile ["src"; "intro.md"] "intro.md" ["intro.md"]) sourceFiles /\
    findMatchingSourceFile sourceFiles "intro.md" ["intro.md"] =
      Some (mkSourceFile ["src"; "guides"; "intro.md"] "intro.md"
                         ["guides"; "intro.md"]).
Proof.
  eexists. split; [vm_compute; reflexivity|].
  split; [simpl; tauto | reflexivity].
Qed.

(** C2, amended.  The source file matched to a target is the first source
    file, in the order of enumeration, whose basename is the target's
    basename or whose relative path is the target's relative path; when no
    source file has either, no source is matched. *)
Theorem copier_takes_first_match
    (sourceFiles : list SourceFile) (item : string) (rel : Path) :
  match findMatchingSourceFile sourceFiles item rel with
  | Some m =>
      exists before after,
        sourceFiles = (before ++ m :: after)%list /\
        (sfName m = item \/ sfRelativePath m = rel) /\
        Forall (fun sf => sfName sf <> item /\ sfRelativePath sf <> rel) before
  | None =>
      Forall (fun sf => sfName sf <> item /\ sfRelativePath sf <> rel) sourceFiles
  end.
Proof.
  unfold findMatchingSourceFile.
  induction sourceFiles as [|sf l IH]; simpl; [constructor|].
  destruct (String.eqb_spec (sfName sf) item) as [Hn|Hn]; simpl.
  - exists [], l. repeat split; [now left | constructor].
  - destruct (bool_decide_reflect (sfRelativePath sf = rel)) as [Hr|Hr].
    + exists [], l. repeat split; [now right | constructor].
    + destruct (find _ l) as [m|].
      * destruct IH as [before [after [-> [Hm Hall]]]].
        exists (sf :: before), after. repeat split; [exact Hm|].
        constructor; [now split | exact Hall].
      * constructor; [now split | exact IH].
Qed.

(** *** The editor: coercion of the value to set *)

(** C9.  The value given to the set command is coerced before it is stored
    in the field: [true] and [false] become booleans; a text starting with
    a bracket or a brace that parses as JSON becomes the parsed value; a
    numeric text that is not blank becomes the number; every other text is
    stored as it is.  So the text [42] is stored as the number it denotes,
    not as a string.  The coerced value is what [setField] stores: on a
    file, and on every file of a directory, the command is [updateFile]
    with the update that sets the field to the coerced value, and a file
    that is read, parsed and written holds afterwards the rendering of its
    metadata with the field set to the coerced value. *)
Theorem set_value_is_coerced
    (gm : Codec) (JSON_parse : string -> Res JS.value)
    (toNumber : string -> option number) :
  let parse := FrontmatterEditor.parseValue JSON_parse toNumber in
  parse "true" = VBool true /\
  parse "false" = VBool false /\
  (forall v parsed,
     startsWith "[" v = true \/ startsWith "{" v = true ->
     JSON_parse v = Ok parsed -> parse v = parsed) /\
  (forall v e,
     startsWith "[" v = true \/ startsWith "{" v = true ->
     JSON_parse v = Throw e -> parse v = VStr v) /\
  (forall v n,
     startsWith "[" v = false -> startsWith "{" v = false ->
     v <> "true" -> v <> "false" ->
     toNumber v = Some n -> trim v <> "" -> parse v = VNumber n) /\
  (forall v,
     startsWith "[" v = false -> startsWith "{" v = false ->
     v <> "true" -> v <> "false" ->
     toNumber v = None \/ trim v = "" -> parse v = VStr v) /\
  (forall n, toNumber "42" = Some n ->
     parse "42" = VNumber n /\ parse "42" <> VStr "42") /\
  (forall v name data,
     obj_get (fst (FrontmatterEditor.setUpdate name (parse v) data)) name = Some (parse v)) /\
  (forall args items v name w,
     FrontmatterEditor.value args = Some v ->
     FrontmatterEditor.field args = Some name -> name <> "" ->
     (forall f,
        FrontmatterEditor.file args = Some f ->
        FrontmatterEditor.setField gm JSON_parse toNumber args items w =
          (FrontmatterEditor.updateFile gm args f
             (FrontmatterEditor.setUpdate name (parse v)) ;;;
           ret FrontmatterEditor.Returned)%io w) /\
     (forall dir,
        FrontmatterEditor.file args = None ->
        FrontmatterEditor.directory args = Some dir ->
        FrontmatterEditor.setField gm JSON_parse toNumber args items w =
          (FrontmatterEditor.processDirectory args dir items
             (fun filePath =>
                FrontmatterEditor.updateFile gm args filePath
                  (FrontmatterEditor.setUpdate name (parse v))) ;;;
           ret FrontmatterEditor.Returned)%io w)) /\
  (forall args items v name f w fl d body text,
     FrontmatterEditor.value args = Some v ->
     FrontmatterEditor.field args = Some name -> name <> "" ->
     FrontmatterEditor.file args = Some f ->
     FrontmatterEditor.dryRun args = false ->
     files w !! f = Some fl -> readable fl = true -> writable fl = true ->
     matter gm (content fl) = Ok (d, body) ->
     stringify gm body (obj_set d name (parse v))
       (FrontmatterEditor.language args) = Ok text ->
     FrontmatterEditor.setField gm JSON_parse toNumber args items w =
       (Ok FrontmatterEditor.Returned,
        mkWorld (<[f := mkFile text true true]> (files w))
          (console w ++
           [FrontmatterEditor.LUpdated false f
              (FrontmatterEditor.MSet name (parse v) (obj_get d name))]))).
Proof.
  intros parse.
  assert (Hcommand : forall args items v name w,
    FrontmatterEditor.value args = Some v ->
    FrontmatterEditor.field args = Some name -> name <> "" ->
    (forall f,
       FrontmatterEditor.file args = Some f ->
       FrontmatterEditor.setField gm JSON_parse toNumber args items w =
         (FrontmatterEditor.updateFile gm args f
            (FrontmatterEditor.setUpdate name (parse v)) ;;;
          ret FrontmatterEditor.Returned)%io w) /\
    (forall dir,
       FrontmatterEditor.file args = None ->
       FrontmatterEditor.directory args = Some dir ->
       FrontmatterEditor.setField gm JSON_parse toNumber args items w =
         (FrontmatterEditor.processDirectory args dir items
            (fun filePath =>
               FrontmatterEditor.updateFile gm args filePath
                 (FrontmatterEditor.setUpdate name (parse v))) ;;;
          ret FrontmatterEditor.Returned)%io w)).
  { intros args items v name w Hv Hname Hne.
    apply String.eqb_neq in Hne.
    split.
    - intros f Hf. unfold FrontmatterEditor.setField.
      rewrite Hf, Hv, Hname. unfold given. rewrite Hne. simpl.
      now destruct (FrontmatterEditor.directory args).
    - intros dir Hf Hd. unfold FrontmatterEditor.setField.
      rewrite Hf, Hd, Hv, Hname. unfold given. rewrite Hne. reflexivity. }
  unfold parse in *. clear parse.
  split; [reflexivity|]. split; [reflexivity|].
  split; [|split; [|split; [|split; [|split; [|split; [|split]]]]]].
  - intros v parsed Hs Hj. unfold FrontmatterEditor.parseValue.
    assert (E : startsWith "[" v || startsWith "{" v = true)
      by (destruct Hs as [->| ->]; [reflexivity | apply orb_true_r]).
    now rewrite E, Hj.
  - intros v e Hs Hj. unfold FrontmatterEditor.parseValue.
    assert (E : startsWith "[" v || startsWith "{" v = true)
      by (destruct Hs as [->| ->]; [reflexivity | apply orb_true_r]).
    now rewrite E, Hj.
  - intros v n H1 H2 Ht Hf Hn Hb. unfold FrontmatterEditor.parseValue.
    rewrite H1, H2. simpl.
    apply String.eqb_neq in Ht, Hf, Hb. now rewrite Ht, Hf, Hn, Hb.
  - intros v H1 H2 Ht Hf Hn. unfold FrontmatterEditor.parseValue.
    rewrite H1, H2. simpl.
    apply String.eqb_neq in Ht, Hf. rewrite Ht, Hf. simpl.
    destruct Hn as [-> | Hb]; [reflexivity|].
    destruct (toNumber v); [|reflexivity].
    now rewrite Hb.
  - intros n Hn. unfold FrontmatterEditor.parseValue. simpl. rewrite Hn.
    split; [reflexivity|]. now destruct n.
  - intros v name data. simpl. apply obj_get_set_eq.
  - exact Hcommand.
  - intros args items v name f w fl d body text
      Hv Hname Hne Hf Hdry Hfile Hread Hwrite Hparse Hstr.
    destruct (Hcommand args items v name w Hv Hname Hne) as [Hfilemode _].
    rewrite (Hfilemode f Hf).
    unfold FrontmatterEditor.updateFile, FrontmatterEditor.updateFile_body,
      FrontmatterEditor.setUpdate.
    unfold tryCatch, bind, ret, lift, log, readFileSync, writeFileSync.
    rewrite Hfile, Hread, Hparse. simpl.
    rewrite Hdry, Hstr, Hfile, Hwrite. simpl. now rewrite Hread.
Qed.

(** With [--value 42] the field holds an integer in the file written;
    [[draft] is no JSON and [published] no number, so they stay strings. *)
Lemma set_value_is_coerced_witness :
  let args := FrontmatterEditor.mkArgs (Some "set") (Some ["post.md"]) None
                (Some "count") (Some "42") "yaml" false false false
                ".md,.markdown" None in
  let w := mkWorld {[ ["post.md"] := mkFile "text" true true ]} [] in
  FrontmatterEditor.parseValue Ex.rejectJSON Ex.decimalNumber "42" = VNum 42 /\
  FrontmatterEditor.parseValue Ex.rejectJSON Ex.decimalNumber "[draft" = VStr "[draft" /\
  FrontmatterEditor.parseValue Ex.rejectJSON Ex.decimalNumber "published" = VStr "published" /\
  files (snd (FrontmatterEditor.setField Ex.kindCodec Ex.rejectJSON
                Ex.decimalNumber args None w)) !! ["post.md"] =
    Some (mkFile "count is an integer" true true).
Proof.
  intros args w.
  destruct (set_value_is_coerced Ex.kindCodec Ex.rejectJSON Ex.decimalNumber)
    as (_ & _ & _ & Hbad & _ & Hother & H42 & _ & _ & Hdisk).
  split; [apply (H42 (Integer 42)); reflexivity|].
  split; [apply (Hbad "[draft" (EParse "[draft")); [now left | reflexivity]|].
  split; [apply Hother; try reflexivity; try discriminate; now left|].
  rewrite (Hdisk args None "42" "count" ["post.md"] w
             (mkFile "text" true true) [] "text" "count is an integer"
             eq_refl eq_refl ltac:(discriminate) eq_refl eq_refl eq_refl
             eq_refl eq_refl eq_refl eq_refl).
  simpl. apply lookup_insert_eq.
Defined.

(** *** Dry run *)

Section PreservesFiles.
Context {L : Type}.

Lemma pf_ret {A} (a : A) : preservesFiles (@ret L A a).
Proof. intros w. reflexivity. Qed.

Lemma pf_throw {A} (e : Error) : preservesFiles (@throw L A e).
Proof. intros w. reflexivity. Qed.

Lemma pf_lift {A} (r : Res A) : preservesFiles (@lift L A r).
Proof. intros w. reflexivity. Qed.

Lemma pf_log (l : L) : preservesFiles (log l).
Proof. intros w. reflexivity. Qed.

Lemma pf_logAll (ls : list L) : preservesFiles (logAll ls).
Proof. intros w. reflexivity. Qed.

Lemma pf_readFileSync (p : Path) : preservesFiles (@readFileSync L p).
Proof.
  intros w. unfold readFileSync.
  destruct (files w !! p) as [f|]; [destruct (readable f)|]; reflexivity.
Qed.

Lemma pf_bind {A B} (m : IO L A) (k : A -> IO L B) :
  preservesFiles m -> (forall a, preservesFiles (k a)) ->
  preservesFiles (bind m k).
Proof.
  intros Hm Hk w. unfold bind. specialize (Hm w).
  destruct (m w) as [[a|e] w']; simpl in *.
  - now rewrite Hk.
  - exact Hm.
Qed.

Lemma pf_tryCatch {A} (body : IO L A) (handler : Error -> IO L A) :
  preservesFiles body -> (forall e, preservesFiles (handler e)) ->
  preservesFiles (tryCatch body handler).
Proof.
  intros Hb Hh w. unfold tryCatch. specialize (Hb w).
  destruct (body w) as [[a|e] w']; simpl in *.
  - exact Hb.
  - now rewrite Hh.
Qed.

End PreservesFiles.

Ltac preserves :=
  repeat first
    [ apply pf_ret | apply pf_throw | apply pf_lift | apply pf_log
    | apply pf_logAll | apply pf_readFileSync
    | apply pf_bind; [|intros ?]
    | apply pf_tryCatch; [|intros ?]
    | match goal with
      | |- preservesFiles (if ?b then _ else _) => destruct b
      | |- preservesFiles (match ?x with _ => _ end) => destruct x
      end ].

(** The dry-run flag plays no part in the transform. *)
Lemma transform_setDryRun (b : bool) (args : Args) (base : string) (s : Locals) :
  transform (setDryRun b args) base s = transform args base s.
Proof. reflexivity. Qed.

(** A dry run of [processMarkdownFile] writes no file. *)
Lemma processMarkdownFile_dry (gm : Codec) (args : Args) (p : Path) :
  preservesFiles (processMarkdownFile gm (setDryRun true args) p).
Proof.
  unfold processMarkdownFile, processMarkdownFile_body.
  cbn [dryRun setDryRun]. preserves.
Qed.

(** In validate mode [processMarkdownFile] writes no file. *)
Lemma validate_writes_nothing (gm : Codec) (args : Args) (p : Path) :
  mode args = "validate" ->
  preservesFiles (processMarkdownFile gm args p).
Proof.
  intros Hm w. unfold processMarkdownFile, processMarkdownFile_body.
  unfold tryCatch, bind, ret, lift, log, logAll, readFileSync.
  destruct (match pattern args with
            | Some test => negb (test (basename p))
            | None => false
            end); [destruct (verbose args); reflexivity|].
  destruct (files w !! p) as [f|]; [|reflexivity].
  destruct (readable f); [|reflexivity].
  destruct (matter gm (content f)) as [parsed|e]; [|reflexivity].
  destruct (validate_returns args (basename p) (start (fst parsed)) Hm)
    as [lines ->].
  reflexivity.
Qed.

(** A dry run of the copier on one target writes no file. *)
Lemma copyToTarget_dry (gm : Codec) (args : Args) (sourceFiles : list SourceFile)
    (ff : option (list string)) (itemPath : Path) (item : string) (rel : Path)
    (counts : nat * nat) :
  preservesFiles
    (copyToTarget gm (setDryRun true args) sourceFiles ff itemPath item rel counts).
Proof.
  unfold copyToTarget. cbn [dryRun setDryRun]. preserves.
Qed.

(** A dry run of the editor's [updateFile] writes no file. *)
Lemma updateFile_dry (gm : Codec) (args : FrontmatterEditor.Args) (p : Path)
    (updateFn : object -> object * FrontmatterEditor.Result) :
  preservesFiles
    (FrontmatterEditor.updateFile gm (FrontmatterEditor.setDryRun true args) p updateFn).
Proof.
  unfold FrontmatterEditor.updateFile, FrontmatterEditor.updateFile_body.
  cbn [FrontmatterEditor.dryRun FrontmatterEditor.setDryRun]. preserves.
Qed.




Ltac case_io :=
  match goal with
  | H : context [match ?x with _ => _ end] |- _ => destruct x eqn:?
  | |- context [match ?x with _ => _ end] => destruct x eqn:?
  | H : context [if ?x then _ else _] |- _ => destruct x eqn:?
  | |- context [if ?x then _ else _] => destruct x eqn:?
  end; simplify_eq; simpl in *.

Ltac unfold_io :=
  unfold tryCatch, bind, ret, lift, throw, log, logAll, readFileSync,
    writeFileSync.







(** *** Failures in one file *)

(** Induction on a listing, with the items of a subdirectory as smaller
    listings. *)
Lemma Entry_nested_ind (P : Entry -> Prop) :
  (forall name, P (EFile name)) ->
  (forall name, P (EDir name None)) ->
  (forall name l, Forall P l -> P (EDir name (Some l))) ->
  (forall name, P (EOther name)) ->
  (forall name, P (ENoStat name)) ->
  forall item, P item.
Proof.
  intros HF HD0 HD HO HN. fix IH 1. intros [name|name [l|]|name|name].
  - apply HF.
  - apply HD. induction l as [|x l IHl]; constructor; [apply IH | exact IHl].
  - apply HD0.
  - apply HO.
  - apply HN.
Qed.

Section Walk.
Context {L : Type}.
Variable visit : Path -> IO L unit.
Hypothesis visit_returns : forall p w, fst (visit p w) = Ok tt.

Lemma runStep_returns (s : Step L) (w : World L) :
  runStep visit s w = (Ok tt, snd (runStep visit s w)).
Proof.
  destruct s as [p|l]; simpl; [|reflexivity].
  specialize (visit_returns p w). destruct (visit p w) as [r w']. simpl in *.
  now subst r.
Qed.

Lemma runPlan_cons (s : Step L) (plan : list (Step L)) (w : World L) :
  runPlan visit (s :: plan) w = runPlan visit plan (snd (runStep visit s w)).
Proof.
  unfold runPlan. simpl. unfold bind. now rewrite runStep_returns.
Qed.

Lemma runPlan_returns (plan : list (Step L)) :
  forall w, runPlan visit plan w = (Ok tt, snd (runPlan visit plan w)).
Proof.
  induction plan as [|s plan IH]; intros w; [reflexivity|].
  rewrite runPlan_cons. apply IH.
Qed.

Lemma runPlan_app (a b : list (Step L)) :
  forall w, runPlan visit (a ++ b) w = runPlan visit b (snd (runPlan visit a w)).
Proof.
  induction a as [|s a IH]; intros w; [reflexivity|].
  rewrite <- app_comm_cons, !runPlan_cons. apply IH.
Qed.

Lemma runPlan_one (s : Step L) (w : World L) :
  runPlan visit [s] w = runStep visit s w.
Proof. rewrite runPlan_cons. simpl. now rewrite runStep_returns. Qed.

Lemma loop_follows (f : Entry -> IO L unit)
    (planOne : Entry -> list (Step L) * option Error) (l : list Entry) :
  Forall (fun item => follows visit (f item) (planOne item)) l ->
  follows visit (forEach f l) (planLoop planOne l).
Proof.
  induction 1 as [|item l Hitem _ IH]; intros w; [reflexivity|].
  simpl. unfold bind. rewrite (Hitem w).
  destruct (planOne item) as [steps [e|]]; simpl; [reflexivity|].
  rewrite runPlan_returns. rewrite (IH _).
  destruct (planLoop planOne l) as [more [e|]]; simpl;
    now rewrite runPlan_app.
Qed.

Lemma listing_follows (dirError : Path -> Error -> L) (dirPath : Path)
    (f : Entry -> IO L unit)
    (planOne : Entry -> list (Step L) * option Error)
    (items : option (list Entry)) :
  (forall l, items = Some l ->
     Forall (fun item => follows visit (f item) (planOne item)) l) ->
  forall w,
    tryCatch
      (match items with
       | Some l => forEach f l
       | None => throw (EAccess dirPath)
       end)
      (fun error => log (dirError dirPath error)) w =
    runPlan visit (planListing dirError dirPath planOne items) w.
Proof.
  intros Hitems w. destruct items as [l|]; [|reflexivity].
  unfold tryCatch, planListing.
  rewrite (loop_follows f planOne l (Hitems l eq_refl) w).
  destruct (planLoop planOne l) as [steps [e|]]; simpl.
  - rewrite runPlan_app, runPlan_one. reflexivity.
  - rewrite app_nil_r. now rewrite runPlan_returns.
Qed.

End Walk.

(** [processMarkdownFile] returns normally whatever happens in its body. *)
Lemma processMarkdownFile_returns (gm : Codec) (args : Args) (p : Path)
    (w : World Line) :
  fst (processMarkdownFile gm args p w) = Ok tt.
Proof.
  unfold processMarkdownFile, tryCatch.
  destruct (processMarkdownFile_body gm args p w) as [[[]|e] w']; reflexivity.
Qed.

(** An exception in the body of [processMarkdownFile] is thrown before
    anything is written or printed: the catch adds the error line to the
    console and the files are as they were. *)
Lemma processMarkdownFile_failure (gm : Codec) (args : Args) (p : Path)
    (w : World Line) (e : Error) :
  fst (processMarkdownFile_body gm args p w) = Throw e ->
  snd (processMarkdownFile gm args p w) =
    mkWorld (files w) (console w ++ [LErrorProcessing p e]).
Proof.
  unfold processMarkdownFile, processMarkdownFile_body.
  unfold_io. intros H.
  repeat case_io; reflexivity.
Qed.

Lemma processItem_follows (gm : Codec) (args : Args) (item : Entry) :
  forall dirPath,
    follows (processMarkdownFile gm args)
            (processItem gm args dirPath item) (planItem args dirPath item).
Proof.
  induction item as [name|name|name l IH|name|name] using Entry_nested_ind;
    intros dirPath w; cbn [processItem planItem].
  - destruct (hasExtension args name); cbn [fst snd]; [|reflexivity].
    rewrite runPlan_one by apply processMarkdownFile_returns. reflexivity.
  - destruct (recursive args); reflexivity.
  - destruct (recursive args); cbn [fst snd]; [|reflexivity].
    apply (listing_follows (processMarkdownFile gm args)
             (processMarkdownFile_returns gm args) LErrorDirectory
             (path_join dirPath name)
             (processItem gm args (path_join dirPath name))
             (planItem args (path_join dirPath name)) (Some l)).
    intros l' [= <-]. eapply Forall_impl; [exact IH|].
    intros item Hitem. apply Hitem.
  - reflexivity.
  - reflexivity.
Qed.

(** [processDirectory] carries out its plan. *)
Lemma processDirectory_follows_plan (gm : Codec) (args : Args) (dirPath : Path)
    (items : option (list Entry)) (w : World Line) :
  processDirectory gm args dirPath items w =
    runPlan (processMarkdownFile gm args) (planDirectory args dirPath items) w.
Proof.
  unfold processDirectory, planDirectory.
  rewrite <- (listing_follows (processMarkdownFile gm args)
                (processMarkdownFile_returns gm args) LErrorDirectory dirPath
                (processItem gm args dirPath) (planItem args dirPath) items).
  - destruct items; reflexivity.
  - intros l _. apply Forall_forall. intros item _.
    apply processItem_follows.
Qed.

Lemma updateFile_returns (gm : Codec) (args : FrontmatterEditor.Args)
    (updateFn : object -> object * FrontmatterEditor.Result)
    (p : Path) (w : World FrontmatterEditor.Line) :
  fst (FrontmatterEditor.updateFile gm args p updateFn w) = Ok tt.
Proof.
  unfold FrontmatterEditor.updateFile, tryCatch.
  destruct (FrontmatterEditor.updateFile_body gm args p updateFn w)
    as [[[]|e] w']; reflexivity.
Qed.

Lemma updateFile_failure (gm : Codec) (args : FrontmatterEditor.Args)
    (updateFn : object -> object * FrontmatterEditor.Result)
    (p : Path) (w : World FrontmatterEditor.Line) (e : Error) :
  fst (FrontmatterEditor.updateFile_body gm args p updateFn w) = Throw e ->
  snd (FrontmatterEditor.updateFile gm args p updateFn w) =
    mkWorld (files w) (console w ++ [FrontmatterEditor.LErrorFile p e]).
Proof.
  unfold FrontmatterEditor.updateFile, FrontmatterEditor.updateFile_body.
  unfold_io. intros H.
  repeat case_io; reflexivity.
Qed.

Lemma editor_processItem_follows (args : FrontmatterEditor.Args)
    (processFn : Path -> IO FrontmatterEditor.Line unit) (item : Entry) :
  (forall p w, fst (processFn p w) = Ok tt) ->
  forall dirPath,
    follows processFn
            (FrontmatterEditor.processItem args processFn dirPath item)
            (FrontmatterEditor.planItem args dirPath item).
Proof.
  intros Hfn.
  induction item as [name|name|name l IH|name|name] using Entry_nested_ind;
    intros dirPath w;
    cbn [FrontmatterEditor.processItem FrontmatterEditor.planItem].
  - destruct (FrontmatterEditor.hasExtension args name); cbn [fst snd];
      [|reflexivity].
    destruct (match FrontmatterEditor.pattern args with
              | Some test => negb (test name)
              | None => false
              end); cbn [fst snd].
    + destruct (FrontmatterEditor.verbose args); reflexivity.
    + rewrite runPlan_one by exact Hfn. reflexivity.
  - destruct (FrontmatterEditor.recursive args); reflexivity.
  - destruct (FrontmatterEditor.recursive args); cbn [fst snd]; [|reflexivity].
    apply (listing_follows processFn Hfn FrontmatterEditor.LErrorDirectory
             (path_join dirPath name)
             (FrontmatterEditor.processItem args processFn (path_join dirPath name))
             (FrontmatterEditor.planItem args (path_join dirPath name)) (Some l)).
    intros l' [= <-]. eapply Forall_impl; [exact IH|].
    intros item Hitem. apply Hitem.
  - reflexivity.
  - reflexivity.
Qed.

Lemma editor_processDirectory_follows_plan (args : FrontmatterEditor.Args)
    (processFn : Path -> IO FrontmatterEditor.Line unit)
    (dirPath : Path) (items : option (list Entry))
    (w : World FrontmatterEditor.Line) :
  (forall p w, fst (processFn p w) = Ok tt) ->
  FrontmatterEditor.processDirectory args dirPath items processFn w =
    runPlan processFn (FrontmatterEditor.planDirectory args dirPath items) w.
Proof.
  intros Hfn.
  unfold FrontmatterEditor.processDirectory, FrontmatterEditor.planDirectory.
  apply (listing_follows processFn Hfn).
  intros l _. apply Forall_forall. intros item _.
  now apply editor_processItem_follows.
Qed.

(** C5, as stated, fails for the copier.  Source and target directories
    both list [a.md] and [b.md]; the target [a.md] cannot be read.  The
    copy run ends at that file with the run-level error line: the target
    [b.md], which has a matching source and would be updated if it were
    processed, is never reached. *)
Lemma copier_stops_at_first_failure :
  let run :=
    copyFrontmatter Ex.titleCodec defaults ["src"] Ex.twoPosts ["dst"]
      Ex.twoPosts None Ex.copyWorld in
  let alone :=
    copyToTarget Ex.titleCodec defaults Ex.copySources None
      ["dst"; "b.md"] "b.md" ["b.md"] (0, 0)%nat Ex.copyWorld in
  console (snd run) =
    [LCopying false; LFound 2; LErrorCopying (EAccess ["dst"; "a.md"])] /\
  files (snd run) !! ["dst"; "b.md"] = Some (mkFile "target b" true true) /\
  fst alone = Ok (1, 1)%nat /\
  files (snd alone) !! ["dst"; "b.md"] = Some (mkFile "rendered" true true).
Proof. vm_compute. repeat split; reflexivity. Qed.

(** C5, amended.  In a batch run of the transform pipeline
    ([processDirectory] with [processMarkdownFile]) and of the editor
    ([processDirectory] with [updateFile]), the run returns normally and
    does what its plan says: the per-file function is called, in order, on
    the files read off the directory listing.  When reading, parsing,
    serialising or writing fails for a file of the plan, the exception is
    caught at that file: the error line is printed, no file is changed,
    and the rest of the plan is carried out from there. *)
Theorem file_failures_are_isolated (gm : Codec) :
  (forall (args : Args) (dirPath : Path) (items : option (list Entry))
          (w : World Line),
     fst (processDirectory gm args dirPath items w) = Ok tt /\
     processDirectory gm args dirPath items w =
       runPlan (processMarkdownFile gm args) (planDirectory args dirPath items) w)
  /\
  (forall (args : Args) (before after : list (Step Line)) (p : Path)
          (w : World Line) (e : Error),
     let w1 := snd (runPlan (processMarkdownFile gm args) before w) in
     fst (processMarkdownFile_body gm args p w1) = Throw e ->
     runPlan (processMarkdownFile gm args) (before ++ Visit p :: after) w =
       runPlan (processMarkdownFile gm args) after
         (mkWorld (files w1) (console w1 ++ [LErrorProcessing p e])))
  /\
  (forall (args : FrontmatterEditor.Args)
          (updateFn : object -> object * FrontmatterEditor.Result)
          (dirPath : Path) (items : option (list Entry))
          (w : World FrontmatterEditor.Line),
     let processFn p := FrontmatterEditor.updateFile gm args p updateFn in
     fst (FrontmatterEditor.processDirectory args dirPath items processFn w) =
       Ok tt /\
     FrontmatterEditor.processDirectory args dirPath items processFn w =
       runPlan processFn (FrontmatterEditor.planDirectory args dirPath items) w)
  /\
  (forall (args : FrontmatterEditor.Args)
          (updateFn : object -> object * FrontmatterEditor.Result)
          (before after : list (Step FrontmatterEditor.Line)) (p : Path)
          (w : World FrontmatterEditor.Line) (e : Error),
     let processFn p := FrontmatterEditor.updateFile gm args p updateFn in
     let w1 := snd (runPlan processFn before w) in
     fst (FrontmatterEditor.updateFile_body gm args p updateFn w1) = Throw e ->
     runPlan processFn (before ++ Visit p :: after) w =
       runPlan processFn after
         (mkWorld (files w1) (console w1 ++ [FrontmatterEditor.LErrorFile p e]))).
Proof.
  split; [|split; [|split]].
  - intros args dirPath items w.
    rewrite processDirectory_follows_plan.
    rewrite runPlan_returns by apply processMarkdownFile_returns.
    split; reflexivity.
  - intros args before after p w e w1 Hfail.
    rewrite runPlan_app by apply processMarkdownFile_returns.
    fold w1. rewrite runPlan_cons by apply processMarkdownFile_returns.
    simpl. now rewrite (processMarkdownFile_failure gm args p w1 e).
  - intros args updateFn dirPath items w processFn.
    assert (Hfn : forall p w, fst (processFn p w) = Ok tt)
      by (intros; apply updateFile_returns).
    rewrite (editor_processDirectory_follows_plan args processFn dirPath items w Hfn).
    rewrite (runPlan_returns processFn Hfn).
    split; reflexivity.
  - intros args updateFn before after p w e processFn w1 Hfail.
    assert (Hfn : forall p w, fst (processFn p w) = Ok tt)
      by (intros; apply updateFile_returns).
    rewrite (runPlan_app processFn Hfn).
    fold w1. rewrite (runPlan_cons processFn Hfn).
    simpl. unfold processFn at 2.
    now rewrite (updateFile_failure gm args updateFn p w1 e).
Qed.

Lemma file_failures_are_isolated_witness :
  let gm := Ex.fixedCodec [] in
  let run :=
    processDirectory gm Ex.argsAddDraft ["content"] Ex.twoPosts Ex.contentWorld in
  fst (processMarkdownFile_body gm Ex.argsAddDraft ["content"; "a.md"]
         Ex.contentWorld) = Throw (EAccess ["content"; "a.md"]) /\
  run =
    runPlan (processMarkdownFile gm Ex.argsAddDraft) [Visit ["content"; "b.md"]]
      (mkWorld (files Ex.contentWorld)
         [LErrorProcessing ["content"; "a.md"] (EAccess ["content"; "a.md"])]) /\
  console (snd run) =
    [LErrorProcessing ["content"; "a.md"] (EAccess ["content"; "a.md"]);
     LUpdated false "b.md";
     LChange (AddField "draft" (Some "true"))].
Proof.
  intros gm run.
  assert (Hfail : fst (processMarkdownFile_body gm Ex.argsAddDraft
                         ["content"; "a.md"] Ex.contentWorld) =
                  Throw (EAccess ["content"; "a.md"]))
    by (vm_compute; reflexivity).
  destruct (file_failures_are_isolated gm) as (Hplan & Hskip & _).
  split; [exact Hfail|].
  assert (Hrun : run =
            runPlan (processMarkdownFile gm Ex.argsAddDraft)
              [Visit ["content"; "b.md"]]
              (mkWorld (files Ex.contentWorld)
                 [LErrorProcessing ["content"; "a.md"]
                    (EAccess ["content"; "a.md"])])).
  { unfold run.
    destruct (Hplan Ex.argsAddDraft ["content"] Ex.twoPosts Ex.contentWorld)
      as [_ ->].
    exact (Hskip Ex.argsAddDraft [] [Visit ["content"; "b.md"]]
             ["content"; "a.md"] Ex.contentWorld
             (EAccess ["content"; "a.md"]) Hfail). }
  split; [exact Hrun|].
  rewrite Hrun. vm_compute. reflexivity.
Defined.

(** ** Further properties of the code *)

(** *** Objects with unique keys *)

Lemma obj_get_delete_eq (o : object) (k : string) :
  wellFormed o -> obj_get (obj_delete o k) k = None.
Proof.
  unfold wellFormed. induction o as [|[k' v] r IH]; simpl; intros Hwf;
    [reflexivity|].
  apply NoDup_cons in Hwf as [Hnotin Hwf].
  destruct (String.eqb_spec k' k) as [->|Hne]; simpl.
  - apply obj_get_None. now rewrite <- list_elem_of_In.
  - apply String.eqb_neq in Hne. rewrite Hne. now apply IH.
Qed.

Lemma filter_ne_notin (k : string) (l : list string) :
  ~ In k l -> filter (fun x => x <> k) l = l.
Proof.
  induction l as [|x l IH]; simpl; intros H; [reflexivity|].
  rewrite filter_cons. destruct (decide (x <> k)) as [_|Hc].
  - rewrite IH; [reflexivity | tauto].
  - exfalso. apply H. left. destruct (String.eqb_spec x k); [assumption | contradiction].
Qed.

Lemma keys_obj_delete (o : object) (k : string) :
  wellFormed o ->
  keys (obj_delete o k) = filter (fun x => x <> k) (keys o).
Proof.
  unfold wellFormed. induction o as [|[k' v] r IH]; simpl; intros Hwf;
    [reflexivity|].
  apply NoDup_cons in Hwf as [Hnotin Hwf].
  rewrite filter_cons.
  destruct (String.eqb_spec k' k) as [->|Hne].
  - destruct (decide (k <> k)) as [Hc|_]; [contradiction|].
    symmetry. apply filter_ne_notin. now rewrite <- list_elem_of_In.
  - destruct (decide (k' <> k)) as [_|Hc]; [|contradiction].
    simpl. now rewrite IH.
Qed.

Lemma obj_delete_wellFormed (o : object) (k : string) :
  wellFormed o -> wellFormed (obj_delete o k).
Proof.
  intros Hwf. unfold wellFormed. rewrite keys_obj_delete by assumption.
  now apply NoDup_filter.
Qed.

(** *** Remove and rename *)

Ltac solve_wf :=
  unfold wellFormed; apply (bool_decide_unpack _); vm_compute; exact I.

(** X1.  Remove-field on a field that the metadata does not have changes
    nothing and records nothing.  On a field that is present, whatever its
    value, it deletes the field, keeps the other fields with their values
    and their order, sets [modified] and records one remove-field change. *)
Theorem remove_field_deletes_present_field
    (args : Args) (name : string) (s : Locals) :
  removeField args = Some name -> name <> "" ->
  wellFormed (data s) ->
  let s' := snd (removeFieldStep args s) in
  (hasOwnProperty (data s) name = false -> s' = s) /\
  (hasOwnProperty (data s) name = true ->
     obj_get (data s') name = None /\
     (forall k, k <> name -> obj_get (data s') k = obj_get (data s) k) /\
     keys (data s') = filter (fun k => k <> name) (keys (data s)) /\
     modified s' = true /\
     changes s' = (changes s ++ [RemoveField name])%list).
Proof.
  intros Hr Hn Hwf s'. subst s'. unfold removeFieldStep. rewrite Hr.
  apply String.eqb_neq in Hn. unfold given. rewrite Hn. simpl.
  destruct (hasOwnProperty (data s) name) eqn:Hhas; simpl.
  - split; [discriminate|]. intros _.
    split; [now apply obj_get_delete_eq|].
    split; [intros k Hk; now apply obj_get_delete_ne|].
    split; [now apply keys_obj_delete|]. split; reflexivity.
  - split; [reflexivity | discriminate].
Qed.

Lemma remove_field_deletes_present_field_witness :
  let args := mkArgs ["tags"] "," false true false "to-array" ".md"
                None None (Some "draft") None None false false None "yaml" false in
  let s' := snd (removeFieldStep args
                   (start [("title", VStr "T"); ("draft", VBool false)])) in
  obj_get (data s') "draft" = None /\
  keys (data s') = ["title"] /\
  changes s' = [RemoveField "draft"].
Proof.
  intros args s'.
  destruct (remove_field_deletes_present_field args "draft"
              (start [("title", VStr "T"); ("draft", VBool false)]))
    as [_ H]; [reflexivity | discriminate | |].
  - solve_wf.
  - destruct (H eq_refl) as (Hget & _ & Hkeys & _ & Hch).
    split; [exact Hget|]. split; [|exact Hch].
    fold s' in Hkeys. rewrite Hkeys. reflexivity.
Defined.

(** X2.  Rename-field, when the old name is present and differs from the
    new name, gives the new name the value the old name had, whether or not
    the new name was present before, and deletes the old name; the other
    fields keep their values and their order.  A new name that was present
    keeps its place among the keys.  A new name that was absent takes the
    place JavaScript gives a new key: last when it is no array index, and
    otherwise among the array indices, so that keys in the order of
    enumeration stay in that order.  One rename-field change is
    recorded. *)
Theorem rename_field_moves_the_value
    (args : Args) (old new : string) (v : value) (s : Locals) :
  renameField args = Some old -> newFieldName args = Some new ->
  old <> "" -> new <> "" -> old <> new ->
  wellFormed (data s) ->
  obj_get (data s) old = Some v ->
  let s' := snd (renameFieldStep args s) in
  obj_get (data s') new = Some v /\
  obj_get (data s') old = None /\
  (forall k, k <> old -> k <> new -> obj_get (data s') k = obj_get (data s) k) /\
  (hasOwnProperty (data s) new = true ->
   keys (data s') = filter (fun k => k <> old) (keys (data s))) /\
  (hasOwnProperty (data s) new = false -> arrayIndex new = None ->
   keys (data s') =
     (filter (fun k => k <> old) (keys (data s)) ++ [new])%list) /\
  (hasOwnProperty (data s) new = false ->
   exists before after,
     filter (fun k => k <> old) (keys (data s)) = (before ++ after)%list /\
     keys (data s') = (before ++ new :: after)%list) /\
  (enumerationOrder (keys (data s)) -> enumerationOrder (keys (data s'))) /\
  modified s' = true /\
  changes s' = (changes s ++ [RenameField old new])%list.
Proof.
  intros Hr Hnew Ho Hn Hne Hwf Hget s'. subst s'.
  unfold renameFieldStep. rewrite Hr, Hnew.
  apply String.eqb_neq in Ho, Hn. unfold given. rewrite Ho, Hn.
  assert (Hhas : hasOwnProperty (data s) old = true)
    by (unfold hasOwnProperty; now rewrite Hget).
  rewrite Hhas. simpl.
  unfold mbind, readField, writeField, deleteField, setModified, push. simpl.
  rewrite Hget. simpl.
  split; [rewrite obj_get_delete_ne by exact Hne; apply obj_get_set_eq|].
  split; [apply obj_get_delete_eq; now apply obj_set_wellFormed|].
  split.
  { intros k Hk1 Hk2. rewrite obj_get_delete_ne by congruence.
    apply obj_get_set_ne. congruence. }
  rewrite keys_obj_delete by now apply obj_set_wellFormed.
  assert (Hkeep : filter (fun k => k <> old) [new] = [new]).
  { rewrite filter_cons. destruct (decide (new <> old)) as [_|Hc]; [reflexivity|].
    exfalso. apply Hc. congruence. }
  split; [|split; [|split; [|split; [|split; reflexivity]]]].
  - intros Hin. apply hasOwnProperty_In in Hin.
    now rewrite keys_obj_set_present.
  - intros Hnin Hk.
    assert (Hnin' : ~ In new (keys (data s)))
      by (intros Hin; apply hasOwnProperty_In in Hin; congruence).
    rewrite keys_obj_set_absent by assumption.
    now rewrite filter_app, Hkeep.
  - intros Hnin.
    assert (Hnin' : ~ In new (keys (data s)))
      by (intros Hin; apply hasOwnProperty_In in Hin; congruence).
    destruct (keys_obj_set_split (data s) new v Hnin') as (a & b & Hab & ->).
    exists (filter (fun k => k <> old) a), (filter (fun k => k <> old) b).
    rewrite Hab, !filter_app. split; [reflexivity|].
    change (new :: b) with ([new] ++ b)%list. now rewrite filter_app, Hkeep.
  - intros Horder. apply enumerationOrder_filter.
    now apply obj_set_enumerationOrder.
Qed.

Lemma rename_field_moves_the_value_witness :
  let args := mkArgs ["tags"] "," false true false "to-array" ".md"
                None None None (Some "a") (Some "b") false false None "yaml" false in
  let s' := snd (renameFieldStep args (start [("a", VNum 1); ("b", VNum 2)])) in
  data s' = [("b", VNum 1)] /\
  obj_get (data s') "b" = Some (VNum 1) /\
  changes s' = [RenameField "a" "b"].
Proof.
  intros args s'. split; [reflexivity|].
  destruct (rename_field_moves_the_value args "a" "b" (VNum 1)
              (start [("a", VNum 1); ("b", VNum 2)]))
    as (Hget & _ & _ & _ & _ & _ & _ & _ & Hch);
    try reflexivity; try discriminate.
  - solve_wf.
  - split; [exact Hget | exact Hch].
Defined.

(** X3.  Rename-field with the new name equal to the old name does not
    leave the field alone: the field is assigned to itself and then
    deleted, so a present field is lost, and a rename-field change is
    recorded. *)
Theorem rename_field_to_same_name_deletes
    (args : Args) (name : string) (s : Locals) :
  renameField args = Some name -> newFieldName args = Some name ->
  name <> "" ->
  wellFormed (data s) ->
  hasOwnProperty (data s) name = true ->
  let s' := snd (renameFieldStep args s) in
  obj_get (data s') name = None /\
  (forall k, k <> name -> obj_get (data s') k = obj_get (data s) k) /\
  modified s' = true /\
  changes s' = (changes s ++ [RenameField name name])%list.
Proof.
  intros Hr Hnew Hn Hwf Hhas s'. subst s'.
  unfold renameFieldStep. rewrite Hr, Hnew.
  apply String.eqb_neq in Hn. unfold given. rewrite Hn, Hhas. simpl.
  unfold mbind, readField, writeField, deleteField, setModified, push. simpl.
  unfold hasOwnProperty in Hhas.
  destruct (obj_get (data s) name) as [v|] eqn:Hget; [|discriminate].
  simpl. rewrite (obj_set_same _ _ _ Hget).
  split; [now apply obj_get_delete_eq|].
  split; [intros k Hk; now apply obj_get_delete_ne|].
  split; reflexivity.
Qed.

Lemma rename_field_to_same_name_deletes_witness :
  let args := mkArgs ["tags"] "," false true false "to-array" ".md"
                None None None (Some "title") (Some "title") false false None
                "yaml" false in
  let s' := snd (renameFieldStep args (start [("title", VStr "T")])) in
  obj_get (data s') "title" = None /\ changes s' = [RenameField "title" "title"].
Proof.
  intros args s'.
  destruct (rename_field_to_same_name_deletes args "title"
              (start [("title", VStr "T")]))
    as (Hget & _ & _ & Hch); try reflexivity; try discriminate.
  - solve_wf.
  - split; [exact Hget | exact Hch].
Defined.

(** *** Sorting and removing duplicates *)

Lemma value_nested_ind (P : value -> Prop) :
  P VNull ->
  (forall b, P (VBool b)) ->
  (forall n, P (VNum n)) ->
  (forall x, P (VOther x)) ->
  (forall str, P (VStr str)) ->
  (forall l, Forall P l -> P (VArr l)) ->
  (forall o, Forall (fun kv => P (snd kv)) o -> P (VObj o)) ->
  forall v, P v.
Proof.
  intros HN HB HZ HX HS HA HO. fix IH 1. intros [|b|n|x|str|l|o].
  - apply HN.
  - apply HB.
  - apply HZ.
  - apply HX.
  - apply HS.
  - apply HA. induction l as [|x l IHl]; constructor; [apply IH | exact IHl].
  - apply HO. induction o as [|[k x] o IHo]; constructor; [apply IH | exact IHo].
Qed.

Lemma otherEqb_refl (x : otherNumber) : otherEqb x x = true.
Proof.
  destruct x as [| |negative|text]; simpl; try reflexivity.
  - now destruct negative.
  - apply String.eqb_refl.
Qed.

Lemma otherEqb_sym (x y : otherNumber) : otherEqb x y = otherEqb y x.
Proof.
  destruct x as [| |a|a], y as [| |b|b]; simpl; try reflexivity.
  - now destruct a, b.
  - apply String.eqb_sym.
Qed.

Lemma valueEqb_refl (v : value) : valueEqb v v = true.
Proof.
  induction v as [|b|n|x|str|l IH|o IH] using value_nested_ind; simpl.
  - reflexivity.
  - now destruct b.
  - apply Z.eqb_refl.
  - destruct x as [| |negative|text]; simpl; try reflexivity;
      [now destruct negative | now rewrite String.eqb_refl].
  - apply String.eqb_refl.
  - induction IH as [|x l Hx _ IHl]; [reflexivity|]. now rewrite Hx, IHl.
  - induction IH as [|[k x] o Hx _ IHo]; [reflexivity|].
    simpl in Hx. now rewrite String.eqb_refl, Hx, IHo.
Qed.

Lemma ltb_asym (a b : string) : String.ltb a b = true -> String.ltb b a = false.
Proof.
  unfold String.ltb. rewrite (String.compare_antisym a b).
  destruct (String.compare b a); simpl; congruence.
Qed.

Lemma sortInsert_ordered (x : value) (l : list value) :
  ordered l -> ordered (sortInsert x l).
Proof.
  induction l as [|y r IH]; intros Hl; [simpl; tauto|].
  cbn [sortInsert].
  destruct (String.ltb (toString y) (toString x)) eqn:Hlt.
  - destruct Hl as [Hhead Hr]. specialize (IH Hr).
    split; [|exact IH].
    destruct r as [|z r]; cbn [sortInsert].
    + now apply ltb_asym.
    + destruct (String.ltb (toString z) (toString x)); [exact Hhead|].
      now apply ltb_asym.
  - split; [exact Hlt | exact Hl].
Qed.

Lemma sort_ordered (l : list value) : ordered (sort l).
Proof.
  induction l as [|x l IH]; [exact I|]. now apply sortInsert_ordered.
Qed.

Lemma sort_of_ordered (l : list value) : ordered l -> sort l = l.
Proof.
  induction l as [|x l IH]; intros Hl; [reflexivity|].
  destruct Hl as [Hhead Hr]. unfold sort in *. cbn [foldr].
  rewrite (IH Hr). destruct l as [|y r]; [reflexivity|].
  cbn [sortInsert]. now rewrite Hhead.
Qed.

(** Sorting a sorted array changes nothing. *)
Lemma sort_idempotent (l : list value) : sort (sort l) = sort l.
Proof. apply sort_of_ordered, sort_ordered. Qed.

Lemma Forall_sortInsert (P : value -> Prop) (x : value) (l : list value) :
  P x -> Forall P l -> Forall P (sortInsert x l).
Proof.
  intros Hx. induction 1 as [|y r Hy Hr IH]; cbn [sortInsert].
  - now constructor.
  - destruct (String.ltb (toString y) (toString x)); repeat constructor; assumption.
Qed.

Lemma Forall_sort (P : value -> Prop) (l : list value) :
  Forall P l -> Forall P (sort l).
Proof.
  induction 1 as [|x l Hx Hl IH]; [constructor|].
  now apply Forall_sortInsert.
Qed.

Lemma sameValueZero_sym (x y : value) : sameValueZero x y = sameValueZero y x.
Proof.
  destruct x as [|a|a|[| |a|a]|a|a|a], y as [|b|b|[| |b|b]|b|b|b]; simpl;
    try reflexivity.
  - now destruct a, b.
  - apply Z.eqb_sym.
  - now destruct a, b.
  - apply String.eqb_sym.
  - apply String.eqb_sym.
Qed.

Lemma sortInsert_pairwiseDistinct (x : value) (l : list value) :
  pairwiseDistinct (x :: l) -> pairwiseDistinct (sortInsert x l).
Proof.
  induction l as [|y r IH]; intros [Hx Hl]; [simpl; tauto|].
  cbn [sortInsert].
  destruct (String.ltb (toString y) (toString x)).
  - apply Forall_cons in Hx as [Hyx Hrx]. destruct Hl as [Hry Hr].
    split.
    + apply Forall_sortInsert; [|exact Hry].
      now rewrite sameValueZero_sym.
    + apply IH. now split.
  - now split.
Qed.

Lemma sort_pairwiseDistinct (l : list value) :
  pairwiseDistinct l -> pairwiseDistinct (sort l).
Proof.
  induction l as [|x l IH]; intros Hl; [exact I|].
  destruct Hl as [Hx Hl].
  apply sortInsert_pairwiseDistinct. split; [|now apply IH].
  now apply Forall_sort.
Qed.

Lemma noRepeat_iff (seen l : list value) :
  noRepeat seen l <->
  Forall (fun y => existsb (sameValueZero y) seen = false) l /\
  pairwiseDistinct l.
Proof.
  revert seen. induction l as [|x r IH]; intros seen; simpl.
  - split; [intros _; split; [constructor | exact I] | tauto].
  - rewrite IH. rewrite Forall_cons. split.
    + intros (Hx & Hr & Hp). split; [split; [exact Hx|] | split; [|exact Hp]].
      * eapply Forall_impl; [exact Hr|]. simpl. intros y Hy.
        now apply orb_false_iff in Hy as [_ Hy].
      * eapply Forall_impl; [exact Hr|]. simpl. intros y Hy.
        now apply orb_false_iff in Hy as [Hy _].
    + intros ((Hx & Hr) & Hxr & Hp). split; [exact Hx|]. split; [|exact Hp].
      apply Forall_forall. intros y Hy.
      rewrite Forall_forall in Hr, Hxr. simpl.
      now rewrite (Hxr y Hy), (Hr y Hy).
Qed.

Lemma uniqueFrom_noRepeat (l : list value) :
  forall seen, noRepeat seen (uniqueFrom seen l).
Proof.
  induction l as [|x r IH]; intros seen; simpl; [exact I|].
  destruct (existsb (sameValueZero x) seen) eqn:E; [apply IH|].
  simpl. split; [exact E | apply IH].
Qed.

Lemma uniqueFrom_of_noRepeat (l : list value) :
  forall seen, noRepeat seen l -> uniqueFrom seen l = l.
Proof.
  induction l as [|x r IH]; intros seen; simpl; [reflexivity|].
  intros [Hx Hr]. rewrite Hx. now rewrite IH.
Qed.

(** Removing duplicates twice is removing them once. *)
Lemma unique_idempotent (l : list value) : unique (unique l) = unique l.
Proof. apply uniqueFrom_of_noRepeat, uniqueFrom_noRepeat. Qed.

(** Sorting does not bring duplicates back. *)
Lemma unique_sort_unique (l : list value) :
  unique (sort (unique l)) = sort (unique l).
Proof.
  apply uniqueFrom_of_noRepeat. apply noRepeat_iff. split.
  - apply Forall_forall. reflexivity.
  - apply sort_pairwiseDistinct.
    apply (noRepeat_iff [] (unique l)), uniqueFrom_noRepeat.
Qed.

Lemma processedArray_idempotent (args : Args) (l : list value) :
  processedArray args (processedArray args l) = processedArray args l.
Proof.
  unfold processedArray.
  destruct (uniqueValues args), (sortArrays args).
  - now rewrite unique_sort_unique, sort_idempotent.
  - apply unique_idempotent.
  - apply sort_idempotent.
  - reflexivity.
Qed.

(** *** Running to-array again *)

(** The array branch of the to-array loop, by the options given. *)
Lemma toArrayField_array_both (args : Args) (f : string) (s : Locals)
    (l : list value) :
  obj_get (data s) f = Some (VArr l) ->
  sortArrays args = true -> uniqueValues args = true ->
  toArrayField args f s =
    if valueEqb (VArr l) (VArr (sort (unique l))) then (tt, s)
    else (tt, mkLocals (obj_set (data s) f (VArr (sort (unique l)))) true
                (changes s ++ [ProcessArray f (sort (unique l))])).
Proof.
  intros Hget Hs Hu. unfold toArrayField. run_step.
  rewrite Hget, Hs, Hu. simpl. rewrite Hget. simpl.
  match goal with |- context [negb ?c] => destruct c end; reflexivity.
Qed.

Lemma toArrayField_array_unique (args : Args) (f : string) (s : Locals)
    (l : list value) :
  obj_get (data s) f = Some (VArr l) ->
  sortArrays args = false -> uniqueValues args = true ->
  toArrayField args f s =
    if valueEqb (VArr l) (VArr (unique l)) then (tt, s)
    else (tt, mkLocals (obj_set (data s) f (VArr (unique l))) true
                (changes s ++ [ProcessArray f (unique l)])).
Proof.
  intros Hget Hs Hu. unfold toArrayField. run_step.
  rewrite Hget, Hs, Hu. simpl. rewrite Hget. simpl.
  match goal with |- context [negb ?c] => destruct c end; reflexivity.
Qed.

Lemma toArrayField_array_sort (args : Args) (f : string) (s : Locals)
    (l : list value) :
  obj_get (data s) f = Some (VArr l) ->
  sortArrays args = true -> uniqueValues args = false ->
  toArrayField args f s =
    (tt, mkLocals (obj_set (data s) f (VArr (sort l))) (modified s) (changes s)).
Proof.
  intros Hget Hs Hu. unfold toArrayField. run_step.
  rewrite Hget, Hs, Hu. simpl. rewrite Hget. simpl.
  rewrite obj_get_set_eq.
  pose proof (valueEqb_refl (VArr (sort l))) as Hrefl. simpl in Hrefl.
  simpl. now rewrite Hrefl.
Qed.

Lemma settled_processed (args : Args) (l : list value) :
  settled args (Some (VArr (processedArray args l))).
Proof.
  cbn [settled]. rewrite processedArray_idempotent.
  destruct (uniqueValues args); [apply valueEqb_refl | reflexivity].
Qed.

Lemma toArrayField_settles (args : Args) (f : string) (s : Locals) :
  settled args (obj_get (data (snd (toArrayField args f s))) f).
Proof.
  destruct (obj_get (data s) f) as [v|] eqn:Hget.
  2: { unfold toArrayField. run_step. rewrite Hget. simpl. now rewrite Hget. }
  destruct v as [|b|n|x|str|l|o];
    try (unfold toArrayField; run_step; rewrite Hget; simpl;
         rewrite ?andb_false_r; simpl; now rewrite Hget).
  - unfold toArrayField. run_step. rewrite Hget. simpl.
    destruct (String.eqb_spec str "") as [->|Hne]; simpl.
    + now rewrite Hget.
    + rewrite obj_get_set_eq.
      apply (settled_processed args
               (map VStr (filter (fun value => (0 <? String.length value)%nat)
                                 (map trim (split (delimiter args) str))))).
  - pose proof (settled_processed args l) as Hproc.
    unfold processedArray in Hproc.
    destruct (sortArrays args) eqn:Hs, (uniqueValues args) eqn:Hu.
    + rewrite (toArrayField_array_both args f s l) by assumption.
      destruct (valueEqb (VArr l) (VArr (sort (unique l)))) eqn:E; simpl.
      * rewrite Hget. cbn [settled]. unfold processedArray.
        now rewrite Hs, Hu.
      * now rewrite obj_get_set_eq.
    + rewrite (toArrayField_array_sort args f s l) by assumption. simpl.
      now rewrite obj_get_set_eq.
    + rewrite (toArrayField_array_unique args f s l) by assumption.
      destruct (valueEqb (VArr l) (VArr (unique l))) eqn:E; simpl.
      * rewrite Hget. cbn [settled]. unfold processedArray.
        now rewrite Hs, Hu.
      * now rewrite obj_get_set_eq.
    + rewrite (toArrayField_array_plain args f l s) by assumption. simpl.
      rewrite Hget. cbn [settled]. unfold processedArray. now rewrite Hs, Hu.
Qed.

Lemma toArrayField_of_settled (args : Args) (f : string) (s : Locals) :
  settled args (obj_get (data s) f) ->
  toArrayField args f s = (tt, s).
Proof.
  destruct (obj_get (data s) f) as [v|] eqn:Hget.
  2: { intros _. unfold toArrayField. run_step. now rewrite Hget. }
  destruct v as [|b|n|x|str|l|o];
    try (intros _; unfold toArrayField; run_step; rewrite Hget; simpl;
         now rewrite ?andb_false_r).
  - simpl. intros ->. now apply toArrayField_empty_string.
  - cbn [settled]. unfold processedArray.
    destruct (sortArrays args) eqn:Hs, (uniqueValues args) eqn:Hu; intros Hl.
    + rewrite (toArrayField_array_both args f s l) by assumption.
      now rewrite Hl.
    + rewrite (toArrayField_array_sort args f s l) by assumption.
      rewrite Hl, (obj_set_same _ _ _ Hget). now destruct s.
    + rewrite (toArrayField_array_unique args f s l) by assumption.
      now rewrite Hl.
    + now apply (toArrayField_array_plain args f l s).
Qed.

Lemma toArray_loop_settles (args : Args) (l : list string) :
  forall (done : list string) (s : Locals),
    (forall g, In g done -> settled args (obj_get (data s) g)) ->
    forall g, In g (done ++ l) ->
      settled args (obj_get (data (snd (mforEach (toArrayField args) l s))) g).
Proof.
  induction l as [|h l IH]; intros done s Hdone g Hg.
  - rewrite app_nil_r in Hg. now apply Hdone.
  - rewrite mforEach_cons.
    apply (IH (done ++ [h])%list).
    + intros g' Hg'. apply in_app_or in Hg' as [Hg'|[<-|[]]].
      * destruct (String.eqb_spec h g') as [->|Hne].
        -- apply toArrayField_settles.
        -- destruct (toArrayField_touchesOnly args h s) as [Hother _].
           rewrite Hother by exact Hne. now apply Hdone.
      * apply toArrayField_settles.
    + now rewrite <- app_assoc.
Qed.

Lemma toArray_loop_of_settled (args : Args) (l : list string) (s : Locals) :
  (forall g, In g l -> settled args (obj_get (data s) g)) ->
  mforEach (toArrayField args) l s = (tt, s).
Proof.
  induction l as [|h l IH]; intros Hall; [reflexivity|].
  rewrite mforEach_cons.
  rewrite toArrayField_of_settled by (apply Hall; now left).
  apply IH. intros g Hg. apply Hall. now right.
Qed.

(** A to-array run without field operations is the conversion loop. *)
Lemma transform_to_array_loop (args : Args) (base : string) (s : Locals) :
  mode args = "to-array" ->
  addField args = None -> removeField args = None -> renameField args = None ->
  transform args base s =
    (None, snd (mforEach (toArrayField args) (fields args) s)).
Proof.
  intros Hm Ha Hr Hn. unfold transform, mbind.
  rewrite modeSwitch_converts by (rewrite Hm; discriminate).
  unfold conversionPhase. rewrite Hm. simpl.
  unfold fieldOperations, addFieldStep, removeFieldStep, renameFieldStep,
    mbind, mret.
  now rewrite Ha, Hr, Hn.
Qed.

(** The metadata the conversion loop produces are settled: a further pass
    leaves them as they are. *)
Lemma to_array_loop_settled (args : Args) (d : object) :
  let d1 := data (snd (mforEach (toArrayField args) (fields args) (start d))) in
  snd (mforEach (toArrayField args) (fields args) (start d1)) = start d1.
Proof.
  intros d1. rewrite toArray_loop_of_settled; [reflexivity|].
  intros g Hg. subst d1.
  apply (toArray_loop_settles args (fields args) [] (start d)).
  - intros g' [].
  - exact Hg.
Qed.

(** X4.  Running to-array a second time changes nothing.  With no field
    operation requested, whatever the metadata, the requested fields, the
    delimiter and the sort and unique options, a second pass of
    [processMarkdownFile]'s transform over the metadata the first pass
    produced leaves them as they are, records no change and does not set
    [modified], so the file is not written again. *)
Theorem to_array_twice_changes_nothing (args : Args) (base : string) (d : object) :
  mode args = "to-array" ->
  addField args = None -> removeField args = None -> renameField args = None ->
  let d1 := data (snd (transform args base (start d))) in
  transform args base (start d1) = (None, start d1).
Proof.
  intros Hm Ha Hr Hn d1. subst d1.
  rewrite !transform_to_array_loop by assumption. cbn [snd].
  now rewrite to_array_loop_settled.
Qed.

Lemma to_array_twice_changes_nothing_witness :
  let args := mkArgs ["tags"] "," false true false "to-array" ".md"
                None None None None None true true None "yaml" false in
  let d := [("tags", VStr "rust, go,  rust")] in
  let d1 := data (snd (transform args "post.md" (start d))) in
  d1 = [("tags", VArr [VStr "go"; VStr "rust"])] /\
  transform args "post.md" (start d1) = (None, start d1).
Proof.
  intros args d d1. split; [reflexivity|].
  apply (to_array_twice_changes_nothing args "post.md" d); reflexivity.
Defined.

(** *** to-string followed by to-array *)

Lemma prefix_single (c x : ascii) (t : string) :
  String.prefix (String c "") (String x t) = if ascii_dec c x then true else false.
Proof.
  change (String.prefix (String c "") (String x t))
    with (if ascii_dec c x then String.prefix "" t else false).
  destruct (ascii_dec c x); [|reflexivity]. now destruct t.
Qed.

Lemma includes_single_cons (c x : ascii) (p : string) :
  includes (String c "") (String x p) = false ->
  c <> x /\ includes (String c "") p = false.
Proof.
  cbn [includes]. rewrite prefix_single.
  destruct (ascii_dec c x); simpl; [discriminate|]. now split.
Qed.

Lemma split_go_piece (c : ascii) (p : string) :
  includes (String c "") p = false ->
  forall cur rest,
    split_go (String c "") 0 cur (p ++ rest) =
    split_go (String c "") 0 (cur ++ p) rest.
Proof.
  induction p as [|x p IH]; intros Hp cur rest.
  - now rewrite append_nil_l, append_empty_r.
  - apply includes_single_cons in Hp as [Hne Hp].
    rewrite append_cons. cbn [split_go]. rewrite prefix_single.
    destruct (ascii_dec c x); [contradiction|].
    rewrite (IH Hp). f_equal.
    rewrite append_assoc. reflexivity.
Qed.

Lemma split_go_separator (c : ascii) (cur rest : string) :
  split_go (String c "") 0 cur (String c "" ++ rest) =
  cur :: split_go (String c "") 0 "" rest.
Proof.
  rewrite append_cons, append_nil_l. cbn [split_go]. rewrite prefix_single.
  destruct (ascii_dec c c); [reflexivity | contradiction].
Qed.

Lemma split_go_end (sep cur : string) : split_go sep 0 cur "" = [cur].
Proof. reflexivity. Qed.

(** Splitting the join of pieces that do not contain the one-character
    separator gives the pieces back. *)
Lemma split_joinStrings (c : ascii) (ps : list string) :
  ps <> [] ->
  Forall (fun p => includes (String c "") p = false) ps ->
  split (String c "") (joinStrings (String c "") ps) = ps.
Proof.
  intros Hne Hall. unfold split.
  assert (H : forall cur,
            split_go (String c "") 0 cur (joinStrings (String c "") ps) =
            match ps with
            | [] => [cur]
            | p :: r => (cur ++ p) :: r
            end).
  { clear Hne. induction Hall as [|p r Hp Hr IH]; intros cur; [reflexivity|].
    destruct r as [|q r].
    - cbn [joinStrings].
      rewrite <- (append_empty_r p) at 1.
      rewrite (split_go_piece c p Hp). reflexivity.
    - rewrite joinStrings_cons by discriminate.
      rewrite (split_go_piece c p Hp), split_go_separator.
      now rewrite IH. }
  rewrite H. destruct ps; [contradiction | reflexivity].
Qed.

Lemma joinStrings_not_empty (sep : string) (ps : list string) :
  ps <> [] -> Forall (fun p => p <> "") ps -> joinStrings sep ps <> "".
Proof.
  intros Hne Hall. destruct Hall as [|p r Hp _]; [contradiction|].
  destruct r; cbn [joinStrings]; [exact Hp|].
  destruct p; [contradiction|]. rewrite append_cons. discriminate.
Qed.

(** X5.  Converting an array field to a string and back restores it, for a
    delimiter of one character: when the array is not empty and its
    elements are strings that are non-empty, have no white space at either
    end and do not contain the delimiter, to-string followed by to-array
    (sortArrays and uniqueValues unset, no field operations) leaves the
    field with the original array. *)
Theorem array_round_trip
    (toStr toArr : Args) (base f : string) (c : ascii) (ps : list string)
    (d : object) :
  mode toStr = "to-string" -> mode toArr = "to-array" ->
  delimiter toStr = String c "" -> delimiter toArr = String c "" ->
  sortArrays toArr = false -> uniqueValues toArr = false ->
  addField toStr = None -> removeField toStr = None -> renameField toStr = None ->
  addField toArr = None -> removeField toArr = None -> renameField toArr = None ->
  In f (fields toStr) -> In f (fields toArr) ->
  obj_get d f = Some (VArr (map VStr ps)) ->
  ps <> [] ->
  Forall (fun p => p <> "" /\ trim p = p /\ includes (String c "") p = false) ps ->
  let d1 := data (snd (transform toStr base (start d))) in
  let d2 := data (snd (transform toArr base (start d1))) in
  obj_get d1 f = Some (VStr (joinStrings (String c "") ps)) /\
  obj_get d2 f = Some (VArr (map VStr ps)).
Proof.
  intros Hm1 Hm2 Hd1 Hd2 Hs Hu Ha1 Hr1 Hn1 Ha2 Hr2 Hn2 Hin1 Hin2 Hget Hne Hps
    d1 d2.
  assert (E1 : snd (transform toStr base (start d)) =
               snd (mforEach (toStringField toStr) (fields toStr) (start d))).
  { rewrite transform_conversion_only; try assumption;
      try (rewrite Hm1; discriminate).
    unfold conversionPhase. now rewrite Hm1. }
  assert (E2 : snd (transform toArr base (start d1)) =
               snd (mforEach (toArrayField toArr) (fields toArr) (start d1))).
  { rewrite transform_conversion_only; try assumption;
      try (rewrite Hm2; discriminate).
    unfold conversionPhase. now rewrite Hm2. }
  assert (H1 : obj_get d1 f = Some (VStr (joinStrings (String c "") ps))).
  { subst d1. rewrite E1.
    rewrite (toString_loop_converts toStr f (map VStr ps)); try assumption.
    now rewrite Hd1, join_strings. }
  split; [exact H1|].
  subst d2. rewrite E2.
  rewrite (toArray_loop_converts toArr f (joinStrings (String c "") ps));
    try assumption.
  - rewrite Hd2, split_joinStrings; [|exact Hne|].
    + rewrite trimmed_pieces_kept; [reflexivity|].
      eapply Forall_impl; [exact Hps|]. simpl. tauto.
    + eapply Forall_impl; [exact Hps|]. simpl. tauto.
  - apply joinStrings_not_empty; [exact Hne|].
    eapply Forall_impl; [exact Hps|]. simpl. tauto.
Qed.

Lemma array_round_trip_witness :
  let d := [("tags", VArr [VStr "go"; VStr "rust"])] in
  let d1 := data (snd (transform Ex.argsToStringTags "post.md" (start d))) in
  let d2 := data (snd (transform Ex.argsToArrayTags "post.md" (start d1))) in
  obj_get d1 "tags" = Some (VStr "go,rust") /\
  obj_get d2 "tags" = Some (VArr [VStr "go"; VStr "rust"]).
Proof.
  apply (array_round_trip Ex.argsToStringTags Ex.argsToArrayTags "post.md"
           "tags" ","%char ["go"; "rust"]
           [("tags", VArr [VStr "go"; VStr "rust"])]);
    try reflexivity; try discriminate.
  - simpl. now left.
  - simpl. now left.
  - repeat constructor; discriminate.
Defined.

(** X6.  An empty array does not survive the same round trip: to-string
    turns it into the empty string, and to-array passes an empty string
    over, so the field stays the empty string. *)
Theorem empty_array_round_trip_gives_empty_string
    (toStr toArr : Args) (base f : string) (d : object) :
  mode toStr = "to-string" -> mode toArr = "to-array" ->
  addField toStr = None -> removeField toStr = None -> renameField toStr = None ->
  addField toArr = None -> removeField toArr = None -> renameField toArr = None ->
  In f (fields toStr) ->
  obj_get d f = Some (VArr []) ->
  let d1 := data (snd (transform toStr base (start d))) in
  let d2 := data (snd (transform toArr base (start d1))) in
  obj_get d2 f = Some (VStr "").
Proof.
  intros Hm1 Hm2 Ha1 Hr1 Hn1 Ha2 Hr2 Hn2 Hin Hget d1 d2.
  assert (H1 : obj_get d1 f = Some (VStr "")).
  { subst d1. rewrite transform_conversion_only; try assumption;
      try (rewrite Hm1; discriminate).
    unfold conversionPhase. rewrite Hm1. simpl.
    now rewrite (toString_loop_converts toStr f []). }
  subst d2. rewrite transform_conversion_only; try assumption;
    try (rewrite Hm2; discriminate).
  unfold conversionPhase. rewrite Hm2. simpl.
  apply (toArray_loop_empty_string toArr f (fields toArr) (start d1) H1).
  constructor.
Qed.

Lemma empty_array_round_trip_gives_empty_string_witness :
  let d := [("tags", VArr [])] in
  let d1 := data (snd (transform Ex.argsToStringTags "post.md" (start d))) in
  let d2 := data (snd (transform Ex.argsToArrayTags "post.md" (start d1))) in
  obj_get d2 "tags" = Some (VStr "").
Proof.
  apply (empty_array_round_trip_gives_empty_string Ex.argsToStringTags
           Ex.argsToArrayTags "post.md" "tags" [("tags", VArr [])]);
    try reflexivity.
  simpl. now left.
Defined.

(** *** Which files a run can change *)

Section ChangesOnly.
Context {L : Type}.

Lemma co_preserves {A} (P : Path -> Prop) (m : IO L A) :
  preservesFiles m -> changesOnly P m.
Proof. intros H w q _. now rewrite H. Qed.

Lemma co_weaken {A} (P Q : Path -> Prop) (m : IO L A) :
  (forall q, P q -> Q q) -> changesOnly P m -> changesOnly Q m.
Proof. intros HPQ H w q Hq. apply H. intros HP. apply Hq. now apply HPQ. Qed.

Lemma co_writeFileSync (P : Path -> Prop) (p : Path) (text : string) :
  P p -> changesOnly P (@writeFileSync L p text).
Proof.
  intros HP w q Hq. unfold writeFileSync.
  assert (p <> q) by (intros ->; contradiction).
  destruct (files w !! p) as [f|]; [destruct (writable f)|]; simpl;
    try reflexivity; now apply lookup_insert_ne.
Qed.

Lemma co_bind {A B} (P : Path -> Prop) (m : IO L A) (k : A -> IO L B) :
  changesOnly P m -> (forall a, changesOnly P (k a)) -> changesOnly P (bind m k).
Proof.
  intros Hm Hk w q Hq. unfold bind. specialize (Hm w q Hq).
  destruct (m w) as [[a|e] w']; simpl in *; [|exact Hm].
  now rewrite (Hk a w' q Hq).
Qed.

Lemma co_tryCatch {A} (P : Path -> Prop) (body : IO L A)
    (handler : Error -> IO L A) :
  changesOnly P body -> (forall e, changesOnly P (handler e)) ->
  changesOnly P (tryCatch body handler).
Proof.
  intros Hb Hh w q Hq. unfold tryCatch. specialize (Hb w q Hq).
  destruct (body w) as [[a|e] w']; simpl in *; [exact Hb|].
  now rewrite (Hh e w' q Hq).
Qed.

Lemma pf_forEach {A} (f : A -> IO L unit) (l : list A) :
  (forall x, preservesFiles (f x)) -> preservesFiles (forEach f l).
Proof.
  intros Hf. induction l as [|x l IH]; [apply pf_ret|].
  apply pf_bind; [apply Hf | intros _; exact IH].
Qed.

Lemma co_forEach {A} (P : Path -> Prop) (f : A -> IO L unit) (l : list A) :
  (forall x, In x l -> changesOnly P (f x)) -> changesOnly P (forEach f l).
Proof.
  induction l as [|x l IH]; intros Hf.
  - apply co_preserves, pf_ret.
  - apply co_bind; [apply Hf; now left|].
    intros _. apply IH. intros y Hy. apply Hf. now right.
Qed.

Lemma co_runPlan (P : Path -> Prop) (visit : Path -> IO L unit)
    (plan : list (Step L)) :
  (forall p, In p (visited plan) -> changesOnly P (visit p)) ->
  changesOnly P (runPlan visit plan).
Proof.
  intros Hv. apply co_forEach. intros [p|l] Hin; simpl.
  - apply Hv. unfold visited. apply in_flat_map. exists (Visit p).
    split; [exact Hin | now left].
  - apply co_preserves, pf_log.
Qed.

End ChangesOnly.

Ltac changes_only :=
  repeat first
    [ apply co_preserves;
      first [ apply pf_ret | apply pf_throw | apply pf_lift | apply pf_log
            | apply pf_logAll | apply pf_readFileSync ]
    | apply co_writeFileSync
    | apply co_bind; [|intros ?]
    | apply co_tryCatch; [|intros ?]
    | match goal with
      | |- changesOnly _ (if ?b then _ else _) => destruct b eqn:?
      | |- changesOnly _ (match ?x with _ => _ end) => destruct x eqn:?
      end ].

(** [processMarkdownFile] changes no file but its own, and not even that
    one when the pattern rejects its name. *)
Lemma processMarkdownFile_changesOnly (gm : Codec) (args : Args) (p : Path) :
  changesOnly (fun q => q = p /\ patternAccepts args (basename p))
              (processMarkdownFile gm args p).
Proof.
  unfold processMarkdownFile, processMarkdownFile_body, patternAccepts.
  destruct (pattern args) as [test|].
  - destruct (test (basename p)) eqn:Htest; simpl.
    + changes_only. now split.
    + apply co_preserves. preserves.
  - simpl. changes_only. now split.
Qed.

Lemma basename_path_join (dir : Path) (name : string) :
  basename (path_join dir name) = name.
Proof. unfold basename, path_join. apply last_last. Qed.

Lemma visited_app {L} (a b : list (Step L)) :
  visited (a ++ b) = (visited a ++ visited b)%list.
Proof. unfold visited. apply flat_map_app. Qed.

Lemma visited_planLoop {L} (P : Path -> Prop)
    (planOne : Entry -> list (Step L) * option Error) (l : list Entry) :
  Forall (fun item => Forall P (visited (fst (planOne item)))) l ->
  Forall P (visited (fst (planLoop planOne l))).
Proof.
  induction 1 as [|item l Hitem _ IH]; simpl; [constructor|].
  destruct (planOne item) as [steps [e|]]; simpl in *; [exact Hitem|].
  destruct (planLoop planOne l) as [more e]. simpl in *.
  rewrite visited_app. apply Forall_app. now split.
Qed.

Lemma visited_planListing {L} (P : Path -> Prop) (dirError : Path -> Error -> L)
    (dirPath : Path) (planOne : Entry -> list (Step L) * option Error)
    (items : option (list Entry)) :
  (forall l, items = Some l ->
     Forall (fun item => Forall P (visited (fst (planOne item)))) l) ->
  Forall P (visited (planListing dirError dirPath planOne items)).
Proof.
  intros H. destruct items as [l|]; simpl; [|constructor].
  pose proof (visited_planLoop P planOne l (H l eq_refl)) as Hl.
  destruct (planLoop planOne l) as [steps e]. simpl in *.
  rewrite visited_app. apply Forall_app. split; [exact Hl|].
  destruct e; constructor.
Qed.

(** The files in the plan of a walk lie below the directory, directly in
    it when the walk is not recursive, and have one of the extensions. *)
Lemma visited_planItem (args : Args) (item : Entry) :
  forall dirPath,
    Forall (fun p => exists rel,
              p = (dirPath ++ rel)%list /\ rel <> [] /\
              hasExtension args (basename p) = true /\
              (recursive args = false -> length rel = 1%nat))
           (visited (fst (planItem args dirPath item))).
Proof.
  induction item as [name|name|name l IH|name|name] using Entry_nested_ind;
    intros dirPath; cbn [planItem].
  - destruct (hasExtension args name) eqn:Hext; simpl; [|constructor].
    constructor; [|constructor].
    exists [name]. rewrite basename_path_join.
    repeat split; [discriminate | exact Hext].
  - destruct (recursive args); simpl; constructor.
  - destruct (recursive args) eqn:Hrec; cbn [fst]; [|constructor].
    apply visited_planListing. intros l' [= <-].
    eapply Forall_impl; [exact IH|]. simpl. intros item Hitem.
    eapply Forall_impl; [apply (Hitem (path_join dirPath name))|]. simpl.
    intros p (rel & -> & Hrel & Hext & Hlen).
    exists (name :: rel). unfold path_join in *.
    rewrite <- app_assoc in Hext. rewrite <- app_assoc.
    repeat split; [discriminate | exact Hext | discriminate].
  - constructor.
  - constructor.
Qed.

(** X7.  A run of [processDirectory] changes no file other than files
    below the directory (directly in it when the run is not recursive)
    whose name ends with one of the extensions and passes the pattern.
    Every other file of the world is after the run what it was before. *)
Theorem directory_run_changes_only_matching_files
    (gm : Codec) (args : Args) (dirPath : Path) (items : option (list Entry)) :
  changesOnly (mayChange args dirPath) (processDirectory gm args dirPath items).
Proof.
  intros w q Hq. rewrite processDirectory_follows_plan.
  revert w q Hq. fold (changesOnly (mayChange args dirPath)
                         (runPlan (processMarkdownFile gm args)
                                  (planDirectory args dirPath items))).
  apply co_runPlan. intros p Hp.
  eapply co_weaken; [|apply processMarkdownFile_changesOnly].
  intros q [-> Hpat]. unfold planDirectory in Hp.
  assert (Hall : Forall (fun p => exists rel,
              p = (dirPath ++ rel)%list /\ rel <> [] /\
              hasExtension args (basename p) = true /\
              (recursive args = false -> length rel = 1%nat))
           (visited (planListing LErrorDirectory dirPath
                       (planItem args dirPath) items))).
  { apply visited_planListing. intros l _. apply Forall_forall.
    intros item _. apply visited_planItem. }
  rewrite Forall_forall in Hall.
  destruct (Hall p) as (rel & Heq & Hrel & Hext & Hlen);
    [now apply list_elem_of_In|].
  exists rel. repeat split; assumption.
Qed.

(** *** Whole runs that write nothing *)

Lemma pf_runPlan {L} (visit : Path -> IO L unit) (plan : list (Step L)) :
  (forall p, preservesFiles (visit p)) -> preservesFiles (runPlan visit plan).
Proof.
  intros Hv. apply pf_forEach. intros [p|l]; simpl; [apply Hv | apply pf_log].
Qed.

Lemma pf_foldIO {L A S} (f : A -> S -> IO L S) (l : list A) :
  (forall x acc, In x l -> preservesFiles (f x acc)) ->
  forall acc, preservesFiles (foldIO f l acc).
Proof.
  induction l as [|x l IH]; intros Hf acc; [apply pf_ret|].
  apply pf_bind; [apply Hf; now left|].
  intros acc'. apply IH. intros y acc'' Hy. apply Hf. now right.
Qed.

Lemma pf_ext {L A} (m m' : IO L A) :
  (forall w, m w = m' w) -> preservesFiles m' -> preservesFiles m.
Proof. intros E H w. rewrite E. apply H. Qed.

Lemma processDirectory_preserves (gm : Codec) (args : Args) (dirPath : Path)
    (items : option (list Entry)) :
  (forall p, preservesFiles (processMarkdownFile gm args p)) ->
  preservesFiles (processDirectory gm args dirPath items).
Proof.
  intros Hv.
  eapply pf_ext; [intros w; apply processDirectory_follows_plan|].
  now apply pf_runPlan.
Qed.

Lemma collectItem_preserves (args : Args) (sourceDir : Path) (item : Entry) :
  forall dir acc, preservesFiles (collectItem args sourceDir dir item acc).
Proof.
  induction item as [name|name|name l IH|name|name] using Entry_nested_ind;
    intros dir acc; cbn [collectItem]; preserves.
  apply pf_foldIO. intros x acc' Hx.
  rewrite Forall_forall in IH. apply IH. now apply list_elem_of_In.
Qed.

Lemma targetItem_preserves (gm : Codec) (args : Args)
    (sourceFiles : list SourceFile) (ff : option (list string)) (item : Entry) :
  (forall itemPath name rel counts,
     preservesFiles (copyToTarget gm args sourceFiles ff itemPath name rel counts)) ->
  forall dir relativePath counts,
    preservesFiles (targetItem gm args sourceFiles ff dir relativePath item counts).
Proof.
  intros Hcopy.
  induction item as [name|name|name l IH|name|name] using Entry_nested_ind;
    intros dir relativePath counts; cbn [targetItem]; preserves.
  - apply Hcopy.
  - apply pf_foldIO. intros x acc' Hx.
    rewrite Forall_forall in IH. apply IH. now apply list_elem_of_In.
Qed.

Lemma copyFrontmatter_preserves (gm : Codec) (args : Args)
    (sourceDir : Path) (sourceItems : option (list Entry))
    (targetDir : Path) (targetItems : option (list Entry))
    (ff : option (list string)) :
  (forall sourceFiles itemPath name rel counts,
     preservesFiles (copyToTarget gm args sourceFiles ff itemPath name rel counts)) ->
  preservesFiles
    (copyFrontmatter gm args sourceDir sourceItems targetDir targetItems ff).
Proof.
  intros Hcopy.
  unfold copyFrontmatter, collectSourceFiles, processTargetFiles, readdirSync.
  preserves.
  - apply pf_foldIO. intros x acc _. apply collectItem_preserves.
  - apply pf_foldIO. intros x acc _. apply targetItem_preserves.
    intros. apply Hcopy.
Qed.

Lemma editor_processDirectory_preserves (args : FrontmatterEditor.Args)
    (processFn : Path -> IO FrontmatterEditor.Line unit)
    (dirPath : Path) (items : option (list Entry)) :
  (forall p w, fst (processFn p w) = Ok tt) ->
  (forall p, preservesFiles (processFn p)) ->
  preservesFiles (FrontmatterEditor.processDirectory args dirPath items processFn).
Proof.
  intros Hret Hv.
  eapply pf_ext;
    [intros w; now apply editor_processDirectory_follows_plan|].
  now apply pf_runPlan.
Qed.

(** X8.  With dryRun set a whole run writes no file: a directory run of the
    transform pipeline, a copy run of the copier, and the editor's set and
    remove commands on a file or on a directory all leave every file of the
    world as it was. *)
Theorem dry_run_of_a_whole_run_writes_nothing (gm : Codec) :
  (forall (args : Args) (dirPath : Path) (items : option (list Entry)),
     preservesFiles (processDirectory gm (setDryRun true args) dirPath items))
  /\
  (forall (args : Args) (sourceDir : Path) (sourceItems : option (list Entry))
          (targetDir : Path) (targetItems : option (list Entry))
          (ff : option (list string)),
     preservesFiles
       (copyFrontmatter gm (setDryRun true args) sourceDir sourceItems
          targetDir targetItems ff))
  /\
  (forall (JSON_parse : string -> Res value) (toNumber : string -> option number)
          (args : FrontmatterEditor.Args) (items : option (list Entry)),
     preservesFiles
       (FrontmatterEditor.setField gm JSON_parse toNumber
          (FrontmatterEditor.setDryRun true args) items) /\
     preservesFiles
       (FrontmatterEditor.removeField gm
          (FrontmatterEditor.setDryRun true args) items)).
Proof.
  split; [|split].
  - intros args dirPath items. apply processDirectory_preserves.
    intros p. apply processMarkdownFile_dry.
  - intros args sourceDir sourceItems targetDir targetItems ff.
    apply copyFrontmatter_preserves. intros. apply copyToTarget_dry.
  - intros JSON_parse toNumber args items.
    assert (Hdir : forall fn dirPath,
              preservesFiles
                (FrontmatterEditor.processDirectory
                   (FrontmatterEditor.setDryRun true args) dirPath items
                   (fun filePath =>
                      FrontmatterEditor.updateFile gm
                        (FrontmatterEditor.setDryRun true args) filePath fn))).
    { intros fn dirPath. apply editor_processDirectory_preserves.
      - intros p w. apply updateFile_returns.
      - intros p. apply updateFile_dry. }
    split.
    + unfold FrontmatterEditor.setField.
      cbn [FrontmatterEditor.setDryRun FrontmatterEditor.file
           FrontmatterEditor.directory FrontmatterEditor.field
           FrontmatterEditor.value].
      repeat first
        [ apply updateFile_dry | apply Hdir | apply pf_ret | apply pf_log
        | apply pf_bind; [|intros ?]
        | match goal with
          | |- preservesFiles (if ?b then _ else _) => destruct b
          | |- preservesFiles (match ?x with _ => _ end) => destruct x
          end ].
    + unfold FrontmatterEditor.removeField.
      cbn [FrontmatterEditor.setDryRun FrontmatterEditor.file
           FrontmatterEditor.directory FrontmatterEditor.field].
      repeat first
        [ apply updateFile_dry | apply Hdir | apply pf_ret | apply pf_log
        | apply pf_bind; [|intros ?]
        | match goal with
          | |- preservesFiles (if ?b then _ else _) => destruct b
          | |- preservesFiles (match ?x with _ => _ end) => destruct x
          end ].
Qed.

(** In analyze mode [processMarkdownFile] writes no file. *)
Lemma analyze_writes_nothing (gm : Codec) (args : Args) (p : Path) :
  mode args = "analyze" ->
  preservesFiles (processMarkdownFile gm args p).
Proof.
  intros Hm w. unfold processMarkdownFile, processMarkdownFile_body.
  unfold tryCatch, bind, ret, lift, log, logAll, readFileSync.
  destruct (match pattern args with
            | Some test => negb (test (basename p))
            | None => false
            end); [destruct (verbose args); reflexivity|].
  destruct (files w !! p) as [f|]; [|reflexivity].
  destruct (readable f); [|reflexivity].
  destruct (matter gm (content f)) as [parsed|e]; [|reflexivity].
  unfold transform, modeSwitch, mbind. rewrite Hm. simpl.
  reflexivity.
Qed.

(** X9.  In analyze mode and in validate mode a directory run writes no
    file, whether or not dryRun is set and whatever field operations
    (add-field, remove-field, rename-field) are requested with it: these
    modes return from the file before the field operations and the
    write. *)
Theorem analysis_modes_write_nothing
    (gm : Codec) (args : Args) (dirPath : Path) (items : option (list Entry)) :
  mode args = "analyze" \/ mode args = "validate" ->
  preservesFiles (processDirectory gm args dirPath items).
Proof.
  intros Hm. apply processDirectory_preserves. intros p.
  destruct Hm as [Hm|Hm];
    [now apply analyze_writes_nothing | now apply validate_writes_nothing].
Qed.

Lemma analysis_modes_write_nothing_witness :
  let args := mkArgs ["title"] "," false true false "validate" ".md"
                (Some "draft") (Some "true") None None None false false None
                "yaml" false in
  files (snd (processDirectory (Ex.fixedCodec []) args ["content"] Ex.twoPosts
                Ex.contentWorld)) = files Ex.contentWorld.
Proof.
  intros args.
  apply (analysis_modes_write_nothing (Ex.fixedCodec []) args ["content"]
           Ex.twoPosts).
  right. reflexivity.
Defined.

(** *** An entry that cannot be examined *)

Lemma planLoop_stops {L} (planOne : Entry -> list (Step L) * option Error)
    (name : string) (e : Error) (before after : list Entry) :
  planOne (ENoStat name) = ([], Some e) ->
  planLoop planOne (before ++ ENoStat name :: after)%list =
  planLoop planOne (before ++ [ENoStat name])%list.
Proof.
  intros Hstat. induction before as [|item before IH]; simpl.
  - now rewrite Hstat.
  - destruct (planOne item) as [steps [e'|]]; [reflexivity|].
    now rewrite IH.
Qed.

(** X10.  When [fs.statSync] fails on an entry of a directory, the walk of
    that directory ends there: the entries listed after it are neither
    examined nor processed, whatever they are.  The run is the one of the
    directory cut after the failing entry. *)
Theorem entries_after_a_failed_stat_are_skipped
    (gm : Codec) (args : Args) (dirPath : Path) (name : string)
    (before after : list Entry) (w : World Line) :
  processDirectory gm args dirPath
    (Some (before ++ ENoStat name :: after)%list) w =
  processDirectory gm args dirPath (Some (before ++ [ENoStat name])%list) w.
Proof.
  rewrite !processDirectory_follows_plan. unfold planDirectory, planListing.
  now rewrite (planLoop_stops (planItem args dirPath) name
                 (ENoEntry (path_join dirPath name)) before after).
Qed.

(** *** The copier *)

Lemma copyFields_fold (src : object) (fs : list string) :
  forall (acc : object * bool) (k : string),
    let r := fold_left
               (fun acc field =>
                  match obj_get src field with
                  | Some v => (obj_set (fst acc) field v, true)
                  | None => acc
                  end) fs acc in
    obj_get (fst r) k =
      (if existsb (String.eqb k) fs && hasOwnProperty src k
       then obj_get src k else obj_get (fst acc) k) /\
    snd r = snd acc || existsb (hasOwnProperty src) fs.
Proof.
  induction fs as [|f fs IH]; intros acc k; simpl.
  - split; [reflexivity | now rewrite orb_false_r].
  - assert (Hhas : hasOwnProperty src f =
                   match obj_get src f with Some _ => true | None => false end)
      by reflexivity.
    destruct (obj_get src f) as [v|] eqn:Hf.
    + destruct (IH (obj_set (fst acc) f v, true) k) as [Hget Hmod].
      rewrite Hget, Hmod, Hhas. simpl. split; [|now rewrite orb_true_r].
      destruct (String.eqb_spec k f) as [->|Hne]; simpl.
      * unfold hasOwnProperty. rewrite Hf, obj_get_set_eq.
        destruct (existsb (String.eqb f) fs); reflexivity.
      * rewrite obj_get_set_ne by congruence. reflexivity.
    + destruct (IH acc k) as [Hget Hmod].
      rewrite Hget, Hmod, Hhas. simpl. split; [|reflexivity].
      destruct (String.eqb_spec k f) as [->|Hne]; simpl; [|reflexivity].
      unfold hasOwnProperty. rewrite Hf. now rewrite andb_false_r.
Qed.

(** X11.  What the copier makes of a target's metadata: a field that is in
    the list of fields to update and that the source defines gets the
    source's value, overwriting the target's; every other field keeps the
    target's value; and the target counts as modified exactly when the
    source defines at least one field of the list. *)
Theorem copied_fields_come_from_the_source
    (sourceData targetData : object) (fieldsToUpdate : list string) :
  let r := copyFields sourceData fieldsToUpdate targetData in
  (forall k v, In k fieldsToUpdate -> obj_get sourceData k = Some v ->
     obj_get (fst r) k = Some v) /\
  (forall k, ~ In k fieldsToUpdate \/ obj_get sourceData k = None ->
     obj_get (fst r) k = obj_get targetData k) /\
  (snd r = true <->
   exists k, In k fieldsToUpdate /\ obj_get sourceData k <> None).
Proof.
  intros r. subst r. unfold copyFields.
  split; [|split].
  - intros k v Hin Hsrc.
    destruct (copyFields_fold sourceData fieldsToUpdate (targetData, false) k)
      as [-> _].
    assert (E : existsb (String.eqb k) fieldsToUpdate = true).
    { apply existsb_exists. exists k. split; [exact Hin | apply String.eqb_refl]. }
    unfold hasOwnProperty. now rewrite E, Hsrc.
  - intros k Hk.
    destruct (copyFields_fold sourceData fieldsToUpdate (targetData, false) k)
      as [-> _]. simpl.
    destruct Hk as [Hnin|Hnone].
    + assert (E : existsb (String.eqb k) fieldsToUpdate = false).
      { apply not_true_is_false. intros E. apply existsb_exists in E
          as (x & Hx & Hkx). apply String.eqb_eq in Hkx. now subst. }
      now rewrite E.
    + unfold hasOwnProperty. rewrite Hnone. now rewrite andb_false_r.
  - destruct (copyFields_fold sourceData fieldsToUpdate (targetData, false) "")
      as [_ ->]. simpl. rewrite existsb_exists. unfold hasOwnProperty.
    split; intros (k & Hin & Hk); exists k; split; try exact Hin.
    + destruct (obj_get sourceData k); [discriminate|discriminate].
    + destruct (obj_get sourceData k); [reflexivity | contradiction].
Qed.

Lemma copied_fields_come_from_the_source_witness :
  let r := copyFields [("title", VStr "A")] ["title"]
             [("title", VStr "B"); ("draft", VBool true)] in
  fst r = [("title", VStr "A"); ("draft", VBool true)] /\
  obj_get (fst r) "title" = Some (VStr "A") /\
  obj_get (fst r) "draft" = Some (VBool true).
Proof.
  intros r. subst r. split; [reflexivity|].
  destruct (copied_fields_come_from_the_source [("title", VStr "A")]
              [("title", VStr "B"); ("draft", VBool true)] ["title"])
    as (Hsrc & Htgt & _).
  split.
  - apply Hsrc; [simpl; now left | reflexivity].
  - rewrite (Htgt "draft"); [reflexivity|]. right. reflexivity.
Defined.

Lemma foldIO_invariant {L A S} (I : S -> Prop) (f : A -> S -> IO L S)
    (l : list A) :
  (forall x acc w acc' w',
     In x l -> I acc -> f x acc w = (Ok acc', w') -> I acc') ->
  forall acc w r w',
    I acc -> foldIO f l acc w = (Ok r, w') -> I r.
Proof.
  induction l as [|x l IH]; intros Hf acc w r w' Hacc Hrun.
  - injection Hrun as <- _. exact Hacc.
  - cbn [foldIO] in Hrun. unfold bind in Hrun.
    destruct (f x acc w) as [[acc1|e] w1] eqn:Hx; [|discriminate].
    apply (IH (fun y a v a' v' Hy => Hf y a v a' v' (or_intror Hy))
              acc1 w1 r w'); [|exact Hrun].
    apply (Hf x acc w acc1 w1); [now left | exact Hacc | exact Hx].
Qed.

Lemma path_relative_below (dir rel : Path) :
  path_relative dir (dir ++ rel)%list = rel.
Proof. unfold path_relative. apply drop_app_length. Qed.

Lemma collectItem_wellListed (args : Args) (sourceDir : Path) (item : Entry) :
  forall reldir acc w acc' w',
    Forall (wellListed sourceDir) acc ->
    collectItem args sourceDir (sourceDir ++ reldir)%list item acc w = (Ok acc', w') ->
    Forall (wellListed sourceDir) acc'.
Proof.
  induction item as [name|name|name l IH|name|name] using Entry_nested_ind;
    intros reldir acc w acc' w' Hacc Hrun; cbn [collectItem] in Hrun.
  - destruct (hasExtension args name); injection Hrun as <- _; [|exact Hacc].
    apply Forall_app. split; [exact Hacc|]. constructor; [|constructor].
    unfold wellListed, path_join. cbn [sfPath sfName sfRelativePath].
    rewrite <- app_assoc, path_relative_below.
    split; [reflexivity|]. split; [now destruct reldir|].
    unfold basename. now rewrite last_last.
  - destruct (recursive args); [discriminate|].
    injection Hrun as <- _. exact Hacc.
  - destruct (recursive args); [|injection Hrun as <- _; exact Hacc].
    revert Hrun. unfold path_join. rewrite <- app_assoc. intros Hrun.
    eapply (foldIO_invariant (Forall (wellListed sourceDir)));
      [|exact Hacc|exact Hrun].
    intros x a v a' v' Hx Ha Hstep.
    rewrite Forall_forall in IH.
    apply (IH x (proj2 (list_elem_of_In _ _) Hx) _ a v a' v' Ha Hstep).
  - injection Hrun as <- _. exact Hacc.
  - discriminate.
Qed.

Lemma collectSourceFiles_wellListed (args : Args) (sourceDir : Path)
    (items : option (list Entry)) (w w' : World Line)
    (sourceFiles : list SourceFile) :
  collectSourceFiles args sourceDir items w = (Ok sourceFiles, w') ->
  Forall (wellListed sourceDir) sourceFiles.
Proof.
  unfold collectSourceFiles, readdirSync, bind. intros Hrun.
  destruct items as [l|]; [|discriminate]. simpl in Hrun.
  eapply (foldIO_invariant (Forall (wellListed sourceDir)));
    [|constructor|exact Hrun].
  intros x a v a' v' _ Ha Hstep.
  rewrite <- (app_nil_r sourceDir) in Hstep at 2.
  now apply (collectItem_wellListed args sourceDir x [] a v a' v').
Qed.

(** X12.  For the list of source files that [collectSourceFiles] builds,
    and a target whose relative path ends with its name (as
    [processTargetFiles] forms it), the matching source file is the first
    one with the same basename: comparing the relative paths never decides
    the match, since a source with the target's relative path also has its
    basename. *)
Theorem copier_match_is_by_basename
    (args : Args) (sourceDir : Path) (items : option (list Entry))
    (w w' : World Line) (sourceFiles : list SourceFile)
    (relativePath : Path) (item : string) :
  collectSourceFiles args sourceDir items w = (Ok sourceFiles, w') ->
  findMatchingSourceFile sourceFiles item (path_join relativePath item) =
    find (fun sf => sfName sf =? item) sourceFiles.
Proof.
  intros Hrun. apply collectSourceFiles_wellListed in Hrun.
  unfold findMatchingSourceFile.
  induction Hrun as [|sf l (_ & _ & Hname) _ IH]; [reflexivity|].
  cbn [find]. rewrite IH.
  destruct (String.eqb_spec (sfName sf) item) as [Heq|Hne]; [reflexivity|].
  destruct (bool_decide_reflect (sfRelativePath sf = path_join relativePath item))
    as [Hrel|Hrel]; [|reflexivity].
  exfalso. apply Hne. rewrite Hname, Hrel. apply basename_path_join.
Qed.

Lemma copier_match_is_by_basename_witness :
  findMatchingSourceFile
    [mkSourceFile ["src"; "guides"; "intro.md"] "intro.md" ["guides"; "intro.md"];
     mkSourceFile ["src"; "intro.md"] "intro.md" ["intro.md"]]
    "intro.md" (path_join [] "intro.md") =
  Some (mkSourceFile ["src"; "guides"; "intro.md"] "intro.md"
                     ["guides"; "intro.md"]).
Proof.
  rewrite (copier_match_is_by_basename defaults ["src"] Ex.sourceTree
             Ex.noFiles Ex.noFiles
             [mkSourceFile ["src"; "guides"; "intro.md"] "intro.md"
                           ["guides"; "intro.md"];
              mkSourceFile ["src"; "intro.md"] "intro.md" ["intro.md"]]
             [] "intro.md").
  - reflexivity.
  - vm_compute. reflexivity.
Defined.

Lemma copyToTarget_counts (gm : Codec) (args : Args)
    (sourceFiles : list SourceFile) (ff : option (list string))
    (itemPath : Path) (item : string) (rel : Path) (counts c : nat * nat)
    (w w' : World Line) :
  (snd counts <= fst counts)%nat ->
  copyToTarget gm args sourceFiles ff itemPath item rel counts w = (Ok c, w') ->
  (snd c <= fst c)%nat.
Proof.
  unfold copyToTarget. unfold_io. intros Hle H.
  repeat case_io; simpl; lia.
Qed.

Lemma targetItem_counts (gm : Codec) (args : Args)
    (sourceFiles : list SourceFile) (ff : option (list string)) (item : Entry) :
  forall dir relativePath counts w c w',
    (snd counts <= fst counts)%nat ->
    targetItem gm args sourceFiles ff dir relativePath item counts w = (Ok c, w') ->
    (snd c <= fst c)%nat.
Proof.
  induction item as [name|name|name l IH|name|name] using Entry_nested_ind;
    intros dir relativePath counts w c w' Hle Hrun; cbn [targetItem] in Hrun.
  - destruct (hasExtension args name).
    + eapply copyToTarget_counts; [exact Hle | exact Hrun].
    + injection Hrun as <- _. exact Hle.
  - destruct (recursive args); [discriminate|].
    injection Hrun as <- _. exact Hle.
  - destruct (recursive args); [|injection Hrun as <- _; exact Hle].
    eapply (foldIO_invariant (fun c : nat * nat => (snd c <= fst c)%nat));
      [|exact Hle|exact Hrun].
    intros x a v a' v' Hx Ha Hstep.
    rewrite Forall_forall in IH.
    apply (IH x (proj2 (list_elem_of_In _ _) Hx) _ _ a v a' v' Ha Hstep).
  - injection Hrun as <- _. exact Hle.
  - discriminate.
Qed.

(** X13.  The two counters of a copy run: whenever [processTargetFiles]
    returns, the number of modified files it reports is at most the number
    of matched files. *)
Theorem copier_modified_at_most_matched
    (gm : Codec) (args : Args) (sourceFiles : list SourceFile)
    (ff : option (list string)) (targetDir : Path)
    (items : option (list Entry)) (w w' : World Line)
    (matchedFiles modifiedFiles : nat) :
  processTargetFiles gm args sourceFiles ff targetDir items w =
    (Ok (matchedFiles, modifiedFiles), w') ->
  (modifiedFiles <= matchedFiles)%nat.
Proof.
  unfold processTargetFiles, readdirSync, bind. intros Hrun.
  destruct items as [l|]; [|discriminate]. simpl in Hrun.
  apply (foldIO_invariant (fun c : nat * nat => (snd c <= fst c)%nat)
           (targetItem gm args sourceFiles ff targetDir []) l)
    with (acc := (0, 0)%nat) (w := w) (r := (matchedFiles, modifiedFiles))
         (w' := w'); [|simpl; lia|exact Hrun].
  intros x a v a' v' _ Ha Hstep.
  eapply targetItem_counts; [exact Ha | exact Hstep].
Qed.

Lemma copier_modified_at_most_matched_witness :
  fst (processTargetFiles Ex.titleCodec defaults Ex.copySources None ["dst"]
         (Some [EFile "b.md"; EFile "c.md"]) Ex.copyWorld) = Ok (1, 1)%nat /\
  (1 <= 1)%nat.
Proof.
  split; [vm_compute; reflexivity|].
  destruct (processTargetFiles Ex.titleCodec defaults Ex.copySources None ["dst"]
              (Some [EFile "b.md"; EFile "c.md"]) Ex.copyWorld) as [r w'] eqn:E.
  assert (Hr : r = Ok (1, 1)%nat).
  { change r with (fst (r, w')). rewrite <- E. vm_compute. reflexivity. }
  subst r.
  exact (copier_modified_at_most_matched _ _ _ _ _ _ _ _ _ _ E).
Defined.

Lemma co_foldIO {L A S} (P : Path -> Prop) (f : A -> S -> IO L S) (l : list A) :
  (forall x acc, In x l -> changesOnly P (f x acc)) ->
  forall acc, changesOnly P (foldIO f l acc).
Proof.
  induction l as [|x l IH]; intros Hf acc.
  - apply co_preserves, pf_ret.
  - apply co_bind; [apply Hf; now left|].
    intros acc'. apply IH. intros y a Hy. apply Hf. now right.
Qed.

Lemma copyToTarget_changesOnly (gm : Codec) (args : Args)
    (sourceFiles : list SourceFile) (ff : option (list string))
    (itemPath : Path) (item : string) (rel : Path) (counts : nat * nat) :
  changesOnly (fun q => q = itemPath)
    (copyToTarget gm args sourceFiles ff itemPath item rel counts).
Proof. unfold copyToTarget. changes_only. reflexivity. Qed.

Lemma targetItem_changesOnly (gm : Codec) (args : Args)
    (sourceFiles : list SourceFile) (ff : option (list string)) (item : Entry) :
  forall dir relativePath counts,
    changesOnly (targetFile args dir)
      (targetItem gm args sourceFiles ff dir relativePath item counts).
Proof.
  induction item as [name|name|name l IH|name|name] using Entry_nested_ind;
    intros dir relativePath counts; cbn [targetItem].
  - destruct (hasExtension args name) eqn:Hext;
      [|apply co_preserves, pf_ret].
    eapply co_weaken; [|apply copyToTarget_changesOnly].
    intros q ->. exists [name]. rewrite basename_path_join.
    repeat split; first [exact Hext | intros H; inversion H].
  - destruct (recursive args); [apply co_preserves, pf_throw
                               |apply co_preserves, pf_ret].
  - destruct (recursive args) eqn:Hrec; [|apply co_preserves, pf_ret].
    apply co_foldIO. intros x acc Hx.
    rewrite Forall_forall in IH.
    eapply co_weaken;
      [|apply (IH x (proj2 (list_elem_of_In _ _) Hx) (path_join dir name))].
    intros q (rel & -> & Hrel & Hext & _).
    exists (name :: rel). unfold path_join in *.
    rewrite <- app_assoc in Hext. rewrite <- app_assoc.
    split; [reflexivity|]. split; [intros H; inversion H|].
    split; [exact Hext | intros H; congruence].
  - apply co_preserves, pf_ret.
  - apply co_preserves, pf_throw.
Qed.

(** X14.  A copy run changes no file other than target files: files below
    the target directory (directly in it when the run is not recursive)
    whose name ends with one of the extensions.  In particular it never
    writes to a source file that is not also such a target. *)
Theorem copy_run_changes_only_target_files
    (gm : Codec) (args : Args) (sourceDir : Path)
    (sourceItems : option (list Entry)) (targetDir : Path)
    (targetItems : option (list Entry)) (ff : option (list string)) :
  changesOnly (targetFile args targetDir)
    (copyFrontmatter gm args sourceDir sourceItems targetDir targetItems ff).
Proof.
  unfold copyFrontmatter, collectSourceFiles, processTargetFiles, readdirSync.
  apply co_tryCatch; [|intros e; apply co_preserves, pf_log].
  apply co_bind; [apply co_preserves, pf_log|]. intros _.
  apply co_bind.
  { apply co_preserves. apply pf_bind.
    - destruct sourceItems; [apply pf_ret | apply pf_throw].
    - intros l. apply pf_foldIO. intros x acc _. apply collectItem_preserves. }
  intros sourceFiles.
  apply co_bind; [apply co_preserves, pf_log|]. intros _.
  apply co_bind; [|intros c; apply co_preserves, pf_log].
  apply co_bind.
  - destruct targetItems; apply co_preserves; [apply pf_ret | apply pf_throw].
  - intros l. apply co_foldIO. intros x acc _. apply targetItem_changesOnly.
Qed.

(** *** Statistics *)

Lemma collectStats_fold (d : object) (ks : list string) (st : FileStats) :
  let r := fold_left
    (fun st key =>
       let v := obj_get d key in
       if isArray v then
         mkStats (S (statFields st)) (S (statArrays st)) (statStrings st) (statOther st)
       else if isString v then
         mkStats (S (statFields st)) (statArrays st) (S (statStrings st)) (statOther st)
       else
         mkStats (S (statFields st)) (statArrays st) (statStrings st) (S (statOther st)))
    ks st in
  statFields r = (statFields st + length ks)%nat /\
  (statArrays r + statStrings r + statOther r =
   statArrays st + statStrings st + statOther st + length ks)%nat.
Proof.
  revert st. induction ks as [|k ks IH]; intros st; simpl; [lia|].
  destruct (isArray (obj_get d k)); [|destruct (isString (obj_get d k))];
    match goal with |- context [fold_left _ ks ?s] => destruct (IH s) as [H1 H2] end;
    simpl in *; lia.
Qed.

(** X15.  The statistics of a file: the number of fields counted is the
    number of keys of the metadata, and every field is counted in exactly
    one of the three classes, so arrays, strings and other add up to the
    number of fields. *)
Theorem stats_add_up (d : object) :
  statFields (collectStats d) = length (keys d) /\
  (statArrays (collectStats d) + statStrings (collectStats d) +
   statOther (collectStats d) = statFields (collectStats d))%nat.
Proof.
  unfold collectStats.
  destruct (collectStats_fold d (keys d) (mkStats 0 0 0 0)) as [H1 H2].
  simpl in *. lia.
Qed.

(** *** Running the pipeline again on a file *)

(** X16.  A second run over a file that a to-array run has just rewritten
    writes nothing.  Let the file parse, let a to-array run without field
    operations and without dryRun modify it and write the rendering of the
    new metadata, and let that rendering parse back to the new metadata
    (the codec's round trip).  Then running [processMarkdownFile] again
    with the same options leaves every file as the first run left it. *)
Theorem second_run_writes_nothing
    (gm : Codec) (args : Args) (p : Path) (w : World Line)
    (f : File) (d : object) (body text : string) :
  mode args = "to-array" ->
  addField args = None -> removeField args = None -> renameField args = None ->
  dryRun args = false ->
  patternAccepts args (basename p) ->
  files w !! p = Some f -> readable f = true -> writable f = true ->
  matter gm (content f) = Ok (d, body) ->
  let s1 := snd (transform args (basename p) (start d)) in
  modified s1 = true ->
  stringify gm body (data s1) (language args) = Ok text ->
  matter gm text = Ok (data s1, body) ->
  let w1 := snd (processMarkdownFile gm args p w) in
  files w1 !! p = Some (mkFile text true true) /\
  files (snd (processMarkdownFile gm args p w1)) = files w1.
Proof.
  intros Hm Ha Hr Hn Hdry Hpat Hfile Hread Hwrite Hparse s1 Hmod Hstr Hback w1.
  assert (Hpat' : match pattern args with
                  | Some test => negb (test (basename p))
                  | None => false
                  end = false).
  { unfold patternAccepts in Hpat. destruct (pattern args); [|reflexivity].
    now rewrite Hpat. }
  assert (Hfirst : transform args (basename p) (start d) = (None, s1)).
  { subst s1. unfold transform, mbind.
    rewrite modeSwitch_converts by (rewrite Hm; discriminate).
    simpl. unfold fieldOperations, addFieldStep, removeFieldStep,
      renameFieldStep, mbind, mret. now rewrite Ha, Hr, Hn. }
  assert (Hw1 : files w1 =
                <[p := mkFile text true true]> (files w)).
  { subst w1. unfold processMarkdownFile, processMarkdownFile_body.
    unfold_io. rewrite Hpat', Hfile, Hread, Hparse. simpl.
    rewrite Hfirst, Hmod, Hstr, Hdry, Hfile, Hwrite. simpl.
    destruct (stats args); simpl; now rewrite Hread. }
  split; [rewrite Hw1; apply lookup_insert_eq|].
  assert (Hsecond : transform args (basename p) (start (data s1)) =
                    (None, start (data s1))).
  { subst s1. rewrite !transform_to_array_loop by assumption. cbn [snd].
    now rewrite to_array_loop_settled. }
  unfold processMarkdownFile at 1, processMarkdownFile_body.
  unfold_io. rewrite Hpat', Hw1, lookup_insert_eq. simpl.
  rewrite Hback. simpl. rewrite Hsecond. simpl.
  destruct (verbose args), (stats args); simpl; now rewrite Hw1.
Qed.

Lemma second_run_writes_nothing_witness :
  let gm :=
    mkCodec (fun text => if text =? "new"
                         then Ok ([("tags", VArr [VStr "a"; VStr "b"])], "body")
                         else Ok ([("tags", VStr "a, b")], "body"))
            (fun _ _ _ => Ok "new") in
  let args := mkArgs ["tags"] "," false true false "to-array" ".md"
                None None None None None false false None "yaml" false in
  let w1 := snd (processMarkdownFile gm args ["post.md"] Ex.plainPost) in
  files w1 !! ["post.md"] = Some (mkFile "new" true true) /\
  files (snd (processMarkdownFile gm args ["post.md"] w1)) = files w1.
Proof.
  intros gm args.
  apply (second_run_writes_nothing gm args ["post.md"] Ex.plainPost
           (mkFile "text" true true) [("tags", VStr "a, b")] "body" "new");
    reflexivity.
Defined.

(** *** The editor: set and remove *)

(** X17.  The update of the set command stores the value under the field,
    leaves every other field with its value, and always reports a
    modification, even when the field already held that value.  A field
    that was present keeps its place among the keys.  A new field takes
    the place JavaScript gives a new key: last when its name is no array
    index, and otherwise among the array indices, in front of the other
    keys; the other keys keep their order, and keys in the order of
    enumeration stay in that order.  Setting twice is setting the last
    value once. *)
Theorem set_update_stores_the_value
    (name : string) (v : value) (data : object) :
  let r := FrontmatterEditor.setUpdate name v data in
  obj_get (fst r) name = Some v /\
  (forall k, k <> name -> obj_get (fst r) k = obj_get data k) /\
  (hasOwnProperty data name = true -> keys (fst r) = keys data) /\
  (hasOwnProperty data name = false -> arrayIndex name = None ->
   keys (fst r) = (keys data ++ [name])%list) /\
  (hasOwnProperty data name = false ->
   exists before after,
     keys data = (before ++ after)%list /\
     keys (fst r) = (before ++ name :: after)%list) /\
  (enumerationOrder (keys data) -> enumerationOrder (keys (fst r))) /\
  FrontmatterEditor.modified (snd r) = true /\
  FrontmatterEditor.message (snd r) =
    FrontmatterEditor.MSet name v (obj_get data name) /\
  (forall v0,
     fst (FrontmatterEditor.setUpdate name v
            (fst (FrontmatterEditor.setUpdate name v0 data))) = fst r).
Proof.
  intros r. subst r. unfold FrontmatterEditor.setUpdate. simpl.
  assert (Hnin : hasOwnProperty data name = false -> ~ In name (keys data))
    by (intros Hn Hin; apply hasOwnProperty_In in Hin; congruence).
  split; [apply obj_get_set_eq|].
  split; [intros k Hk; apply obj_get_set_ne; congruence|].
  split; [intros Hin; apply keys_obj_set_present; now apply hasOwnProperty_In|].
  split; [intros Hn Hk; apply keys_obj_set_absent; auto|].
  split; [intros Hn; apply keys_obj_set_split; auto|].
  split; [apply obj_set_enumerationOrder|].
  split; [reflexivity|]. split; [reflexivity|].
  intros v0. apply obj_set_set.
Qed.

(** A field named by a year is a new key that is an array index: set puts
    it in front of the title. *)
Lemma set_update_stores_the_value_witness :
  let r := FrontmatterEditor.setUpdate "2024" (VStr "x") [("title", VStr "T")] in
  exists before after,
    keys [("title", VStr "T")] = (before ++ after)%list /\
    keys (fst r) = (before ++ "2024" :: after)%list.
Proof.
  intros r.
  destruct (set_update_stores_the_value "2024" (VStr "x") [("title", VStr "T")])
    as (_ & _ & _ & _ & Hplace & _).
  apply Hplace. reflexivity.
Defined.

(** X18.  Removing a field that set has just added gives the metadata
    back: when the field was absent, the update of remove applied after the
    update of set returns the original metadata, keys in their original
    order, and reports the value set as the old value. *)
Theorem remove_after_set_restores
    (name : string) (v : value) (data : object) :
  obj_get data name = None ->
  FrontmatterEditor.removeUpdate name
    (fst (FrontmatterEditor.setUpdate name v data)) =
  (data, FrontmatterEditor.mkResult true (FrontmatterEditor.MRemoved name v)).
Proof.
  intros Hget. unfold FrontmatterEditor.removeUpdate, FrontmatterEditor.setUpdate.
  simpl. rewrite obj_get_set_eq. now rewrite obj_delete_set_fresh.
Qed.

Lemma remove_after_set_restores_witness :
  FrontmatterEditor.removeUpdate "status"
    (fst (FrontmatterEditor.setUpdate "status" (VStr "draft")
            [("title", VStr "T")])) =
  ([("title", VStr "T")],
   FrontmatterEditor.mkResult true
     (FrontmatterEditor.MRemoved "status" (VStr "draft"))).
Proof.
  apply (remove_after_set_restores "status" (VStr "draft") [("title", VStr "T")]).
  reflexivity.
Defined.

(** X19.  Removing a field that a file does not have writes nothing, even
    without dryRun: the file is read and parsed, the update reports no
    modification, and the only effect is the skip line when verbose is
    set. *)
Theorem remove_of_absent_field_writes_nothing
    (gm : Codec) (args : FrontmatterEditor.Args) (p : Path) (name : string)
    (w : World FrontmatterEditor.Line) (f : File) (d : object) (body : string) :
  files w !! p = Some f -> readable f = true ->
  matter gm (content f) = Ok (d, body) ->
  obj_get d name = None ->
  FrontmatterEditor.updateFile gm args p (FrontmatterEditor.removeUpdate name) w =
    (Ok tt,
     mkWorld (files w)
       (console w ++
        if FrontmatterEditor.verbose args
        then [FrontmatterEditor.LSkipped p (FrontmatterEditor.MNotFound name)]
        else [])).
Proof.
  intros Hfile Hread Hparse Hget.
  unfold FrontmatterEditor.updateFile, FrontmatterEditor.updateFile_body,
    FrontmatterEditor.removeUpdate.
  unfold_io. rewrite Hfile, Hread, Hparse. simpl. rewrite Hget. simpl.
  destruct (FrontmatterEditor.verbose args); simpl; [reflexivity|].
  rewrite app_nil_r. now destruct w.
Qed.

Lemma remove_of_absent_field_writes_nothing_witness :
  let args := FrontmatterEditor.mkArgs (Some "remove") (Some ["post.md"]) None
                (Some "draft") None "yaml" false false true ".md,.markdown" None in
  let w := mkWorld {[ ["post.md"] := mkFile "text" true true ]} [] in
  FrontmatterEditor.updateFile (Ex.fixedCodec [("title", VStr "T")]) args
    ["post.md"] (FrontmatterEditor.removeUpdate "draft") w =
  (Ok tt,
   mkWorld (files w)
     [FrontmatterEditor.LSkipped ["post.md"] (FrontmatterEditor.MNotFound "draft")]).
Proof.
  intros args w.
  apply (remove_of_absent_field_writes_nothing
           (Ex.fixedCodec [("title", VStr "T")]) args ["post.md"] "draft" w
           (mkFile "text" true true) [("title", VStr "T")] "text");
    reflexivity.
Defined.

(** X20.  A set that succeeds is on disk: for a readable, writable file
    that parses, without dryRun, [updateFile] with the update of set
    replaces the file's text by the rendering of the metadata with the
    field set, keeps the body, and prints one update line carrying the old
    value.  When that rendering parses back to what was rendered, the
    field reads back from the file with the value set. *)
Theorem set_is_written_and_reads_back
    (gm : Codec) (args : FrontmatterEditor.Args) (p : Path) (name : string)
    (v : value) (w : World FrontmatterEditor.Line) (f : File) (d : object)
    (body text : string) :
  FrontmatterEditor.dryRun args = false ->
  files w !! p = Some f -> readable f = true -> writable f = true ->
  matter gm (content f) = Ok (d, body) ->
  stringify gm body (obj_set d name v) (FrontmatterEditor.language args) =
    Ok text ->
  let w' := snd (FrontmatterEditor.updateFile gm args p
                   (FrontmatterEditor.setUpdate name v) w) in
  files w' = <[p := mkFile text true true]> (files w) /\
  console w' =
    (console w ++
     [FrontmatterEditor.LUpdated false p
        (FrontmatterEditor.MSet name v (obj_get d name))])%list /\
  (matter gm text = Ok (obj_set d name v, body) ->
   exists text' d',
     fst (@readFileSync FrontmatterEditor.Line p w') = Ok text' /\
     matter gm text' = Ok (d', body) /\
     obj_get d' name = Some v).
Proof.
  intros Hdry Hfile Hread Hwrite Hparse Hstr w'.
  assert (Hw' : w' = mkWorld (<[p := mkFile text true true]> (files w))
                       (console w ++
                        [FrontmatterEditor.LUpdated false p
                           (FrontmatterEditor.MSet name v (obj_get d name))])).
  { subst w'. unfold FrontmatterEditor.updateFile,
      FrontmatterEditor.updateFile_body, FrontmatterEditor.setUpdate.
    unfold_io. rewrite Hfile, Hread, Hparse. simpl.
    rewrite Hdry, Hstr, Hfile, Hwrite. simpl. now rewrite Hread. }
  rewrite Hw'. simpl. split; [reflexivity|]. split; [reflexivity|].
  intros Hback.
  exists text, (obj_set d name v). unfold readFileSync. simpl. rewrite lookup_insert_eq. simpl.
  split; [reflexivity|]. split; [exact Hback | apply obj_get_set_eq].
Qed.

Lemma set_is_written_and_reads_back_witness :
  let gm :=
    mkCodec (fun text => if text =? "new"
                         then Ok ([("status", VStr "draft")], "body")
                         else Ok ([], "body"))
            (fun _ _ _ => Ok "new") in
  let args := FrontmatterEditor.mkArgs (Some "set") (Some ["post.md"]) None
                (Some "status") (Some "draft") "yaml" false false false
                ".md,.markdown" None in
  let w := mkWorld {[ ["post.md"] := mkFile "text" true true ]} [] in
  let w' := snd (FrontmatterEditor.updateFile gm args ["post.md"]
                   (FrontmatterEditor.setUpdate "status" (VStr "draft")) w) in
  files w' = <[ ["post.md"] := mkFile "new" true true ]> (files w) /\
  console w' =
    [FrontmatterEditor.LUpdated false ["post.md"]
       (FrontmatterEditor.MSet "status" (VStr "draft") None)] /\
  exists text' d',
    fst (@readFileSync FrontmatterEditor.Line ["post.md"] w') = Ok text' /\
    matter gm text' = Ok (d', "body") /\
    obj_get d' "status" = Some (VStr "draft").
Proof.
  intros gm args w w'.
  destruct (set_is_written_and_reads_back gm args ["post.md"] "status"
              (VStr "draft") w (mkFile "text" true true) [] "body" "new")
    as (Hfiles & Hconsole & Hback); try reflexivity.
  split; [exact Hfiles|]. split; [exact Hconsole|].
  apply Hback. reflexivity.
Defined.

(** X21.  A set or remove command with incomplete arguments touches
    nothing: without file and directory, without a field, or (for set)
    without a value, the command prints one usage error and exits with
    code 1, and no file is read or written. *)
Theorem incomplete_commands_exit_without_effect
    (gm : Codec) (JSON_parse : string -> Res value)
    (toNumber : string -> option number) (args : FrontmatterEditor.Args)
    (items : option (list Entry)) (w : World FrontmatterEditor.Line) :
  ((FrontmatterEditor.file args = None /\ FrontmatterEditor.directory args = None)
   \/ given (FrontmatterEditor.field args) = false
   \/ FrontmatterEditor.value args = None ->
   exists what,
     FrontmatterEditor.setField gm JSON_parse toNumber args items w =
       (Ok (FrontmatterEditor.Exited 1),
        mkWorld (files w) (console w ++ [FrontmatterEditor.LErrorUsage what])))
  /\
  ((FrontmatterEditor.file args = None /\ FrontmatterEditor.directory args = None)
   \/ given (FrontmatterEditor.field args) = false ->
   exists what,
     FrontmatterEditor.removeField gm args items w =
       (Ok (FrontmatterEditor.Exited 1),
        mkWorld (files w) (console w ++ [FrontmatterEditor.LErrorUsage what]))).
Proof.
  split.
  - intros H. unfold FrontmatterEditor.setField. unfold_io.
    destruct (FrontmatterEditor.file args) as [fl|] eqn:Hf,
             (FrontmatterEditor.directory args) as [dr|] eqn:Hd;
      try (eexists; reflexivity);
      (destruct (given (FrontmatterEditor.field args)) eqn:Hg; simpl;
       [|eexists; reflexivity]);
      (destruct (FrontmatterEditor.value args) as [val|] eqn:Hv;
       [|eexists; reflexivity]);
      exfalso; destruct H as [[H1 H2]|[H|H]]; congruence.
  - intros H. unfold FrontmatterEditor.removeField. unfold_io.
    destruct (FrontmatterEditor.file args) as [fl|] eqn:Hf,
             (FrontmatterEditor.directory args) as [dr|] eqn:Hd;
      try (eexists; reflexivity);
      (destruct (FrontmatterEditor.field args) as [name|] eqn:Hfield;
       [|eexists; reflexivity]);
      (destruct (String.eqb_spec name "") as [->|Hne]; simpl;
       [eexists; reflexivity|]);
      exfalso; destruct H as [[H1 H2]|H]; try congruence;
      simpl in H; apply String.eqb_neq in Hne; rewrite Hne in H; discriminate.
Qed.

Lemma incomplete_commands_exit_without_effect_witness :
  let args := FrontmatterEditor.mkArgs (Some "set") (Some ["post.md"]) None
                (Some "status") None "yaml" false false false
                ".md,.markdown" None in
  let w := mkWorld {[ ["post.md"] := mkFile "text" true true ]} [] in
  exists what,
    FrontmatterEditor.setField (Ex.fixedCodec []) Ex.rejectJSON Ex.decimalNumber
      args None w =
    (Ok (FrontmatterEditor.Exited 1),
     mkWorld (files w) (console w ++ [FrontmatterEditor.LErrorUsage what])).
Proof.
  intros args w.
  destruct (incomplete_commands_exit_without_effect (Ex.fixedCodec [])
              Ex.rejectJSON Ex.decimalNumber args None w) as [H _].
  apply H. right. right. reflexivity.
Defined.

(** *** The command line *)

Lemma optionValue_isValue (rest : list string) (v : string) :
  optionValue rest = Some v ->
  exists r, rest = v :: r /\ v <> "" /\ startsWith "-" v = false.
Proof.
  destruct rest as [|next r]; [discriminate|]. unfold optionValue.
  destruct (String.eqb_spec next "") as [->|Hne]; [discriminate|]. simpl.
  destruct (startsWith "-" next) eqn:Hdash; [discriminate|]. simpl.
  intros [= ->]. now exists r.
Qed.

Lemma drop_1_cons {A} (a : A) (l : list A) : drop 1 (a :: l) = l.
Proof. reflexivity. Qed.

Ltac split_turn :=
  unfold parseTurn;
  repeat match goal with
  | |- context [if ?b then _ else _] => destruct b eqn:?
  | |- context [match optionValue ?r with _ => _ end] =>
      let E := fresh "Hval" in
      destruct (optionValue r) eqn:E;
      [apply optionValue_isValue in E; destruct E as (? & E & ? & ?);
       first [subst r | rewrite E in * ]; rewrite ?drop_1_cons in *|]
  | |- context [match ?c ?v with Some _ => _ | None => _ end] =>
      destruct (c v) eqn:?
  end.

(** The arguments a turn steps over are values. *)
Lemma parseTurn_consumes (compile : string -> option (string -> bool))
    (arg : string) (rest : list string) (o o' : Options) (k : nat) :
  parseTurn compile arg rest o = Next o' k ->
  Forall (fun x => startsWith "-" x = false) (take k rest).
Proof.
  split_turn; intros [= <- <-]; simplify_eq; simpl in *; simplify_eq;
    simpl; rewrite ?take_0; repeat first [apply Forall_nil_2 | apply Forall_cons_2];
    assumption.
Qed.

(** A turn that ends the process shows the help or fails on the pattern. *)
Lemma parseTurn_stop (compile : string -> option (string -> bool))
    (arg : string) (rest : list string) (o : Options) (r : Parsed) :
  parseTurn compile arg rest o = Stop r ->
  r = HelpShown \/
  exists v, r = InvalidPattern v /\ compile v = None /\ In v rest.
Proof.
  split_turn; intros [= <-]; first [now left | right].
  eexists. split; [reflexivity|]. split; [eassumption|]. now left.
Qed.

Section Examined.

Variable compile : string -> option (string -> bool).
Variable flag : string.
Variable R : Options -> Prop.
Variable Q : Parsed -> Prop.

Hypothesis flag_dash : startsWith "-" flag = true.
Hypothesis on_flag : forall rest o,
  match parseTurn compile flag rest o with
  | Next o' _ => R o'
  | Stop r => Q r
  end.
Hypothesis stable : forall arg rest o o' k,
  parseTurn compile arg rest o = Next o' k -> R o -> R o'.
Hypothesis stops : forall arg rest o r,
  parseTurn compile arg rest o = Stop r -> Q r.

Lemma parseTurn_stop_holds (arg : string) (rest : list string) (o : Options)
    (r : Parsed) :
  parseTurn compile arg rest o = Stop r ->
  match r with
  | Returned o' => R o'
  | HelpShown => Q HelpShown
  | InvalidPattern v => Q (InvalidPattern v)
  end.
Proof.
  intros H. pose proof (parseTurn_stop _ _ _ _ _ H) as [->|(v & -> & _)];
    now apply stops in H.
Qed.

Lemma parseLoop_kept (argv : list string) :
  forall skip o,
    R o ->
    match parseLoop compile skip argv o with
    | Returned o' => R o'
    | r => Q r
    end.
Proof.
  induction argv as [|arg rest IH]; intros skip o HR; simpl; [exact HR|].
  destruct skip as [|k]; [|now apply IH].
  destruct (parseTurn compile arg rest o) as [o' c|r] eqn:Hturn.
  - apply IH. eapply stable; eassumption.
  - eapply parseTurn_stop_holds; eassumption.
Qed.

Lemma parseLoop_examines (argv : list string) :
  forall skip o,
    In flag argv ->
    Forall (fun x => startsWith "-" x = false) (take skip argv) ->
    match parseLoop compile skip argv o with
    | Returned o' => R o'
    | r => Q r
    end.
Proof.
  induction argv as [|arg rest IH]; intros skip o Hin Hskip; [destruct Hin|].
  simpl. destruct skip as [|k].
  - destruct Hin as [->|Hin].
    + specialize (on_flag rest o).
      destruct (parseTurn compile flag rest o) as [o' c|r] eqn:Hturn.
      * now apply parseLoop_kept.
      * eapply parseTurn_stop_holds; eassumption.
    + destruct (parseTurn compile arg rest o) as [o' c|r] eqn:Hturn.
      * apply IH; [exact Hin|]. eapply parseTurn_consumes; eassumption.
      * eapply parseTurn_stop_holds; eassumption.
  - simpl in Hskip. inversion Hskip as [|x l Hx Hl]; subst.
    destruct Hin as [->|Hin]; [congruence|].
    now apply IH.
Qed.

End Examined.

(** An invariant of the options that every turn keeps holds of the
    options [parseArguments] returns. *)
Lemma parseLoop_invariant (compile : string -> option (string -> bool))
    (all : list string) (P : Options -> Prop) :
  (forall arg rest o o' k,
     In arg all -> (forall x, In x rest -> In x all) ->
     parseTurn compile arg rest o = Next o' k -> P o -> P o') ->
  forall argv skip o o',
    (forall x, In x argv -> In x all) -> P o ->
    parseLoop compile skip argv o = Returned o' -> P o'.
Proof.
  intros Hstep. induction argv as [|arg rest IH]; intros skip o o' Hall HP; simpl.
  - now intros [= <-].
  - assert (Hrest : forall x, In x rest -> In x all)
      by (intros x Hx; apply Hall; now right).
    destruct skip as [|k]; [|now apply IH].
    destruct (parseTurn compile arg rest o) as [o1 c|r] eqn:Hturn.
    + apply IH; [exact Hrest|].
      eapply Hstep; [| |exact Hturn|exact HP]; [apply Hall; now left|exact Hrest].
    + intros ->.
      apply parseTurn_stop in Hturn as [?|(v & ? & _)]; discriminate.
Qed.

(** X22.  dryRun is set exactly by the argument [--dry-run]: whatever
    else is on the command line, when [parseArguments] returns, the
    options have dryRun set if and only if [--dry-run] is among the
    arguments.  No option takes it as its value, and nothing unsets it. *)
Theorem dry_run_is_set_exactly_by_its_flag
    (compile : string -> option (string -> bool)) (argv : list string)
    (o : Options) :
  parseArguments compile argv = Returned o ->
  (dryRun (processing o) = true <-> In "--dry-run" argv).
Proof.
  intros Hret. split.
  - revert Hret. unfold parseArguments.
    apply (parseLoop_invariant compile argv
             (fun o => dryRun (processing o) = true -> In "--dry-run" argv));
      [|auto|discriminate].
    intros arg rest o0 o1 k Harg _.
    split_turn; intros [= <- <-] HP; simpl; try exact HP.
    intros _.
    match goal with H : (arg =? "--dry-run") = true |- _ =>
      apply String.eqb_eq in H; now subst end.
  - intros Hin.
    pose proof (parseLoop_examines compile "--dry-run"
                  (fun o => dryRun (processing o) = true)
                  (fun _ => True)) as H.
    unfold parseArguments in Hret.
    specialize (H eq_refl).
    assert (Hres : match parseLoop compile 0 argv initialOptions with
                   | Returned o => dryRun (processing o) = true
                   | _ => True
                   end).
    { apply H; [..|exact Hin|constructor].
      - intros rest o0. reflexivity.
      - intros arg rest o0 o1 k. split_turn; intros [= <- <-]; simpl; auto.
      - auto. }
    now rewrite Hret in Hres.
Qed.

Lemma dry_run_is_set_exactly_by_its_flag_witness :
  let o := mkOptions (setMode "to-string" (setDryRun true defaults))
             (Some "content") false None None None in
  dryRun (processing o) = true <->
  In "--dry-run" ["content"; "--mode"; "to-string"; "--dry-run"].
Proof.
  intros o.
  apply (dry_run_is_set_exactly_by_its_flag (fun _ => None)
           ["content"; "--mode"; "to-string"; "--dry-run"] o).
  reflexivity.
Defined.

(** X23.  The help flag ends the run wherever it stands: when [--help]
    or [-h] is among the arguments, [parseArguments] does not return.  The
    process exits after the help text, unless an earlier [--pattern] has a
    value that is no regular expression. *)
Theorem help_flag_ends_the_run
    (compile : string -> option (string -> bool)) (argv : list string) :
  In "--help" argv \/ In "-h" argv ->
  parseArguments compile argv = HelpShown \/
  exists v, parseArguments compile argv = InvalidPattern v /\
            compile v = None /\ In v argv.
Proof.
  intros Hin.
  set (Q := fun r : Parsed =>
              r = HelpShown \/
              exists v, r = InvalidPattern v /\ compile v = None).
  assert (Hstops : forall arg rest o r,
             parseTurn compile arg rest o = Stop r -> Q r).
  { intros arg rest o r H.
    apply parseTurn_stop in H as [->|(v & -> & Hv & _)]; [now left|].
    right. now exists v. }
  assert (Hres : match parseArguments compile argv with
                 | Returned _ => False
                 | r => Q r
                 end).
  { unfold parseArguments.
    destruct Hin as [Hin|Hin].
    - apply (parseLoop_examines compile "--help" (fun _ => False) Q);
        [reflexivity|intros; now left|auto|exact Hstops|exact Hin|constructor].
    - apply (parseLoop_examines compile "-h" (fun _ => False) Q);
        [reflexivity|intros; now left|auto|exact Hstops|exact Hin|constructor]. }
  destruct (parseArguments compile argv) as [o| |v] eqn:Hparse;
    [destruct Hres|now left|right].
  exists v. destruct Hres as [?|(v' & [= <-] & Hv)]; [discriminate|].
  split; [reflexivity|]. split; [exact Hv|].
  assert (Hinv : forall l skip o,
             parseLoop compile skip l o = InvalidPattern v -> In v l).
  { induction l as [|arg rest IH]; intros skip o; simpl; [discriminate|].
    destruct skip as [|k]; [|intros H; right; eapply IH; exact H].
    destruct (parseTurn compile arg rest o) as [o' c|r] eqn:Hturn.
    - intros H; right; eapply IH; exact H.
    - intros ->. apply parseTurn_stop in Hturn as [?|(v' & [= <-] & _ & ?)];
        [discriminate|now right]. }
  eapply Hinv. exact Hparse.
Qed.

Lemma help_flag_ends_the_run_witness :
  parseArguments (fun _ => None) ["content"; "--mode"; "--help"; "--dry-run"]
    = HelpShown \/
  exists v,
    parseArguments (fun _ => None) ["content"; "--mode"; "--help"; "--dry-run"]
      = InvalidPattern v /\
    (fun _ : string => @None (string -> bool)) v = None /\
    In v ["content"; "--mode"; "--help"; "--dry-run"].
Proof.
  apply (help_flag_ends_the_run (fun _ => None)
           ["content"; "--mode"; "--help"; "--dry-run"]).
  left. simpl. auto.
Defined.

Ltac is_value :=
  match goal with
  | Hrest : forall x, In x _ -> In x ?all |- isValue ?all ?s =>
      split; [apply Hrest; simpl; auto | split; assumption]
  end.

(** X24.  The options that name fields and directories hold values from
    the command line: when [parseArguments] returns, the field to add, to
    remove or to rename, the new name and the two directories of the
    copier are each null or an argument that is not empty and does not
    start with a dash.  The value to add is a string whenever the field to
    add is set (the empty string when none was given), a new name is only
    set together with a field to rename, and a target directory only
    together with a source directory. *)
Theorem named_options_hold_values
    (compile : string -> option (string -> bool)) (argv : list string)
    (o : Options) :
  parseArguments compile argv = Returned o ->
  (forall n, addField (processing o) = Some n ->
     isValue argv n /\
     exists v, addValue (processing o) = Some v /\ (v = "" \/ isValue argv v)) /\
  (addField (processing o) = None -> addValue (processing o) = None) /\
  (forall n, removeField (processing o) = Some n -> isValue argv n) /\
  (forall n, renameField (processing o) = Some n -> isValue argv n) /\
  (forall n, newFieldName (processing o) = Some n ->
     isValue argv n /\ renameField (processing o) <> None) /\
  (forall s, sourceFrontmatterDir o = Some s -> isValue argv s) /\
  (forall t, targetContentDir o = Some t ->
     isValue argv t /\ sourceFrontmatterDir o <> None).
Proof.
  unfold parseArguments.
  apply (parseLoop_invariant compile argv
           (fun o =>
              (forall n, addField (processing o) = Some n ->
                 isValue argv n /\
                 exists v, addValue (processing o) = Some v /\
                           (v = "" \/ isValue argv v)) /\
              (addField (processing o) = None -> addValue (processing o) = None) /\
              (forall n, removeField (processing o) = Some n -> isValue argv n) /\
              (forall n, renameField (processing o) = Some n -> isValue argv n) /\
              (forall n, newFieldName (processing o) = Some n ->
                 isValue argv n /\ renameField (processing o) <> None) /\
              (forall s, sourceFrontmatterDir o = Some s -> isValue argv s) /\
              (forall t, targetContentDir o = Some t ->
                 isValue argv t /\ sourceFrontmatterDir o <> None))).
  - intros arg rest o0 o1 k Harg Hrest.
    split_turn; intros [= <- <-] HP; simpl; try exact HP;
      destruct HP as (Hadd & Hnone & Hrem & Hren & Hnew & Hsrc & Htgt);
      (split; [|split; [|split; [|split; [|split; [|split]]]]]);
      try assumption; try discriminate;
      try (intros ? [= <-]);
      try is_value.
    all: try (split; [is_value|]).
    all: try (eexists; split; [reflexivity|]).
    all: try (right; is_value).
    all: try (now left).
    all: try discriminate.
    all: try (intros n Hn; split; [now apply Hnew|discriminate]).
    all: try (intros t Ht; split; [now apply Htgt|discriminate]).
  - auto.
  - simpl. repeat split; try discriminate; auto.
Qed.

Lemma named_options_hold_values_witness :
  isValue ["content"; "--add-field"; "draft"; "--dry-run"] "draft" /\
  exists v, Some "" = Some v /\
    (v = "" \/ isValue ["content"; "--add-field"; "draft"; "--dry-run"] v).
Proof.
  pose (o := mkOptions (setDryRun true (setAddField "draft" "" defaults))
               (Some "content") false None None None).
  destruct (named_options_hold_values (fun _ => None)
              ["content"; "--add-field"; "draft"; "--dry-run"] o eq_refl)
    as (Hadd & _).
  exact (Hadd "draft" eq_refl).
Defined.

(** *** update-images.js *)

Lemma occursIn_refl (s : string) : UpdateImages.occursIn s s.
Proof. exists "", "". now rewrite append_empty_r. Qed.

Lemma occursIn_trans (x y z : string) :
  UpdateImages.occursIn x y -> UpdateImages.occursIn y z ->
  UpdateImages.occursIn x z.
Proof.
  intros (b1 & a1 & ->) (b2 & a2 & ->).
  exists (b2 ++ b1), (a1 ++ a2). now rewrite !append_assoc.
Qed.

Lemma occursIn_prefix (x t : string) : UpdateImages.occursIn x (x ++ t).
Proof. now exists "", t. Qed.

Lemma occursIn_suffix (b x : string) : UpdateImages.occursIn x (b ++ x).
Proof. exists b, "". now rewrite append_empty_r. Qed.

Lemma prefix_append (p a : string) : String.prefix p (p ++ a) = true.
Proof.
  induction p as [|c p IH]; [now destruct a|].
  rewrite append_cons.
  change (String.prefix (String c p) (String c (p ++ a)))
    with (if ascii_dec c c then String.prefix p (p ++ a) else false).
  now destruct (ascii_dec c c).
Qed.

Lemma includes_occursIn (p s : string) :
  includes p s = true <-> UpdateImages.occursIn p s.
Proof.
  split.
  - induction s as [|c s IH]; cbn [includes]; intros H.
    + rewrite orb_false_r in H. apply prefix_dropChars in H. rewrite <- H.
      apply occursIn_prefix.
    + apply orb_true_iff in H as [H|H].
      * apply prefix_dropChars in H. rewrite <- H. apply occursIn_prefix.
      * destruct (IH H) as (b & a & ->). exists (String c b), a.
        now rewrite append_cons.
  - intros (b & a & ->). induction b as [|c b IH].
    + rewrite append_nil_l.
      destruct (p ++ a) eqn:E; cbn [includes]; rewrite <- E;
        now rewrite prefix_append.
    + rewrite append_cons. cbn [includes]. rewrite IH. apply orb_true_r.
Qed.

Lemma occursIn_dropChars (n : nat) (s : string) :
  UpdateImages.occursIn (dropChars n s) s.
Proof.
  revert s. induction n as [|n IH]; intros s; [apply occursIn_refl|].
  destruct s as [|c s]; [apply occursIn_refl|]. simpl.
  eapply occursIn_trans; [apply IH|]. apply (occursIn_suffix (String c "")).
Qed.

Lemma occursIn_trimStart (s : string) : UpdateImages.occursIn (trimStart s) s.
Proof.
  induction s as [|c s IH]; [apply occursIn_refl|]. simpl.
  destruct (isWhiteSpace c); [|apply occursIn_refl].
  eapply occursIn_trans; [apply IH|]. apply (occursIn_suffix (String c "")).
Qed.

Lemma trimEnd_prefix (s : string) : exists t, s = trimEnd s ++ t.
Proof.
  induction s as [|c s (t & IH)]; [now exists ""|]. cbn [trimEnd].
  destruct (trimEnd s) as [|c' r] eqn:E.
  - destruct (isWhiteSpace c); [now exists (String c s)|]. now exists s.
  - exists t. rewrite append_cons. now rewrite <- IH.
Qed.

Lemma occursIn_trim (s : string) : UpdateImages.occursIn (trim s) s.
Proof.
  unfold trim. eapply occursIn_trans; [|apply occursIn_trimStart].
  destruct (trimEnd_prefix (trimStart s)) as (t & H).
  rewrite H at 2. apply occursIn_prefix.
Qed.

Lemma occursIn_joinStrings (sep x : string) (l : list string) :
  In x l -> UpdateImages.occursIn x (joinStrings sep l).
Proof.
  induction l as [|y l IH]; intros Hin; [destruct Hin|].
  destruct l as [|z l].
  - destruct Hin as [->|[]]. apply occursIn_refl.
  - rewrite joinStrings_cons by easy. destruct Hin as [->|Hin].
    + apply occursIn_prefix.
    + eapply occursIn_trans; [apply IH, Hin|].
      rewrite <- append_assoc. apply occursIn_suffix.
Qed.

Lemma nl_not_empty : UpdateImages.nl <> "".
Proof. discriminate. Qed.

Lemma occursIn_split (x s : string) :
  In x (split UpdateImages.nl s) -> UpdateImages.occursIn x s.
Proof.
  intros Hin. rewrite <- (joinStrings_split UpdateImages.nl s).
  now apply occursIn_joinStrings.
Qed.

Lemma breakAt_spec (sep s before after : string) :
  UpdateImages.breakAt sep s = Some (before, after) ->
  s = before ++ sep ++ after.
Proof.
  revert before. induction s as [|c s IH]; intros before; cbn [UpdateImages.breakAt].
  - destruct (String.prefix sep "") eqn:E; [|discriminate].
    intros [= <- <-]. now rewrite append_nil_l, prefix_dropChars.
  - destruct (String.prefix sep (String c s)) eqn:E.
    + intros [= <- <-]. now rewrite append_nil_l, prefix_dropChars.
    + destruct (UpdateImages.breakAt sep s) as [[b a]|]; [|discriminate].
      intros [= <- <-]. rewrite append_cons. now rewrite <- (IH b).
Qed.

(** A match of the frontmatter expression splits the text into the
    opening line, the group, the closing line and the rest. *)
Lemma matchFrontmatter_spec (content yaml after : string) :
  UpdateImages.matchFrontmatter content = Some (yaml, after) ->
  content = UpdateImages.opening ++ yaml ++ UpdateImages.closing ++ after.
Proof.
  unfold UpdateImages.matchFrontmatter, startsWith.
  destruct (String.prefix UpdateImages.opening content) eqn:E; [|discriminate].
  intros H. apply breakAt_spec in H. apply prefix_dropChars in E.
  now rewrite <- H.
Qed.

(** The loop over the lines replaces the lines that [rewriteLine] replaces
    and keeps the others; the flag is set when some line was replaced. *)
Lemma rewriteLines_map (lines : list string) (modified : bool) :
  UpdateImages.rewriteLines lines modified =
  (map (fun l => default l (UpdateImages.rewriteLine l)) lines,
   modified || existsb (fun l => bool_decide (UpdateImages.rewriteLine l <> None)) lines).
Proof.
  revert modified. induction lines as [|l r IH]; intros modified; simpl.
  - now rewrite orb_false_r.
  - destruct (UpdateImages.rewriteLine l) as [l'|]; rewrite IH; simpl.
    + now rewrite orb_true_r.
    + reflexivity.
Qed.

Lemma rewriteLine_mentions (line line' : string) :
  UpdateImages.rewriteLine line = Some line' ->
  UpdateImages.occursIn "Golf Pitches" line.
Proof.
  unfold UpdateImages.rewriteLine.
  destruct (startsWith "authorBio:" line); [|discriminate].
  destruct (includes UpdateImages.phraseTransformed (UpdateImages.bioValue line)
            || includes UpdateImages.phraseEditor (UpdateImages.bioValue line))
    eqn:E; [|discriminate].
  intros _.
  assert (Hvalue : UpdateImages.occursIn "Golf Pitches" (UpdateImages.bioValue line)).
  { apply orb_true_iff in E as [E|E]; apply includes_occursIn in E;
      (eapply occursIn_trans; [|exact E]).
    - now exists "Patrick has transformed ", "".
    - now exists "golf enthusiast and the chief editor at ", "". }
  eapply occursIn_trans; [exact Hvalue|].
  unfold UpdateImages.bioValue.
  eapply occursIn_trans; [apply occursIn_trim|apply occursIn_dropChars].
Qed.

(** X25.  A file that does not mention the site is never written: when
    the text of a readable file does not contain [Golf Pitches],
    [processFile] leaves the files and the console as they are. *)
Theorem file_not_mentioning_the_site_is_left_alone
    (expand : string -> string -> string -> string -> string)
    (p : Path) (w : World UpdateImages.Line) (f : File) :
  files w !! p = Some f -> readable f = true ->
  includes "Golf Pitches" (content f) = false ->
  UpdateImages.processFile expand p w = (Ok tt, w).
Proof.
  intros Hfile Hread Hno.
  unfold UpdateImages.processFile. unfold_io. rewrite Hfile, Hread.
  destruct (UpdateImages.matchFrontmatter (content f)) as [[yaml after]|] eqn:Hm;
    [|reflexivity].
  rewrite rewriteLines_map. cbn [orb].
  destruct (existsb (fun l => bool_decide (UpdateImages.rewriteLine l <> None))
              (split UpdateImages.nl yaml)) eqn:Hex; [|reflexivity].
  exfalso. apply existsb_exists in Hex as (l & Hin & Hl).
  apply bool_decide_eq_true in Hl.
  destruct (UpdateImages.rewriteLine l) as [l'|] eqn:Hrw; [|congruence].
  apply rewriteLine_mentions in Hrw.
  assert (Hocc : UpdateImages.occursIn "Golf Pitches" (content f)).
  { eapply occursIn_trans; [exact Hrw|].
    eapply occursIn_trans; [apply occursIn_split, Hin|].
    apply matchFrontmatter_spec in Hm. rewrite Hm.
    exists UpdateImages.opening, (UpdateImages.closing ++ after). reflexivity. }
  apply includes_occursIn in Hocc. congruence.
Qed.

Lemma file_not_mentioning_the_site_is_left_alone_witness :
  let text := UpdateImages.opening ++ "authorBio: someone else" ++
              UpdateImages.closing ++ "body" in
  let w := mkWorld {[ ["posts"; "a.md"] := mkFile text true true ]} [] in
  UpdateImages.processFile (fun _ _ _ r => r) ["posts"; "a.md"] w = (Ok tt, w).
Proof.
  intros text w.
  apply (file_not_mentioning_the_site_is_left_alone (fun _ _ _ r => r)
           ["posts"; "a.md"] w (mkFile text true true));
    reflexivity.
Defined.

Lemma dollar_append (a b : string) :
  includes "$" (a ++ b) = includes "$" a || includes "$" b.
Proof.
  induction a as [|c a IH].
  - rewrite append_nil_l. reflexivity.
  - rewrite append_cons. cbn [includes]. rewrite !prefix_single, IH.
    now rewrite orb_assoc.
Qed.

Lemma dollar_occursIn (x s : string) :
  UpdateImages.occursIn x s -> includes "$" s = false -> includes "$" x = false.
Proof.
  intros (b & a & ->). rewrite !dollar_append.
  intros H. apply orb_false_iff in H as [_ H].
  now apply orb_false_iff in H as [H _].
Qed.

Lemma dollar_replaceFirst (v : string) :
  includes "$" v = false ->
  includes "$" (UpdateImages.replaceFirst UpdateImages.oldBio UpdateImages.newBio v)
    = false.
Proof.
  intros Hv. unfold UpdateImages.replaceFirst.
  destruct (UpdateImages.breakAt UpdateImages.oldBio v) as [[b a]|] eqn:E;
    [|exact Hv].
  apply breakAt_spec in E. rewrite E in Hv. rewrite !dollar_append in Hv.
  apply orb_false_iff in Hv as [Hb Hv]. apply orb_false_iff in Hv as [_ Ha].
  rewrite !dollar_append, Hb, Ha. reflexivity.
Qed.

Lemma dollar_rewriteLine (l l' : string) :
  UpdateImages.rewriteLine l = Some l' ->
  includes "$" l = false -> includes "$" l' = false.
Proof.
  unfold UpdateImages.rewriteLine.
  destruct (startsWith "authorBio:" l); [|discriminate].
  destruct (_ || _); [|discriminate].
  intros [= <-] Hl. rewrite dollar_append.
  rewrite dollar_replaceFirst; [reflexivity|].
  eapply dollar_occursIn; [|exact Hl]. unfold UpdateImages.bioValue.
  eapply occursIn_trans; [apply occursIn_trim|apply occursIn_dropChars].
Qed.

Lemma dollar_joinStrings (l : list string) :
  Forall (fun x => includes "$" x = false) l ->
  includes "$" (joinStrings UpdateImages.nl l) = false.
Proof.
  induction 1 as [|x l Hx Hl IH]; [reflexivity|].
  destruct l as [|y l]; [exact Hx|].
  rewrite joinStrings_cons by easy. rewrite !dollar_append, Hx, IH.
  reflexivity.
Qed.

(** X26.  An update keeps the body and the other lines.  For a readable,
    writable file whose text starts with a frontmatter block that holds no
    [$] and has a line the loop replaces, [processFile] writes the opening
    line, the lines of the block with the replaced lines in their places,
    the closing line and then the text after the block as it was, and
    prints one line.  ([expand] leaves a replacement text without [$] as
    it is.) *)
Theorem update_keeps_body_and_other_lines
    (expand : string -> string -> string -> string -> string)
    (p : Path) (w : World UpdateImages.Line) (f : File) (yaml after : string) :
  (forall m g a r, includes "$" r = false -> expand m g a r = r) ->
  files w !! p = Some f -> readable f = true -> writable f = true ->
  UpdateImages.matchFrontmatter (content f) = Some (yaml, after) ->
  includes "$" yaml = false ->
  (exists l, In l (split UpdateImages.nl yaml) /\
             UpdateImages.rewriteLine l <> None) ->
  UpdateImages.processFile expand p w =
    (Ok tt,
     mkWorld
       (<[p := mkFile
                 (UpdateImages.opening ++
                  joinStrings UpdateImages.nl
                    (map (fun l => default l (UpdateImages.rewriteLine l))
                         (split UpdateImages.nl yaml)) ++
                  UpdateImages.closing ++ after)
                 true true]> (files w))
       (console w ++ [UpdateImages.LUpdated p])).
Proof.
  intros Hexp Hfile Hread Hwrite Hm Hyaml (l & Hin & Hl).
  unfold UpdateImages.processFile. unfold_io. rewrite Hfile, Hread, Hm.
  rewrite rewriteLines_map. cbn [orb].
  assert (Hex : existsb (fun l => bool_decide (UpdateImages.rewriteLine l <> None))
                  (split UpdateImages.nl yaml) = true).
  { apply existsb_exists. exists l. split; [exact Hin|].
    now apply bool_decide_eq_true. }
  rewrite Hex, Hfile, Hwrite, Hread.
  rewrite Hexp; [now rewrite !append_assoc|].
  rewrite !dollar_append. rewrite dollar_joinStrings; [reflexivity|].
  apply List.Forall_forall. intros x Hx. apply in_map_iff in Hx as (y & <- & Hy).
  assert (Hyd : includes "$" y = false)
    by (eapply dollar_occursIn; [apply occursIn_split, Hy|exact Hyaml]).
  destruct (UpdateImages.rewriteLine y) as [y'|] eqn:Hrw; simpl; [|exact Hyd].
  eapply dollar_rewriteLine; eassumption.
Qed.

Lemma update_keeps_body_and_other_lines_witness :
  let yaml := "title: T" ++ UpdateImages.nl ++
              "authorBio:   Patrick has transformed Golf Pitches" in
  let text := UpdateImages.opening ++ yaml ++ UpdateImages.closing ++ "body" in
  let w := mkWorld {[ ["posts"; "a.md"] := mkFile text true true ]} [] in
  UpdateImages.processFile (fun _ _ _ r => r) ["posts"; "a.md"] w =
    (Ok tt,
     mkWorld
       (<[ ["posts"; "a.md"] :=
             mkFile
               (UpdateImages.opening ++
                joinStrings UpdateImages.nl
                  (map (fun l => default l (UpdateImages.rewriteLine l))
                       (split UpdateImages.nl yaml)) ++
                UpdateImages.closing ++ "body")
               true true]> (files w))
       (console w ++ [UpdateImages.LUpdated ["posts"; "a.md"]])).
Proof.
  intros yaml text w.
  apply (update_keeps_body_and_other_lines (fun _ _ _ r => r)
           ["posts"; "a.md"] w (mkFile text true true) yaml "body");
    try reflexivity.
  exists "authorBio:   Patrick has transformed Golf Pitches".
  split; [vm_compute; auto | vm_compute; discriminate].
Defined.

(** [processFile] never throws. *)
Lemma processFile_returns
    (expand : string -> string -> string -> string -> string)
    (p : Path) (w : World UpdateImages.Line) :
  fst (UpdateImages.processFile expand p w) = Ok tt.
Proof.
  unfold UpdateImages.processFile. unfold_io.
  destruct (files w !! p) as [f|] eqn:Hf; [|reflexivity].
  destruct (readable f); [|reflexivity].
  destruct (UpdateImages.matchFrontmatter (content f)) as [[yaml after]|];
    [|reflexivity].
  destruct (UpdateImages.rewriteLines (split UpdateImages.nl yaml) false)
    as [lines [|]]; [|reflexivity].
  cbn beta. rewrite Hf. destruct (writable f); reflexivity.
Qed.

Lemma forEach_app {L A} (f : A -> IO L unit) (l1 l2 : list A) (w : World L) :
  (forall x w', fst (f x w') = Ok tt) ->
  forEach f (l1 ++ l2)%list w = forEach f l2 (snd (forEach f l1 w)).
Proof.
  intros Hf. revert w. induction l1 as [|x l1 IH]; intros w; [reflexivity|].
  simpl. unfold bind. specialize (Hf x w).
  destruct (f x w) as [[[]|e] w']; simpl in *; [apply IH|discriminate].
Qed.

(** X27.  A file that fails does not stop the run: whatever the files
    are, the loop of [processDirectory] over the names of a listing ends
    without an exception, and a run over a listing is the run over its
    first part followed by the run over the rest, in the world the first
    part leaves. *)
Theorem failing_file_does_not_stop_the_run
    (expand : string -> string -> string -> string -> string)
    (dir : Path) (names1 names2 : list string) (w : World UpdateImages.Line) :
  fst (UpdateImages.processDirectory expand dir (Ok names1) w) = Ok tt /\
  UpdateImages.processDirectory expand dir (Ok (names1 ++ names2)%list) w =
  UpdateImages.processDirectory expand dir (Ok names2)
    (snd (UpdateImages.processDirectory expand dir (Ok names1) w)).
Proof.
  assert (Hcomp :
    UpdateImages.processDirectory expand dir (Ok (names1 ++ names2)%list) w =
    UpdateImages.processDirectory expand dir (Ok names2)
      (snd (UpdateImages.processDirectory expand dir (Ok names1) w))).
  { unfold UpdateImages.processDirectory, bind, lift.
    rewrite List.filter_app. apply forEach_app.
    intros x w'. apply processFile_returns. }
  split; [|exact Hcomp].
  clear Hcomp. unfold UpdateImages.processDirectory, bind, lift.
  generalize (List.filter (fun file => endsWith ".md" file) names1).
  intros l. revert w. induction l as [|x l IH]; intros w; [reflexivity|].
  simpl. unfold bind.
  pose proof (processFile_returns expand (path_join dir x) w) as Hx.
  destruct (UpdateImages.processFile expand (path_join dir x) w) as [[[]|e] w'];
    simpl in *; [apply IH|discriminate].
Qed.

(** X28.  A run changes no file other than the entries of the directory
    whose names end in [.md]; with a listing that fails it changes none
    and prints the error. *)
Theorem run_changes_only_markdown_of_the_directory
    (expand : string -> string -> string -> string -> string)
    (dir : Path) (names : list string) :
  changesOnly (UpdateImages.markdownOf dir names)
    (UpdateImages.run expand dir (Ok names)) /\
  forall e w,
    UpdateImages.run expand dir (Throw e) w =
      (Ok tt, mkWorld (files w) (console w ++ [UpdateImages.LError e])).
Proof.
  split; [|reflexivity].
  unfold UpdateImages.run.
  apply co_tryCatch; [|intros e; apply co_preserves, pf_log].
  assert (Hloop :
    changesOnly (UpdateImages.markdownOf dir names)
      (forEach (fun file => UpdateImages.processFile expand (path_join dir file))
               (List.filter (fun file => endsWith ".md" file) names)));
    [|intros w q Hq; exact (Hloop w q Hq)].
  apply co_forEach. intros file Hin. apply List.filter_In in Hin as [Hin Hmd].
  assert (HP : UpdateImages.markdownOf dir names (path_join dir file))
    by now exists file.
  unfold UpdateImages.processFile.
  apply co_tryCatch; [|intros e; apply co_preserves, pf_log].
  apply co_bind; [apply co_preserves, pf_readFileSync|]. intros text.
  destruct (UpdateImages.matchFrontmatter text) as [[yaml after]|];
    [|apply co_preserves, pf_ret].
  destruct (UpdateImages.rewriteLines (split UpdateImages.nl yaml) false)
    as [lines [|]]; [|apply co_preserves, pf_ret].
  apply co_bind; [now apply co_writeFileSync|].
  intros _. apply co_preserves, pf_log.
Qed.
